(** * NBT decoder ([nbt.hpp]): a shallow embedding and its properties

    The header defines the value model ([Tag], a [std::variant] over thirteen
    alternatives) and [NBTFile], a cursor over a [std::span<const std::byte>]
    with a recursive-descent decoder.  The embedding follows the header
    member by member: the cursor position is threaded explicitly, and the
    ways a member function can end are kept apart in [Outcome]. *)

From Stdlib.Strings Require Import String Ascii Byte.
From Stdlib Require Import ZArith List Bool Lia.
Import ListNotations.

Set Warnings "-register-all".

Open Scope Z_scope.

(** ** Outcomes of a member function

    Memory and call stack are not part of the embedding: it grants every
    allocation below the limits the library checks itself ([max_size]), and
    recursion costs it nothing.  The code, refused an allocation, ends in
    [std::bad_alloc], and out of stack it does not end regularly at all;
    neither is an outcome below.  So a run of the code that returns
    without an access outside the span is a run of the embedding that ends
    in [Ok] or [Absent], with the same value; the converse holds where
    memory and stack suffice.  After an access outside the span
    ([Undefined]) nothing is said of what the code does: it may return
    anything. *)

Inductive Outcome (A : Type) : Type :=
| Ok (a : A)   (* the function returned a value *)
| Absent       (* the function returned [std::nullopt] *)
| Undefined    (* the span was indexed or sliced outside its bounds *)
| Throws       (* a C++ exception left the function *)
| OutOfFuel.   (* the recursion budget of the embedding ran out *)

Arguments Ok {A} a.
Arguments Absent {A}.
Arguments Undefined {A}.
Arguments Throws {A}.
Arguments OutOfFuel {A}.

Definition bind {A B : Type} (m : Outcome A) (k : A -> Outcome B) : Outcome B :=
  match m with
  | Ok a => k a
  | Absent => Absent
  | Undefined => Undefined
  | Throws => Throws
  | OutOfFuel => OutOfFuel
  end.

Notation "' p <- m ;; k" := (bind m (fun p => k))
  (at level 61, p pattern, m at next level, right associativity).

Definition is_Ok {A : Type} (o : Outcome A) : bool :=
  match o with Ok _ => true | _ => false end.

(** ** Machine integers *)

(** [static_cast<size_t>] of a signed integer on a 64-bit target. *)
Definition to_size_t (z : Z) : Z := z mod 2 ^ 64.

(** Two's-complement reading of a [w]-bit pattern. *)
Definition signed (w : Z) (u : Z) : Z :=
  if u <? 2 ^ (w - 1) then u else u - 2 ^ w.

Definition byte_value (b : byte) : Z := Z.of_N (Byte.to_N b).

(** [std::bit_cast] of a [std::array<std::byte, N>] to the signed integer of
    the same width.  The object representation is the host's; the embedding
    fixes a little-endian host (element 0 is the least significant byte). *)
Fixpoint le_combine (bytes : list byte) : Z :=
  match bytes with
  | [] => 0
  | b :: rest => byte_value b + 256 * le_combine rest
  end.

Definition bit_cast_int (bytes : list byte) : Z :=
  signed (8 * Z.of_nat (length bytes)) (le_combine bytes).

(** ** The value model *)

Inductive Tag : Type :=
| TEnd
| TByte (value : Z)
| TShort (value : Z)
| TInt (value : Z)
| TLong (value : Z)
| TFloat (bits : Z)            (* the IEEE-754 pattern, as the int32 it was cast from *)
| TDouble (bits : Z)           (* the IEEE-754 pattern, as the int64 it was cast from *)
| TString (value : string)
| TByteArray (value : list Z)
| TIntArray (value : list Z)
| TLongArray (value : list Z)
| TList (value : list Tag)                 (* std::list<Tag> *)
| TCompound (value : list (string * Tag)).  (* std::map<std::string, Tag>, in iteration order *)

(** The alternatives of the variant, as they are used for the template
    argument of [readTag<T>] and [readListTag<T>]. *)
Inductive TagType : Type :=
| EndTag | ByteTag | ShortTag | IntTag | LongTag | FloatTag | DoubleTag
| StringTag | ByteArrayTag | IntArrayTag | LongArrayTag | ListTag | CompoundTag.

(** *** [CompoundTag]: a [std::map] keyed by [std::string] *)

Definition CompoundMap : Type := list (string * Tag).

(** [std::map::emplace]: the entry is placed at its position in key order;
    when the key is already present the map is left as it is. *)
Fixpoint map_emplace (name : string) (tag : Tag) (m : CompoundMap) : CompoundMap :=
  match m with
  | [] => [(name, tag)]
  | (k, v) :: m' =>
      match String.compare name k with
      | Lt => (name, tag) :: m
      | Eq => m
      | Gt => (k, v) :: map_emplace name tag m'
      end
  end.

(** [std::map::find]. *)
Fixpoint map_find (name : string) (m : CompoundMap) : option Tag :=
  match m with
  | [] => None
  | (k, v) :: m' => if String.eqb name k then Some v else map_find name m'
  end.

Definition keys (m : CompoundMap) : list string := map fst m.

(** The state of a [std::string] after it was the source of a move
    construction.  The standard only promises a valid state; libstdc++,
    libc++ and the MSVC library all leave the string empty. *)
Definition moved_from (s : string) : string := EmptyString.

(** *** Container limits *)

Definition PTRDIFF_MAX : Z := 2 ^ 63 - 1.

(** [std::vector<T>::max_size()] for an element of [width] bytes;
    [reserve(n)] throws [std::length_error] when [n] exceeds it. *)
Definition vector_max_size (width : Z) : Z := PTRDIFF_MAX / width.

(** No [std::list] holds more than [PTRDIFF_MAX] nodes: the allocation of a
    further node throws.  Below that bound memory is taken to suffice. *)
Definition list_max_size : Z := PTRDIFF_MAX.

(** ** [NBTFile] *)

Module NBTFile.

(** [enum class ID].  A value of the enumeration type can hold any [int];
    [enumerator] tells which enumerator, if any, a value equals. *)
Inductive ID : Type :=
| END | BYTE | SHORT | INT | LONG | FLOAT | DOUBLE
| BYTE_ARRAY | STRING | LIST | COMPOUND | INT_ARRAY | LONG_ARRAY.

Definition ID_value (id : ID) : Z :=
  match id with
  | END => 0 | BYTE => 1 | SHORT => 2 | INT => 3 | LONG => 4 | FLOAT => 5
  | DOUBLE => 6 | BYTE_ARRAY => 7 | STRING => 8 | LIST => 9 | COMPOUND => 10
  | INT_ARRAY => 11 | LONG_ARRAY => 12
  end.

Definition enumerator (code : Z) : option ID :=
  if code =? 0 then Some END
  else if code =? 1 then Some BYTE
  else if code =? 2 then Some SHORT
  else if code =? 3 then Some INT
  else if code =? 4 then Some LONG
  else if code =? 5 then Some FLOAT
  else if code =? 6 then Some DOUBLE
  else if code =? 7 then Some BYTE_ARRAY
  else if code =? 8 then Some STRING
  else if code =? 9 then Some LIST
  else if code =? 10 then Some COMPOUND
  else if code =? 11 then Some INT_ARRAY
  else if code =? 12 then Some LONG_ARRAY
  else None.

(** *** The span *)

Definition Span : Type := list byte.

Definition size (data : Span) : Z := Z.of_nat (length data).

(** [data[pos++]]: the element and the advanced position; indexing at or
    past the length is outside the span. *)
Definition index (data : Span) (pos : nat) : Outcome (byte * nat) :=
  match nth_error data pos with
  | Some b => Ok (b, S pos)
  | None => Undefined
  end.

Definition dynamic_extent : Z := 2 ^ 64 - 1.

(** [data.subspan(offset, count)].  Its precondition is
    [offset <= size() && (count == dynamic_extent || count <= size() - offset)]. *)
Definition subspan (data : Span) (offset : nat) (count : Z) : option Span :=
  if size data <? Z.of_nat offset then None
  else if count =? dynamic_extent then Some (skipn offset data)
  else if count <=? size data - Z.of_nat offset
       then Some (firstn (Z.to_nat count) (skipn offset data))
       else None.

(** *** Fixed-width reads

    [pos + 2], [pos + 4] and [pos + 8] are sums of [size_t]; they are taken
    without wrap-around, which no span that fits the address space reaches. *)

Definition readI8 (data : Span) (pos : nat) : Outcome (Z * nat) :=
  if Z.of_nat pos >? size data then Absent
  else
    '(b0, pos) <- index data pos ;;
    Ok (bit_cast_int [b0], pos).

Definition readI16 (data : Span) (pos : nat) : Outcome (Z * nat) :=
  if Z.of_nat pos + 2 >? size data then Absent
  else
    '(b1, pos) <- index data pos ;;
    '(b0, pos) <- index data pos ;;
    Ok (bit_cast_int [b0; b1], pos).

Definition readI32 (data : Span) (pos : nat) : Outcome (Z * nat) :=
  if Z.of_nat pos + 4 >? size data then Absent
  else
    '(b3, pos) <- index data pos ;;
    '(b2, pos) <- index data pos ;;
    '(b1, pos) <- index data pos ;;
    '(b0, pos) <- index data pos ;;
    Ok (bit_cast_int [b0; b1; b2; b3], pos).

Definition readI64 (data : Span) (pos : nat) : Outcome (Z * nat) :=
  if Z.of_nat pos + 8 >? size data then Absent
  else
    '(b7, pos) <- index data pos ;;
    '(b6, pos) <- index data pos ;;
    '(b5, pos) <- index data pos ;;
    '(b4, pos) <- index data pos ;;
    '(b3, pos) <- index data pos ;;
    '(b2, pos) <- index data pos ;;
    '(b1, pos) <- index data pos ;;
    '(b0, pos) <- index data pos ;;
    Ok (bit_cast_int [b0; b1; b2; b3; b4; b5; b6; b7], pos).

(** [std::bit_cast<float>] and [std::bit_cast<double>] keep the bit pattern;
    the embedding carries the pattern itself. *)
Definition readF32 (data : Span) (pos : nat) : Outcome (Z * nat) :=
  '(i32, pos) <- readI32 data pos ;; Ok (i32, pos).

Definition readF64 (data : Span) (pos : nat) : Outcome (Z * nat) :=
  '(i64, pos) <- readI64 data pos ;; Ok (i64, pos).

(** [static_cast<ID>( *i8)]: the value of the enumeration, not yet matched
    against the enumerators. *)
Definition readID (data : Span) (pos : nat) : Outcome (Z * nat) :=
  '(i8, pos) <- readI8 data pos ;; Ok (i8, pos).

(** In [pos + *size] the 16-bit length is converted to [size_t], and the sum
    is taken modulo 2^64. *)
Definition readString (data : Span) (pos : nat) : Outcome (string * nat) :=
  '(size16, pos) <- readI16 data pos ;;
  if to_size_t (Z.of_nat pos + size16) >? size data then Absent
  else
    match subspan data pos (to_size_t size16) with
    | Some bytes => Ok (string_of_list_byte bytes, (pos + length bytes)%nat)
    | None => Undefined
    end.

(** *** Decoders of the scalar and string alternatives *)

Definition readTag_ByteTag (data : Span) (pos : nat) : Outcome (Tag * nat) :=
  '(i8, pos) <- readI8 data pos ;; Ok (TByte i8, pos).

Definition readTag_ShortTag (data : Span) (pos : nat) : Outcome (Tag * nat) :=
  '(i16, pos) <- readI16 data pos ;; Ok (TShort i16, pos).

Definition readTag_IntTag (data : Span) (pos : nat) : Outcome (Tag * nat) :=
  '(i32, pos) <- readI32 data pos ;; Ok (TInt i32, pos).

Definition readTag_LongTag (data : Span) (pos : nat) : Outcome (Tag * nat) :=
  '(i64, pos) <- readI64 data pos ;; Ok (TLong i64, pos).

Definition readTag_FloatTag (data : Span) (pos : nat) : Outcome (Tag * nat) :=
  '(f32, pos) <- readF32 data pos ;; Ok (TFloat f32, pos).

Definition readTag_DoubleTag (data : Span) (pos : nat) : Outcome (Tag * nat) :=
  '(f64, pos) <- readF64 data pos ;; Ok (TDouble f64, pos).

Definition readTag_StringTag (data : Span) (pos : nat) : Outcome (Tag * nat) :=
  '(str, pos) <- readString data pos ;; Ok (TString str, pos).

Definition readTag_EndTag (data : Span) (pos : nat) : Outcome (Tag * nat) :=
  Ok (TEnd, pos).

(** *** Array decoders *)

(** [for (size_t i = 0; i < size; ++i)] over one fixed-width read, with [n]
    iterations left; a failed read leaves the function at once. *)
Fixpoint read_array (readElem : nat -> Outcome (Z * nat)) (n : nat) (pos : nat)
    (array : list Z) : Outcome (list Z * nat) :=
  match n with
  | O => Ok (array, pos)
  | S n' =>
      '(v, pos) <- readElem pos ;;
      read_array readElem n' pos (array ++ [v])
  end.

(** [array.reserve(size)]: [std::length_error] above [max_size()].  The
    [std::bad_alloc] of a request that memory cannot meet is not modelled. *)
Definition reserve (width : Z) (size : Z) : Outcome unit :=
  if size >? vector_max_size width then Throws else Ok tt.

Definition readTag_ByteArrayTag (data : Span) (pos : nat) : Outcome (Tag * nat) :=
  '(len, pos) <- readI32 data pos ;;
  let size := to_size_t len in
  '_ <- reserve 1 size ;;
  '(array, pos) <- read_array (readI8 data) (Z.to_nat size) pos [] ;;
  Ok (TByteArray array, pos).

Definition readTag_IntArrayTag (data : Span) (pos : nat) : Outcome (Tag * nat) :=
  '(len, pos) <- readI32 data pos ;;
  let size := to_size_t len in
  '_ <- reserve 4 size ;;
  '(array, pos) <- read_array (readI32 data) (Z.to_nat size) pos [] ;;
  Ok (TIntArray array, pos).

Definition readTag_LongArrayTag (data : Span) (pos : nat) : Outcome (Tag * nat) :=
  '(len, pos) <- readI32 data pos ;;
  let size := to_size_t len in
  '_ <- reserve 8 size ;;
  '(array, pos) <- read_array (readI64 data) (Z.to_nat size) pos [] ;;
  Ok (TLongArray array, pos).

(** *** Lists *)

(** [list.emplace_back(std::move( *v))].  The [std::bad_alloc] of a node that
    memory cannot hold is not modelled below [list_max_size]. *)
Definition emplace_back (lst : list Tag) (v : Tag) : Outcome (list Tag) :=
  if Z.of_nat (length lst) >=? list_max_size then Throws else Ok (lst ++ [v]).

(** The loop of [readListTag<T>], with [n] iterations left; [readTagT] is
    [readTag<T>] on the span at hand. *)
Fixpoint readListTag_loop (readTagT : nat -> Outcome (Tag * nat)) (n : nat) (pos : nat)
    (lst : list Tag) : Outcome (list Tag * nat) :=
  match n with
  | O => Ok (lst, pos)
  | S n' =>
      '(v, pos) <- readTagT pos ;;
      'lst <- emplace_back lst v ;;
      readListTag_loop readTagT n' pos lst
  end.

Definition readListTag (readTagT : nat -> Outcome (Tag * nat)) (data : Span) (pos : nat)
    : Outcome (Tag * nat) :=
  '(len, pos) <- readI32 data pos ;;
  let size := to_size_t len in
  '(lst, pos) <- readListTag_loop readTagT (Z.to_nat size) pos [] ;;
  Ok (TList lst, pos).

(** The alternative that [switch ( *id)] selects in [readTag<ListTag>]. *)
Definition alternative (id : ID) : TagType :=
  match id with
  | END => EndTag | BYTE => ByteTag | SHORT => ShortTag | INT => IntTag
  | LONG => LongTag | FLOAT => FloatTag | DOUBLE => DoubleTag
  | BYTE_ARRAY => ByteArrayTag | STRING => StringTag | LIST => ListTag
  | COMPOUND => CompoundTag | INT_ARRAY => IntArrayTag | LONG_ARRAY => LongArrayTag
  end.

(** *** Compounds *)

(** The lambda [emplace] of [readTag<CompoundTag>]: on a successful read the
    tag is emplaced under [name] and the lambda returns [true]; the caller
    returns [std::nullopt] when it returns [false]. *)
Definition emplace (ct : CompoundMap) (name : string)
    (read : nat -> Outcome (Tag * nat)) (pos : nat) : Outcome (CompoundMap * nat) :=
  '(tag, pos) <- read pos ;;
  Ok (map_emplace name tag ct, pos).

(** The [switch ( *id)] in the loop of [readTag<CompoundTag>], entered with
    an [id] other than [END]; [readTagT T] is [readTag<T>].  Every case but
    one emplaces one tag and ends in [break].  [case ID::LIST] has no
    [break]: control runs on into [case ID::COMPOUND], where [name] has
    already been moved from. *)
Definition compound_switch (readTagT : TagType -> nat -> Outcome (Tag * nat))
    (id : Z) (name : string) (ct : CompoundMap) (pos : nat) : Outcome (CompoundMap * nat) :=
  match enumerator id with
  | Some LIST =>
      '(ct, pos) <- emplace ct name (readTagT ListTag) pos ;;
      emplace ct (moved_from name) (readTagT CompoundTag) pos
  | Some END | None => Absent
  | Some id => emplace ct name (readTagT (alternative id)) pos
  end.

(** [readTag<T>] for every alternative [T], and the [while (true)] loop of
    [readTag<CompoundTag>] with the compound built so far.  [fuel] bounds the
    nesting of lists and compounds and the iterations of the compound loop;
    [fuel_for] below is always enough. *)
Fixpoint readTag (fuel : nat) (T : TagType) (data : Span) (pos : nat) {struct fuel}
    : Outcome (Tag * nat) :=
  match T with
  | EndTag => readTag_EndTag data pos
  | ByteTag => readTag_ByteTag data pos
  | ShortTag => readTag_ShortTag data pos
  | IntTag => readTag_IntTag data pos
  | LongTag => readTag_LongTag data pos
  | FloatTag => readTag_FloatTag data pos
  | DoubleTag => readTag_DoubleTag data pos
  | StringTag => readTag_StringTag data pos
  | ByteArrayTag => readTag_ByteArrayTag data pos
  | IntArrayTag => readTag_IntArrayTag data pos
  | LongArrayTag => readTag_LongArrayTag data pos
  | ListTag =>
      match fuel with
      | O => OutOfFuel
      | S fuel' =>
          '(id, pos) <- readID data pos ;;
          match enumerator id with
          | Some id => readListTag (readTag fuel' (alternative id) data) data pos
          | None => Absent
          end
      end
  | CompoundTag =>
      match fuel with
      | O => OutOfFuel
      | S fuel' =>
          '(ct, pos) <- readTag_CompoundTag_loop fuel' data pos [] ;;
          Ok (TCompound ct, pos)
      end
  end

with readTag_CompoundTag_loop (fuel : nat) (data : Span) (pos : nat) (ct : CompoundMap)
    {struct fuel} : Outcome (CompoundMap * nat) :=
  match fuel with
  | O => OutOfFuel
  | S fuel' =>
      '(id, pos) <- readID data pos ;;
      if id =? ID_value END then Ok (ct, pos)
      else
        '(name, pos) <- readString data pos ;;
        '(ct, pos) <- compound_switch (fun T => readTag fuel' T data) id name ct pos ;;
        readTag_CompoundTag_loop fuel' data pos ct
  end.

Definition readTag_ListTag (fuel : nat) : Span -> nat -> Outcome (Tag * nat) :=
  readTag fuel ListTag.

Definition readTag_CompoundTag (fuel : nat) : Span -> nat -> Outcome (Tag * nat) :=
  readTag fuel CompoundTag.

(** *** The root reader *)

Definition read_fuel (fuel : nat) (data : Span) : Outcome CompoundMap :=
  '(id, pos) <- readID data 0%nat ;;
  if negb (id =? ID_value COMPOUND) then Absent
  else
    '(name, pos) <- readString data pos ;;
    '(tag, pos) <- readTag_CompoundTag fuel data pos ;;
    Ok (map_emplace name tag []).

(** A budget that no span exhausts (see [read_fuel_enough]). *)
Definition fuel_for (data : Span) : nat := S (S (length data)).

Definition read (data : Span) : Outcome CompoundMap :=
  read_fuel (fuel_for data) data.

End NBTFile.

Import NBTFile.

(** ** Reading functions as position transformers

    [inside L f]: a successful [f] moves the cursor forward and, started
    inside a span of length [L], stays inside it.  [sim L f g]: [g] repeats
    every success of [f] that ends before [L].  [agrees f g]: [g] repeats
    every outcome of [f] but running out of budget. *)

Definition inside {A : Type} (L : nat) (f : nat -> Outcome (A * nat)) : Prop :=
  forall pos v p, f pos = Ok (v, p) -> (pos <= p)%nat /\ ((pos <= L)%nat -> (p <= L)%nat).

Definition sim {A : Type} (L : nat) (f g : nat -> Outcome (A * nat)) : Prop :=
  forall pos v p, f pos = Ok (v, p) -> (p < L)%nat -> g pos = Ok (v, p).

Definition agrees {A : Type} (f g : nat -> Outcome (A * nat)) : Prop :=
  forall pos, f pos <> OutOfFuel -> g pos = f pos.

Definition funded {A : Type} (lo hi : nat) (f : nat -> Outcome (A * nat)) : Prop :=
  forall pos, (lo <= pos <= hi)%nat -> f pos <> OutOfFuel.

(** [shifts k f g]: [g] repeats every success of [f], [k] bytes further on. *)
Definition shifts {A : Type} (k : nat) (f g : nat -> Outcome (A * nat)) : Prop :=
  forall pos v p, f pos = Ok (v, p) -> g (k + pos)%nat = Ok (v, (k + p)%nat).

(** The alternatives decoded without recursion. *)
Definition leaf (T : TagType) : bool :=
  match T with
  | ListTag | CompoundTag => false
  | _ => true
  end.

(** ** Key order of a compound *)

(** The keys ascend strictly in the order of [std::less<std::string>]. *)
Fixpoint sorted_keys (ks : list string) : bool :=
  match ks with
  | [] => true
  | k1 :: rest =>
      match rest with
      | [] => true
      | k2 :: _ => String.ltb k1 k2 && sorted_keys rest
      end
  end.

(** Every compound in a tag, at any depth, enumerates its entries in
    ascending key order. *)
Fixpoint ordered (t : Tag) : bool :=
  match t with
  | TList lst => forallb ordered lst
  | TCompound m =>
      sorted_keys (map fst m) && forallb (fun kv => ordered (snd kv)) m
  | _ => true
  end.

Definition ordered_map (m : CompoundMap) : bool := ordered (TCompound m).

(** ** The decoder with its reads asserted

    The guarded decoder is the decoder of [NBTFile] with two assertions
    added and nothing else changed: [kind_ok] is asserted of every kind code
    the moment it is read, [size_ok] of every string length and every array
    or list count the moment it is read.  A failed assertion ends the decode
    with [Absent].  That the decoder and the guarded decoder return the same
    trees states a fact about every value read on the way to a tree. *)

Section Guards.

Variable kind_ok : Z -> bool.
Variable size_ok : Z -> bool.

Definition check (b : bool) : Outcome unit := if b then Ok tt else Absent.

(** [readID] with the code asserted. *)
Definition readID_guarded (data : Span) (pos : nat) : Outcome (Z * nat) :=
  '(id, pos) <- readID data pos ;;
  '_ <- check (kind_ok id) ;;
  Ok (id, pos).

(** The 16-bit length at the cursor asserted, then [readString]. *)
Definition readString_guarded (data : Span) (pos : nat) : Outcome (string * nat) :=
  '(size16, _) <- readI16 data pos ;;
  '_ <- check (size_ok size16) ;;
  readString data pos.

(** The 32-bit count at the cursor asserted, then the decoder [read]. *)
Definition counted_guarded {A : Type} (read : Span -> nat -> Outcome (A * nat)) (data : Span)
    (pos : nat) : Outcome (A * nat) :=
  '(len, _) <- readI32 data pos ;;
  '_ <- check (size_ok len) ;;
  read data pos.

Fixpoint readTag_guarded (fuel : nat) (T : TagType) (data : Span) (pos : nat) {struct fuel}
    : Outcome (Tag * nat) :=
  match T with
  | EndTag => readTag_EndTag data pos
  | ByteTag => readTag_ByteTag data pos
  | ShortTag => readTag_ShortTag data pos
  | IntTag => readTag_IntTag data pos
  | LongTag => readTag_LongTag data pos
  | FloatTag => readTag_FloatTag data pos
  | DoubleTag => readTag_DoubleTag data pos
  | StringTag => '(str, pos) <- readString_guarded data pos ;; Ok (TString str, pos)
  | ByteArrayTag => counted_guarded readTag_ByteArrayTag data pos
  | IntArrayTag => counted_guarded readTag_IntArrayTag data pos
  | LongArrayTag => counted_guarded readTag_LongArrayTag data pos
  | ListTag =>
      match fuel with
      | O => OutOfFuel
      | S fuel' =>
          '(id, pos) <- readID_guarded data pos ;;
          match enumerator id with
          | Some id =>
              counted_guarded
                (readListTag (readTag_guarded fuel' (alternative id) data)) data pos
          | None => Absent
          end
      end
  | CompoundTag =>
      match fuel with
      | O => OutOfFuel
      | S fuel' =>
          '(ct, pos) <- readTag_CompoundTag_loop_guarded fuel' data pos [] ;;
          Ok (TCompound ct, pos)
      end
  end

with readTag_CompoundTag_loop_guarded (fuel : nat) (data : Span) (pos : nat) (ct : CompoundMap)
    {struct fuel} : Outcome (CompoundMap * nat) :=
  match fuel with
  | O => OutOfFuel
  | S fuel' =>
      '(id, pos) <- readID_guarded data pos ;;
      if id =? ID_value END then Ok (ct, pos)
      else
        '(name, pos) <- readString_guarded data pos ;;
        '(ct, pos) <- compound_switch (fun T => readTag_guarded fuel' T data) id name ct pos ;;
        readTag_CompoundTag_loop_guarded fuel' data pos ct
  end.

Definition read_fuel_guarded (fuel : nat) (data : Span) : Outcome CompoundMap :=
  '(id, pos) <- readID_guarded data 0%nat ;;
  if negb (id =? ID_value COMPOUND) then Absent
  else
    '(name, pos) <- readString_guarded data pos ;;
    '(tag, pos) <- readTag_guarded fuel CompoundTag data pos ;;
    Ok (map_emplace name tag []).

Definition read_guarded (data : Span) : Outcome CompoundMap :=
  read_fuel_guarded (fuel_for data) data.

End Guards.

(** The two assertions of interest. *)
Definition valid_kind (id : Z) : bool := (0 <=? id) && (id <=? 12).
Definition unchecked (z : Z) : bool := true.

(** The decoders that begin with a 32-bit count. *)
Inductive counted_decoder : (Span -> nat -> Outcome (Tag * nat)) -> Prop :=
| counted_ByteArrayTag : counted_decoder readTag_ByteArrayTag
| counted_IntArrayTag : counted_decoder readTag_IntArrayTag
| counted_LongArrayTag : counted_decoder readTag_LongArrayTag
| counted_ListTag f : counted_decoder (readListTag f).

(** ** Inputs used below *)

(** [0A 00 00 00]: the root compound, named by the empty string, empty. *)
Definition scenario1 : Span := [x0a; x00; x00; x00].

(** Root compound holding the Int [x] = 42. *)
Definition scenario2 : Span :=
  [x0a; x00; x00; x03; x00; x01; x78; x00; x00; x00; x2a; x00].

(** Root compound holding the list [l] of the two bytes 5 and 7, then End. *)
Definition scenario4 : Span :=
  [x0a; x00; x00; x09; x00; x01; x6c; x01; x00; x00; x00; x02; x05; x07; x00].

(** Root compound declaring the Byte [b] = 1 before the Byte [a] = 2. *)
Definition declared_b_then_a : Span :=
  [x0a; x00; x00; x01; x00; x01; x62; x01; x01; x00; x01; x61; x02; x00].

(** Root compound declaring the Byte [a] twice, as 1 and then as 2. *)
Definition declared_a_twice : Span :=
  [x0a; x00; x00; x01; x00; x01; x61; x01; x01; x00; x01; x61; x02; x00].

(** A list header: element kind End, count 1. *)
Definition list_of_one_End : Span := [x00; x00; x00; x00; x01].

(** Root compound holding the list [l] with that header; the two End bytes
    close the compound that follows a list and the root. *)
Definition root_with_list_of_one_End : Span :=
  [x0a; x00; x00; x09; x00; x01; x6c; x00; x00; x00; x00; x01; x00; x00].




(** ** The members of [CompoundTag]

    [CompoundTag] forwards to the [std::map] it wraps.
    [CompoundTag::emplace] and [CompoundTag::find] are [map_emplace] and
    [map_find] above; an iterator is modelled by what it points to, the
    past-the-end iterator by [None]. *)

(** [CompoundTag::size]. *)
Definition CompoundTag_size (m : CompoundMap) : Z := Z.of_nat (length m).

(** [CompoundTag::contains]. *)
Definition CompoundTag_contains (name : string) (m : CompoundMap) : bool :=
  match map_find name m with
  | Some _ => true
  | None => false
  end.

(** [CompoundTag::at]: [std::map::at] throws [std::out_of_range] when the
    key is missing. *)
Definition CompoundTag_at (name : string) (m : CompoundMap) : Outcome Tag :=
  match map_find name m with
  | Some v => Ok v
  | None => Throws
  end.

Fixpoint map_erase (name : string) (m : CompoundMap) : CompoundMap :=
  match m with
  | [] => []
  | (k, v) :: m' => if String.eqb name k then m' else (k, v) :: map_erase name m'
  end.

(** [CompoundTag::erase]: the map without the key, and the number of entries
    removed, which [std::map::erase] returns. *)
Definition CompoundTag_erase (name : string) (m : CompoundMap) : CompoundMap * Z :=
  (map_erase name m, if CompoundTag_contains name m then 1 else 0).

(** ** Shape of a tag *)

(** The alternative a tag holds ([std::variant::index], by name). *)
Definition kind_of (t : Tag) : TagType :=
  match t with
  | TEnd => EndTag | TByte _ => ByteTag | TShort _ => ShortTag | TInt _ => IntTag
  | TLong _ => LongTag | TFloat _ => FloatTag | TDouble _ => DoubleTag
  | TString _ => StringTag | TByteArray _ => ByteArrayTag | TIntArray _ => IntArrayTag
  | TLongArray _ => LongArrayTag | TList _ => ListTag | TCompound _ => CompoundTag
  end.

Definition TagType_eqb (a b : TagType) : bool :=
  match a, b with
  | EndTag, EndTag | ByteTag, ByteTag | ShortTag, ShortTag | IntTag, IntTag
  | LongTag, LongTag | FloatTag, FloatTag | DoubleTag, DoubleTag
  | StringTag, StringTag | ByteArrayTag, ByteArrayTag | IntArrayTag, IntArrayTag
  | LongArrayTag, LongArrayTag | ListTag, ListTag | CompoundTag, CompoundTag => true
  | _, _ => false
  end.

(** All the elements hold the alternative of the first. *)
Definition same_kind (lst : list Tag) : bool :=
  match lst with
  | [] => true
  | e :: _ => forallb (fun x => TagType_eqb (kind_of x) (kind_of e)) lst
  end.

(** Every list in the tag, at any depth, holds elements of one alternative. *)
Fixpoint homogeneous (t : Tag) : bool :=
  match t with
  | TList lst => same_kind lst && forallb homogeneous lst
  | TCompound m => forallb (fun kv => homogeneous (snd kv)) m
  | _ => true
  end.

(** [v] is a value of the signed [w]-bit integer type. *)
Definition fits (w : Z) (v : Z) : bool := (- 2 ^ (w - 1) <=? v) && (v <? 2 ^ (w - 1)).

(** Every number in the tag, at any depth, is a value of the integer type
    that holds it in the header. *)
Fixpoint in_range (t : Tag) : bool :=
  match t with
  | TEnd | TString _ => true
  | TByte v => fits 8 v
  | TShort v => fits 16 v
  | TInt v | TFloat v => fits 32 v
  | TLong v | TDouble v => fits 64 v
  | TByteArray a => forallb (fits 8) a
  | TIntArray a => forallb (fits 32) a
  | TLongArray a => forallb (fits 64) a
  | TList lst => forallb in_range lst
  | TCompound m => forallb (fun kv => in_range (snd kv)) m
  end.

(** Nesting depth of lists and compounds. *)
Fixpoint depth (t : Tag) : nat :=
  match t with
  | TList lst => S (fold_right (fun e d => Nat.max (depth e) d) 0%nat lst)
  | TCompound m => S (fold_right (fun kv d => Nat.max (depth (snd kv)) d) 0%nat m)
  | _ => 0%nat
  end.

(** [read] returned the tree [t] with the cursor at [p]. *)
Definition read_ends (data : Span) (t : CompoundMap) (p : nat) : Prop :=
  exists fuel name q tag,
    readID data 0 = Ok (ID_value COMPOUND, 1%nat) /\
    readString data 1 = Ok (name, q) /\
    readTag_CompoundTag fuel data q = Ok (tag, p) /\
    t = map_emplace name tag [].

(** ** Lists among the entries of a compound *)

Definition holds_list (kv : string * Tag) : bool :=
  match snd kv with TList _ => true | _ => false end.

(** The compound holds no list, or it has an entry under the empty name. *)
Definition accompanied (m : CompoundMap) : bool :=
  forallb (fun kv => negb (holds_list kv)) m || CompoundTag_contains EmptyString m.

(** Every compound in the tag, at any depth, that holds a list also has an
    entry under the empty name. *)
Fixpoint lists_have_company (t : Tag) : bool :=
  match t with
  | TList lst => forallb lists_have_company lst
  | TCompound m => accompanied m && forallb (fun kv => lists_have_company (snd kv)) m
  | _ => true
  end.

(** ** Compounds nested in compounds

    The body of a compound whose only entry, under the empty name, is a
    compound of the same shape, [n] times over; the tree it stands for; and
    the span that holds it as the root. *)
Fixpoint nested_body (n : nat) : Span :=
  match n with
  | O => [x00]
  | S n' => [x0a; x00; x00] ++ nested_body n' ++ [x00]
  end.

Fixpoint nested_map (n : nat) : CompoundMap :=
  match n with
  | O => []
  | S n' => [(EmptyString, TCompound (nested_map n'))]
  end.

Definition nested (n : nat) : Span := [x0a; x00; x00] ++ nested_body n.

(** The number of bytes every encoding of an alternative has: the width of
    a scalar, the length prefix of a string, the count of an array, the
    kind and count of a list, the End byte of a compound. *)
Definition least_size (T : TagType) : nat :=
  match T with
  | EndTag => 0
  | ByteTag | CompoundTag => 1
  | ShortTag | StringTag => 2
  | IntTag | FloatTag | ByteArrayTag | IntArrayTag | LongArrayTag => 4
  | ListTag => 5
  | LongTag | DoubleTag => 8
  end.

(** * Properties *)

(** Case analysis on the first computation of a [bind] in [H]. *)
Ltac bind_inv H :=
  match type of H with
  | bind ?m _ = _ =>
      let E := fresh "E" in
      (destruct m as [[? ?]| | | |] eqn:E || destruct m as [?| | | |] eqn:E);
      cbn [bind] in H; try discriminate H
  end.

Section CursorFacts.

Variable data : Span.

Lemma index_Ok_inv (pos : nat) (b : byte) (p : nat) :
  index data pos = Ok (b, p) -> nth_error data pos = Some b /\ p = S pos.
Proof.
  unfold index. destruct (nth_error data pos) eqn:E; intros H; inversion H; auto.
Qed.

Lemma index_in_range (pos : nat) :
  (pos < length data)%nat -> exists b, index data pos = Ok (b, S pos).
Proof.
  intros H. unfold index. destruct (nth_error data pos) eqn:E.
  - eauto.
  - apply nth_error_None in E. lia.
Qed.

Lemma index_app (sfx : Span) (pos : nat) (r : byte * nat) :
  index data pos = Ok r -> index (data ++ sfx) pos = Ok r.
Proof.
  unfold index. destruct (nth_error data pos) eqn:E; intros H; inversion H; subst.
  rewrite nth_error_app1 by (apply nth_error_Some; congruence).
  now rewrite E.
Qed.

Ltac step_index H :=
  bind_inv H;
  match goal with
  | E : index _ _ = Ok _ |- _ => apply index_Ok_inv in E as [E ->]
  end.

Lemma nth_error_lt (pos : nat) (b : byte) :
  nth_error data pos = Some b -> (pos < length data)%nat.
Proof. intros E. apply nth_error_Some. congruence. Qed.

Lemma readI8_Ok_inv (pos : nat) (v : Z) (p : nat) :
  readI8 data pos = Ok (v, p) -> p = S pos /\ (p <= length data)%nat.
Proof.
  unfold readI8. destruct (Z.of_nat pos >? size data); [discriminate|].
  intros H. step_index H. inversion H; subst.
  apply nth_error_lt in E. lia.
Qed.

Lemma readI16_Ok_inv (pos : nat) (v : Z) (p : nat) :
  readI16 data pos = Ok (v, p) -> p = (pos + 2)%nat /\ (p <= length data)%nat.
Proof.
  unfold readI16. destruct (Z.of_nat pos + 2 >? size data); [discriminate|].
  intros H. do 2 step_index H. inversion H; subst.
  apply nth_error_lt in E0. lia.
Qed.

Lemma readI32_Ok_inv (pos : nat) (v : Z) (p : nat) :
  readI32 data pos = Ok (v, p) -> p = (pos + 4)%nat /\ (p <= length data)%nat.
Proof.
  unfold readI32. destruct (Z.of_nat pos + 4 >? size data); [discriminate|].
  intros H. do 4 step_index H. inversion H; subst.
  apply nth_error_lt in E2. lia.
Qed.

Lemma readI64_Ok_inv (pos : nat) (v : Z) (p : nat) :
  readI64 data pos = Ok (v, p) -> p = (pos + 8)%nat /\ (p <= length data)%nat.
Proof.
  unfold readI64. destruct (Z.of_nat pos + 8 >? size data); [discriminate|].
  intros H. do 8 step_index H. inversion H; subst.
  apply nth_error_lt in E6. lia.
Qed.

Lemma check_app (sfx : Span) (a : Z) :
  (a >? size data) = false -> (a >? size (data ++ sfx)) = false.
Proof.
  unfold size. rewrite length_app. intros H.
  destruct (Z.gtb_spec a (Z.of_nat (length data))); [discriminate|].
  destruct (Z.gtb_spec a (Z.of_nat (length data + length sfx))); [lia|reflexivity].
Qed.

Lemma readI8_app (sfx : Span) (pos : nat) (r : Z * nat) :
  readI8 data pos = Ok r -> readI8 (data ++ sfx) pos = Ok r.
Proof.
  unfold readI8.
  destruct (Z.of_nat pos >? size data) eqn:C; [discriminate|].
  rewrite (check_app sfx _ C). intros H.
  repeat (bind_inv H; erewrite index_app by eassumption; cbn [bind]).
  assumption.
Qed.

Lemma readI16_app (sfx : Span) (pos : nat) (r : Z * nat) :
  readI16 data pos = Ok r -> readI16 (data ++ sfx) pos = Ok r.
Proof.
  unfold readI16.
  destruct (Z.of_nat pos + 2 >? size data) eqn:C; [discriminate|].
  rewrite (check_app sfx _ C). intros H.
  repeat (bind_inv H; erewrite index_app by eassumption; cbn [bind]).
  assumption.
Qed.

Lemma readI32_app (sfx : Span) (pos : nat) (r : Z * nat) :
  readI32 data pos = Ok r -> readI32 (data ++ sfx) pos = Ok r.
Proof.
  unfold readI32.
  destruct (Z.of_nat pos + 4 >? size data) eqn:C; [discriminate|].
  rewrite (check_app sfx _ C). intros H.
  repeat (bind_inv H; erewrite index_app by eassumption; cbn [bind]).
  assumption.
Qed.

Lemma readI64_app (sfx : Span) (pos : nat) (r : Z * nat) :
  readI64 data pos = Ok r -> readI64 (data ++ sfx) pos = Ok r.
Proof.
  unfold readI64.
  destruct (Z.of_nat pos + 8 >? size data) eqn:C; [discriminate|].
  rewrite (check_app sfx _ C). intros H.
  repeat (bind_inv H; erewrite index_app by eassumption; cbn [bind]).
  assumption.
Qed.

Lemma readID_Ok_inv (pos : nat) (v : Z) (p : nat) :
  readID data pos = Ok (v, p) -> p = S pos /\ (p <= length data)%nat.
Proof.
  unfold readID. intros H. bind_inv H. inversion H; subst.
  eapply readI8_Ok_inv; eassumption.
Qed.

Lemma readID_app (sfx : Span) (pos : nat) (r : Z * nat) :
  readID data pos = Ok r -> readID (data ++ sfx) pos = Ok r.
Proof.
  unfold readID. intros H. bind_inv H.
  now rewrite (readI8_app sfx _ _ E).
Qed.

Lemma subspan_length (offset : nat) (count : Z) (bytes : Span) :
  subspan data offset count = Some bytes ->
  (offset + length bytes <= length data)%nat.
Proof.
  unfold subspan, size.
  destruct (Z.ltb_spec (Z.of_nat (length data)) (Z.of_nat offset)); [discriminate|].
  destruct (count =? dynamic_extent).
  - intros H'; inversion H'; subst. rewrite length_skipn. lia.
  - destruct (count <=? _); [|discriminate].
    intros H'; inversion H'; subst. rewrite length_firstn, length_skipn. lia.
Qed.

(** Only [dynamic_extent] makes [subspan] reach the end of a span it does
    not fill otherwise. *)
Lemma subspan_app (sfx : Span) (offset : nat) (count : Z) (bytes : Span) :
  subspan data offset count = Some bytes ->
  (offset + length bytes < length data)%nat ->
  subspan (data ++ sfx) offset count = Some bytes.
Proof.
  unfold subspan, size. rewrite length_app.
  destruct (Z.ltb_spec (Z.of_nat (length data)) (Z.of_nat offset)); [discriminate|].
  destruct (Z.ltb_spec (Z.of_nat (length data + length sfx)) (Z.of_nat offset)); [lia|].
  destruct (count =? dynamic_extent).
  - intros H'; inversion H'; subst. rewrite length_skipn. lia.
  - destruct (Z.leb_spec count (Z.of_nat (length data) - Z.of_nat offset)); [|discriminate].
    destruct (Z.leb_spec count (Z.of_nat (length data + length sfx) - Z.of_nat offset)); [|lia].
    intros H'; inversion H'; subst. intros _. f_equal.
    rewrite skipn_app, firstn_app, length_skipn.
    replace (Z.to_nat count - (length data - offset))%nat with 0%nat by lia.
    rewrite firstn_O. now rewrite app_nil_r.
Qed.

Lemma readString_Ok_inv (pos : nat) (str : string) (p : nat) :
  readString data pos = Ok (str, p) -> (pos + 2 <= p)%nat /\ (p <= length data)%nat.
Proof.
  unfold readString. intros H. bind_inv H.
  apply readI16_Ok_inv in E as [-> E].
  destruct (_ >? _); [discriminate|].
  destruct (subspan _ _ _) eqn:S; [|discriminate].
  apply subspan_length in S. inversion H; subst. lia.
Qed.

Lemma readString_app (sfx : Span) (pos : nat) (str : string) (p : nat) :
  readString data pos = Ok (str, p) -> (p < length data)%nat ->
  readString (data ++ sfx) pos = Ok (str, p).
Proof.
  unfold readString. intros H L. bind_inv H.
  rewrite (readI16_app sfx _ _ E). cbn [bind].
  destruct (_ >? size data) eqn:C; [discriminate|].
  rewrite (check_app sfx _ C).
  destruct (subspan data _ _) eqn:S; [|discriminate].
  inversion H; subst.
  now rewrite (subspan_app sfx _ _ _ S L).
Qed.

End CursorFacts.

(** ** Loops over a reading function *)

Section LoopFacts.

Variable L : nat.

Lemma read_array_inside (f : nat -> Outcome (Z * nat)) (n : nat) (array : list Z) :
  inside L f -> inside L (fun pos => read_array f n pos array).
Proof.
  intros Hf. revert array. induction n as [|n IH]; intros array pos v p; cbn [read_array].
  - intros H; inversion H; subst. auto.
  - intros H. bind_inv H. apply Hf in E. apply IH in H. lia.
Qed.

Lemma read_array_sim (f g : nat -> Outcome (Z * nat)) (n : nat) (array : list Z) :
  inside L f -> sim L f g ->
  sim L (fun pos => read_array f n pos array) (fun pos => read_array g n pos array).
Proof.
  intros Hf Hs. revert array. induction n as [|n IH]; intros array pos v p; cbn [read_array].
  - auto.
  - intros H Hp. bind_inv H.
    pose proof (read_array_inside f n _ Hf _ _ _ H) as [Hle _].
    rewrite (Hs _ _ _ E) by lia. cbn [bind]. now apply IH.
Qed.

Lemma read_array_funded (f : nat -> Outcome (Z * nat)) (n : nat) (pos : nat) (array : list Z) :
  (forall q, f q <> OutOfFuel) -> read_array f n pos array <> OutOfFuel.
Proof.
  intros Hf. revert pos array. induction n as [|n IH]; intros pos array; cbn [read_array].
  - discriminate.
  - specialize (Hf pos). destruct (f pos) as [[v q]| | | |]; cbn [bind]; try discriminate.
    + apply IH.
    + congruence.
Qed.

Lemma emplace_back_Ok (lst : list Tag) (v : Tag) (lst' : list Tag) :
  emplace_back lst v = Ok lst' ->
  lst' = lst ++ [v] /\ Z.of_nat (length lst) < list_max_size.
Proof.
  unfold emplace_back. destruct (Z.geb_spec (Z.of_nat (length lst)) list_max_size).
  - discriminate.
  - intros H'; inversion H'; auto.
Qed.

Lemma readListTag_loop_inside (f : nat -> Outcome (Tag * nat)) (n : nat) (lst : list Tag) :
  inside L f -> inside L (fun pos => readListTag_loop f n pos lst).
Proof.
  intros Hf. revert lst. induction n as [|n IH]; intros lst pos v p; cbn [readListTag_loop].
  - intros H; inversion H; subst. auto.
  - intros H. bind_inv H. apply Hf in E.
    destruct (emplace_back lst t) eqn:B; cbn [bind] in H; try discriminate.
    apply IH in H. lia.
Qed.

Lemma readListTag_loop_sim (f g : nat -> Outcome (Tag * nat)) (n : nat) (lst : list Tag) :
  inside L f -> sim L f g ->
  sim L (fun pos => readListTag_loop f n pos lst) (fun pos => readListTag_loop g n pos lst).
Proof.
  intros Hf Hs. revert lst. induction n as [|n IH]; intros lst pos v p; cbn [readListTag_loop].
  - auto.
  - intros H Hp. bind_inv H.
    destruct (emplace_back lst t) eqn:B; cbn [bind] in H; try discriminate.
    pose proof (readListTag_loop_inside f n _ Hf _ _ _ H) as [Hle _].
    rewrite (Hs _ _ _ E) by lia. cbn [bind]. rewrite B. cbn [bind]. now apply IH.
Qed.

Lemma readListTag_loop_agrees (f g : nat -> Outcome (Tag * nat)) (n : nat) (lst : list Tag) :
  agrees f g ->
  agrees (fun pos => readListTag_loop f n pos lst) (fun pos => readListTag_loop g n pos lst).
Proof.
  intros Ha. revert lst. induction n as [|n IH]; intros lst pos; cbn [readListTag_loop].
  - reflexivity.
  - intros H. rewrite Ha by (intros C; rewrite C in H; now apply H).
    destruct (f pos) as [[v q]| | | |]; cbn [bind] in *; try reflexivity.
    destruct (emplace_back lst v); cbn [bind] in *; try reflexivity.
    now apply IH.
Qed.

Lemma readListTag_loop_funded (f : nat -> Outcome (Tag * nat)) (n : nat) (lo : nat)
    (lst : list Tag) :
  inside L f -> funded lo L f -> funded lo L (fun pos => readListTag_loop f n pos lst).
Proof.
  intros Hi Hf. revert lst. induction n as [|n IH]; intros lst pos Hp; cbn [readListTag_loop].
  - discriminate.
  - specialize (Hf pos Hp). destruct (f pos) as [[v q]| | | |] eqn:E; cbn [bind]; try discriminate.
    + unfold emplace_back. destruct (_ >=? _); cbn [bind]; try discriminate.
      apply IH. apply Hi in E. lia.
    + congruence.
Qed.

End LoopFacts.

(** ** The decoders stay inside the span *)

Lemma readI8_inside (data : Span) : inside (length data) (readI8 data).
Proof. intros pos v p H. apply readI8_Ok_inv in H. lia. Qed.

Lemma readI16_inside (data : Span) : inside (length data) (readI16 data).
Proof. intros pos v p H. apply readI16_Ok_inv in H. lia. Qed.

Lemma readI32_inside (data : Span) : inside (length data) (readI32 data).
Proof. intros pos v p H. apply readI32_Ok_inv in H. lia. Qed.

Lemma readI64_inside (data : Span) : inside (length data) (readI64 data).
Proof. intros pos v p H. apply readI64_Ok_inv in H. lia. Qed.

Lemma readString_inside (data : Span) : inside (length data) (readString data).
Proof. intros pos v p H. apply readString_Ok_inv in H. lia. Qed.

Lemma readTag_leaf (fuel fuel' : nat) (T : TagType) (data : Span) (pos : nat) :
  leaf T = true -> readTag fuel T data pos = readTag fuel' T data pos.
Proof. destruct T; try discriminate; destruct fuel, fuel'; reflexivity. Qed.

Ltac reads_inv :=
  repeat match goal with
  | H : Ok _ = Ok _ |- _ => inversion H; subst; clear H
  | H : readI8 _ _ = Ok _ |- _ => apply readI8_inside in H
  | H : readI16 _ _ = Ok _ |- _ => apply readI16_inside in H
  | H : readI32 _ _ = Ok _ |- _ => apply readI32_inside in H
  | H : readI64 _ _ = Ok _ |- _ => apply readI64_inside in H
  | H : readString _ _ = Ok _ |- _ => apply readString_inside in H
  | H : bind _ _ = Ok _ |- _ => bind_inv H
  end.

Lemma readArray_inside (data : Span) (w : Z) (f : Span -> nat -> Outcome (Z * nat))
    (c : list Z -> Tag) :
  inside (length data) (f data) ->
  inside (length data) (fun pos =>
    '(len, pos) <- readI32 data pos ;;
    let size := to_size_t len in
    '_ <- reserve w size ;;
    '(array, pos) <- read_array (f data) (Z.to_nat size) pos [] ;;
    Ok (c array, pos)).
Proof.
  intros Hf pos v p H. cbv zeta in H.
  bind_inv H. bind_inv H. bind_inv H. inversion H; subst.
  apply (read_array_inside _ _ _ _ Hf) in E1. apply readI32_inside in E. lia.
Qed.

Lemma leaf_inside (fuel : nat) (T : TagType) (data : Span) :
  leaf T = true -> inside (length data) (readTag fuel T data).
Proof.
  intros HT. destruct T; try discriminate; destruct fuel; cbn [readTag];
    try (intros pos v p H;
         unfold readTag_EndTag, readTag_ByteTag, readTag_ShortTag, readTag_IntTag,
           readTag_LongTag, readTag_FloatTag, readTag_DoubleTag, readTag_StringTag,
           readF32, readF64 in H;
         reads_inv; lia);
    first [ apply readArray_inside with (f := readI8); apply readI8_inside
          | apply readArray_inside with (f := readI32); apply readI32_inside
          | apply readArray_inside with (f := readI64); apply readI64_inside ].
Qed.

Lemma emplace_Ok_inv (ct : CompoundMap) (name : string) (f : nat -> Outcome (Tag * nat))
    (pos : nat) (ct' : CompoundMap) (p : nat) :
  emplace ct name f pos = Ok (ct', p) ->
  exists tag, f pos = Ok (tag, p) /\ ct' = map_emplace name tag ct.
Proof.
  unfold emplace. intros H. bind_inv H. inversion H; subst. eauto.
Qed.

(** What a successful pass through the [switch] did: one tag emplaced, or,
    for a list, the list and then a compound under the moved-from name. *)
Lemma compound_switch_Ok_inv (rt : TagType -> nat -> Outcome (Tag * nat)) (id : Z)
    (name : string) (ct : CompoundMap) (pos : nat) (ct' : CompoundMap) (p : nat) :
  compound_switch rt id name ct pos = Ok (ct', p) ->
  (exists k v, enumerator id = Some k /\ k <> END /\ k <> LIST /\
     rt (alternative k) pos = Ok (v, p) /\ ct' = map_emplace name v ct) \/
  (exists v1 p1 v2, enumerator id = Some LIST /\
     rt ListTag pos = Ok (v1, p1) /\ rt CompoundTag p1 = Ok (v2, p) /\
     ct' = map_emplace (moved_from name) v2 (map_emplace name v1 ct)).
Proof.
  unfold compound_switch. intros H.
  destruct (enumerator id) as [k|]; [|discriminate].
  destruct k; try discriminate;
    try (left; apply emplace_Ok_inv in H as (v & Hv & ->);
         eexists _, v; repeat split; try discriminate; eassumption).
  right. bind_inv H.
  apply emplace_Ok_inv in E as (v1 & Hv1 & ->).
  apply emplace_Ok_inv in H as (v2 & Hv2 & ->).
  eexists v1, _, v2. repeat split; eassumption.
Qed.

Lemma compound_switch_inside (L : nat) (rt : TagType -> nat -> Outcome (Tag * nat))
    (id : Z) (name : string) (ct : CompoundMap) :
  (forall T, inside L (rt T)) -> inside L (compound_switch rt id name ct).
Proof.
  intros Hrt pos ct' p H.
  apply compound_switch_Ok_inv in H
    as [(k & v & _ & _ & _ & Hv & _)|(v1 & p1 & v2 & _ & Hv1 & Hv2 & _)].
  - now apply Hrt in Hv.
  - apply Hrt in Hv1, Hv2. lia.
Qed.

(** One iteration of the loop of [readTag<CompoundTag>] that succeeded. *)
Lemma loop_Ok_inv (fuel : nat) (data : Span) (pos : nat) (ct ct' : CompoundMap) (p : nat) :
  readTag_CompoundTag_loop (S fuel) data pos ct = Ok (ct', p) ->
  exists id, readID data pos = Ok (id, S pos) /\ (pos < length data)%nat /\
    ((id = 0 /\ ct' = ct /\ p = S pos) \/
     (id <> 0 /\ exists name p1 ct1 p2,
        readString data (S pos) = Ok (name, p1) /\
        compound_switch (fun T => readTag fuel T data) id name ct p1 = Ok (ct1, p2) /\
        readTag_CompoundTag_loop fuel data p2 ct1 = Ok (ct', p))).
Proof.
  cbn [readTag_CompoundTag_loop]. intros H. bind_inv H.
  pose proof (readID_Ok_inv _ _ _ _ E) as [-> Hl].
  exists z. split; [reflexivity|]. split; [lia|].
  cbn [ID_value] in H. destruct (Z.eqb_spec z 0).
  - left. inversion H; auto.
  - right. split; [assumption|]. bind_inv H. bind_inv H. eauto 10.
Qed.

Lemma readTag_inside (fuel : nat) :
  (forall T data, inside (length data) (readTag fuel T data)) /\
  (forall data ct pos ct' p,
     readTag_CompoundTag_loop fuel data pos ct = Ok (ct', p) ->
     (pos < p)%nat /\ (p <= length data)%nat).
Proof.
  induction fuel as [|fuel [IHt IHl]].
  - split.
    + intros T data. destruct T; try (now apply leaf_inside); intros pos v p H; discriminate.
    + discriminate.
  - assert (Ht : forall T data, inside (length data) (readTag (S fuel) T data)).
    { intros T data. destruct T; try (now apply leaf_inside); intros pos v p H;
        cbn [readTag] in H.
      - bind_inv H. apply readID_Ok_inv in E as [-> E].
        destruct (enumerator z) as [k|]; [|discriminate].
        unfold readListTag in H. bind_inv H. bind_inv H. inversion H; subst.
        apply readI32_inside in E0.
        apply (readListTag_loop_inside _ _ _ _ (IHt _ _)) in E1. lia.
      - bind_inv H. inversion H; subst. apply IHl in E. lia. }
    split; [exact Ht|].
    intros data ct pos ct' p H.
    apply loop_Ok_inv in H as (id & Hid & Hlt & [(_ & _ & ->)|(_ & name & p1 & ct1 & p2 & Hs & Hw & Hl)]).
    + lia.
    + apply readString_inside in Hs.
      apply (compound_switch_inside (length data)) in Hw; [|intros T; apply IHt].
      apply IHl in Hl. lia.
Qed.

(** ** The recursion budget

    More budget never changes an outcome other than [OutOfFuel], and a
    budget above the number of bytes left is never exhausted. *)

Ltac funded_bind lem :=
  match goal with
  | |- context [bind (?f ?d ?q) _] =>
      let X := fresh in
      pose proof (lem d q) as X;
      match type of X with f d q <> OutOfFuel => idtac end;
      destruct (f d q) as [[]| | | |]; cbn [bind]; try congruence
  end.

Lemma index_funded (data : Span) (pos : nat) : index data pos <> OutOfFuel.
Proof. unfold index. destruct (nth_error data pos); discriminate. Qed.

Lemma readI8_funded (data : Span) (pos : nat) : readI8 data pos <> OutOfFuel.
Proof.
  unfold readI8. destruct (_ >? _); [discriminate|].
  repeat funded_bind index_funded.
Qed.

Lemma readI16_funded (data : Span) (pos : nat) : readI16 data pos <> OutOfFuel.
Proof.
  unfold readI16. destruct (_ >? _); [discriminate|].
  repeat funded_bind index_funded.
Qed.

Lemma readI32_funded (data : Span) (pos : nat) : readI32 data pos <> OutOfFuel.
Proof.
  unfold readI32. destruct (_ >? _); [discriminate|].
  repeat funded_bind index_funded.
Qed.

Lemma readI64_funded (data : Span) (pos : nat) : readI64 data pos <> OutOfFuel.
Proof.
  unfold readI64. destruct (_ >? _); [discriminate|].
  repeat funded_bind index_funded.
Qed.

Lemma readID_funded (data : Span) (pos : nat) : readID data pos <> OutOfFuel.
Proof. unfold readID. funded_bind readI8_funded. Qed.

Lemma readString_funded (data : Span) (pos : nat) : readString data pos <> OutOfFuel.
Proof.
  unfold readString. funded_bind readI16_funded.
  destruct (_ >? _); [discriminate|]. destruct (subspan _ _ _); discriminate.
Qed.

Lemma readArray_funded (data : Span) (w : Z) (f : Span -> nat -> Outcome (Z * nat))
    (c : list Z -> Tag) (pos : nat) :
  (forall q, f data q <> OutOfFuel) ->
  ('(len, pos) <- readI32 data pos ;;
   let size := to_size_t len in
   '_ <- reserve w size ;;
   '(array, pos) <- read_array (f data) (Z.to_nat size) pos [] ;;
   Ok (c array, pos)) <> OutOfFuel.
Proof.
  intros Hf. pose proof (readI32_funded data pos).
  destruct (readI32 data pos) as [[len q]| | | |]; cbn [bind]; try congruence.
  cbv zeta. unfold reserve. destruct (_ >? _); cbn [bind]; try discriminate.
  pose proof (read_array_funded (f data) (Z.to_nat (to_size_t len)) q [] Hf).
  destruct (read_array _ _ _ _) as [[]| | | |]; cbn [bind]; congruence.
Qed.

Lemma leaf_funded (fuel : nat) (T : TagType) (data : Span) (pos : nat) :
  leaf T = true -> readTag fuel T data pos <> OutOfFuel.
Proof.
  intros HT. destruct T; try discriminate; destruct fuel; cbn [readTag];
    unfold readTag_EndTag, readTag_ByteTag, readTag_ShortTag, readTag_IntTag,
      readTag_LongTag, readTag_FloatTag, readTag_DoubleTag, readTag_StringTag,
      readF32, readF64;
    try discriminate;
    try (first [ funded_bind readI8_funded | funded_bind readI16_funded
               | funded_bind readI32_funded | funded_bind readI64_funded
               | funded_bind readString_funded ]; fail);
    first [ apply readArray_funded with (f := readI8); apply readI8_funded
          | apply readArray_funded with (f := readI32); apply readI32_funded
          | apply readArray_funded with (f := readI64); apply readI64_funded ].
Qed.

Lemma bind_agrees {A B : Type} (m m' : Outcome A) (k k' : A -> Outcome B) :
  (m <> OutOfFuel -> m' = m) ->
  (forall a, m = Ok a -> k a <> OutOfFuel -> k' a = k a) ->
  bind m k <> OutOfFuel -> bind m' k' = bind m k.
Proof.
  intros Hm Hk H. rewrite Hm by (intros C; rewrite C in H; now apply H).
  destruct m; cbn [bind] in *; auto.
Qed.

Lemma bind_funded {A B : Type} (m : Outcome A) (k : A -> Outcome B) :
  m <> OutOfFuel -> (forall a, m = Ok a -> k a <> OutOfFuel) -> bind m k <> OutOfFuel.
Proof.
  intros Hm Hk. destruct m; cbn [bind]; auto; discriminate.
Qed.

Lemma readListTag_agrees (f g : nat -> Outcome (Tag * nat)) (data : Span) :
  agrees f g -> agrees (readListTag f data) (readListTag g data).
Proof.
  intros Ha pos. unfold readListTag. apply bind_agrees; [reflexivity|].
  intros [len q] _. cbv zeta. apply bind_agrees; [|reflexivity].
  apply (readListTag_loop_agrees f g _ [] Ha q).
Qed.

Lemma compound_switch_agrees (rt rt' : TagType -> nat -> Outcome (Tag * nat)) (id : Z)
    (name : string) (ct : CompoundMap) :
  (forall T, agrees (rt T) (rt' T)) ->
  agrees (compound_switch rt id name ct) (compound_switch rt' id name ct).
Proof.
  intros Ha pos. unfold compound_switch.
  destruct (enumerator id) as [[]|]; try reflexivity; unfold emplace;
    try (apply bind_agrees; [apply Ha|reflexivity]).
  apply bind_agrees.
  - apply bind_agrees; [apply Ha|reflexivity].
  - intros [ct1 q] _. apply bind_agrees; [apply Ha|reflexivity].
Qed.

Lemma readTag_agrees (fuel : nat) :
  (forall T data, agrees (readTag fuel T data) (readTag (S fuel) T data)) /\
  (forall data ct, agrees (fun pos => readTag_CompoundTag_loop fuel data pos ct)
                          (fun pos => readTag_CompoundTag_loop (S fuel) data pos ct)).
Proof.
  induction fuel as [|fuel [IHt IHl]].
  - split.
    + intros T data pos H. destruct T; try (now apply readTag_leaf); now elim H.
    + intros data ct pos H. now elim H.
  - split.
    + intros T data pos. destruct T; try (intros _; now apply readTag_leaf).
      * cbn [readTag]. apply bind_agrees; [reflexivity|]. intros [id q] _.
        destruct (enumerator id); [|reflexivity].
        apply readListTag_agrees, IHt.
      * cbn [readTag]. apply bind_agrees; [apply IHl|reflexivity].
    + intros data ct pos.
      change (readTag_CompoundTag_loop (S (S fuel)) data pos ct) with
        ('(id, pos) <- readID data pos ;;
         if id =? ID_value END then Ok (ct, pos)
         else
           '(name, pos) <- readString data pos ;;
           '(ct, pos) <- compound_switch (fun T => readTag (S fuel) T data) id name ct pos ;;
           readTag_CompoundTag_loop (S fuel) data pos ct).
      cbn [readTag_CompoundTag_loop]. apply bind_agrees; [reflexivity|]. intros [id q] _.
      destruct (id =? ID_value END); [reflexivity|].
      apply bind_agrees; [reflexivity|]. intros [name q1] _.
      apply bind_agrees.
      * apply compound_switch_agrees. intros T. apply IHt.
      * intros [ct1 q2] _. apply IHl.
Qed.

Lemma readTag_fuel_mono (fuel fuel' : nat) (T : TagType) (data : Span) (pos : nat) :
  (fuel <= fuel')%nat -> readTag fuel T data pos <> OutOfFuel ->
  readTag fuel' T data pos = readTag fuel T data pos.
Proof.
  induction 1 as [|fuel' Hle IH]; [reflexivity|].
  intros H. rewrite <- (IH H). apply readTag_agrees. now rewrite IH.
Qed.

Lemma compound_switch_funded (L lo : nat) (rt : TagType -> nat -> Outcome (Tag * nat))
    (id : Z) (name : string) (ct : CompoundMap) :
  (forall T, inside L (rt T)) -> (forall T, funded lo L (rt T)) ->
  funded lo L (compound_switch rt id name ct).
Proof.
  intros Hi Hf pos Hp. unfold compound_switch.
  destruct (enumerator id) as [[]|]; try discriminate; unfold emplace;
    try (apply bind_funded; [now apply Hf|intros [v q] _; discriminate]).
  apply bind_funded.
  - apply bind_funded; [now apply Hf|intros [v q] _; discriminate].
  - intros [ct1 q] H. bind_inv H. inversion H; subst. apply Hi in E.
    apply bind_funded; [apply Hf; lia|intros [v2 q2] _; discriminate].
Qed.

Lemma readTag_funded (fuel : nat) :
  (forall T data, funded (length data + 2 - fuel) (length data) (readTag fuel T data)) /\
  (forall data ct, funded (length data + 1 - fuel) (length data)
                     (fun pos => readTag_CompoundTag_loop fuel data pos ct)).
Proof.
  induction fuel as [|fuel [IHt IHl]].
  - split.
    + intros T data pos Hp. destruct T; try (now apply leaf_funded); lia.
    + intros data ct pos Hp. lia.
  - split.
    + intros T data pos Hp. destruct T; try (now apply leaf_funded); cbn [readTag].
      * apply bind_funded; [apply readID_funded|]. intros [id q] Hid.
        apply readID_Ok_inv in Hid as [-> Hq].
        destruct (enumerator id); [|discriminate].
        unfold readListTag. apply bind_funded; [apply readI32_funded|].
        intros [len q] Hlen. apply readI32_Ok_inv in Hlen as [-> Hq'].
        cbv zeta. apply bind_funded; [|intros [lst q] _; discriminate].
        apply (readListTag_loop_funded (length data) _ _ (length data + 2 - fuel)).
        -- apply readTag_inside.
        -- apply IHt.
        -- lia.
      * apply bind_funded; [apply IHl; lia|intros [ct q] _; discriminate].
    + intros data ct pos Hp. cbn [readTag_CompoundTag_loop].
      apply bind_funded; [apply readID_funded|]. intros [id q] Hid.
      apply readID_Ok_inv in Hid as [-> Hq].
      destruct (id =? ID_value END); [discriminate|].
      apply bind_funded; [apply readString_funded|]. intros [name q1] Hs.
      apply readString_Ok_inv in Hs.
      apply bind_funded.
      * apply (compound_switch_funded (length data) (length data + 2 - fuel)).
        -- intros T. apply readTag_inside.
        -- intros T. apply IHt.
        -- lia.
      * intros [ct1 q2] Hw.
        apply (compound_switch_inside (length data)) in Hw;
          [|intros T; apply readTag_inside].
        apply IHl. lia.
Qed.

Lemma read_fuel_funded (data : Span) (fuel : nat) :
  (fuel_for data <= fuel)%nat -> read_fuel fuel data <> OutOfFuel.
Proof.
  unfold fuel_for, read_fuel. intros Hf.
  apply bind_funded; [apply readID_funded|]. intros [id q] _.
  destruct (negb _); [discriminate|].
  apply bind_funded; [apply readString_funded|]. intros [name q1] Hs.
  apply readString_Ok_inv in Hs.
  apply bind_funded; [|intros [t q2] _; discriminate].
  apply readTag_funded. lia.
Qed.

(** [read] always comes to one of the four ends a member function has. *)
Lemma read_total (data : Span) : read data <> OutOfFuel.
Proof. apply read_fuel_funded, le_n. Qed.

(** [read] is the root reader with as much budget as anyone gives it. *)
Lemma read_fuel_enough (data : Span) (fuel : nat) :
  (fuel_for data <= fuel)%nat -> read_fuel fuel data = read data.
Proof.
  intros Hf. pose proof (read_fuel_funded data (fuel_for data) (le_n _)) as Hne.
  unfold read. unfold read_fuel in *.
  destruct (readID data 0) as [[id q]| | | |]; cbn [bind] in *; try reflexivity.
  destruct (negb _); [reflexivity|].
  destruct (readString data q) as [[name q1]| | | |]; cbn [bind] in *; try reflexivity.
  unfold readTag_CompoundTag in *.
  rewrite (readTag_fuel_mono (fuel_for data) fuel) by
    (try assumption; intros C; rewrite C in Hne; now apply Hne).
  reflexivity.
Qed.

(** ** Bytes after the cursor's last position do not matter *)

Lemma sim_of_app {A : Type} (L : nat) (f g : nat -> Outcome (A * nat)) :
  (forall pos r, f pos = Ok r -> g pos = Ok r) -> sim L f g.
Proof. intros H pos v p Hf _. now apply H. Qed.

Lemma readArray_app (data sfx : Span) (w : Z) (f : Span -> nat -> Outcome (Z * nat))
    (c : list Z -> Tag) :
  inside (length data) (f data) ->
  (forall pos r, f data pos = Ok r -> f (data ++ sfx) pos = Ok r) ->
  sim (length data)
    (fun pos =>
      '(len, pos) <- readI32 data pos ;;
      let size := to_size_t len in
      '_ <- reserve w size ;;
      '(array, pos) <- read_array (f data) (Z.to_nat size) pos [] ;;
      Ok (c array, pos))
    (fun pos =>
      '(len, pos) <- readI32 (data ++ sfx) pos ;;
      let size := to_size_t len in
      '_ <- reserve w size ;;
      '(array, pos) <- read_array (f (data ++ sfx)) (Z.to_nat size) pos [] ;;
      Ok (c array, pos)).
Proof.
  intros Hi Hf pos v p H Hp. cbv zeta in *.
  bind_inv H. rewrite (readI32_app _ sfx _ _ E). cbn [bind].
  bind_inv H. bind_inv H. inversion H; subst.
  rewrite (read_array_sim (length data) _ (f (data ++ sfx)) _ _ Hi
             (sim_of_app _ _ _ Hf) _ _ _ E1 Hp).
  reflexivity.
Qed.

Lemma leaf_app (fuel : nat) (T : TagType) (data sfx : Span) :
  leaf T = true ->
  sim (length data) (readTag fuel T data) (readTag fuel T (data ++ sfx)).
Proof.
  intros HT. destruct T; try discriminate; destruct fuel; cbn [readTag];
    try (intros pos v p H Hp;
         unfold readTag_EndTag, readTag_ByteTag, readTag_ShortTag, readTag_IntTag,
           readTag_LongTag, readTag_FloatTag, readTag_DoubleTag, readTag_StringTag,
           readF32, readF64 in *;
         repeat match goal with
           | H : bind _ _ = Ok _ |- _ => bind_inv H
           | H : Ok _ = Ok _ |- _ => inversion H; subst; clear H
           end;
         first [ reflexivity
               | erewrite readI8_app by eassumption
               | erewrite readI16_app by eassumption
               | erewrite readI32_app by eassumption
               | erewrite readI64_app by eassumption
               | erewrite readString_app by eassumption ];
         reflexivity);
    first [ apply readArray_app with (f := readI8);
              [apply readI8_inside|intros; now apply readI8_app]
          | apply readArray_app with (f := readI32);
              [apply readI32_inside|intros; now apply readI32_app]
          | apply readArray_app with (f := readI64);
              [apply readI64_inside|intros; now apply readI64_app] ].
Qed.

Lemma compound_switch_sim (L : nat) (rt rt' : TagType -> nat -> Outcome (Tag * nat))
    (id : Z) (name : string) (ct : CompoundMap) :
  (forall T, inside L (rt T)) -> (forall T, sim L (rt T) (rt' T)) ->
  sim L (compound_switch rt id name ct) (compound_switch rt' id name ct).
Proof.
  intros Hi Hs pos ct' p H Hp.
  apply compound_switch_Ok_inv in H
    as [(k & v & Hk & Hne & Hnl & Hv & ->)|(v1 & p1 & v2 & Hk & Hv1 & Hv2 & ->)];
    unfold compound_switch; rewrite Hk.
  - pose proof (Hs _ _ _ _ Hv Hp) as Hv'.
    destruct k; try congruence; unfold emplace; now rewrite Hv'.
  - pose proof (Hi _ _ _ _ Hv2) as [Hle _].
    unfold emplace. rewrite (Hs _ _ _ _ Hv1) by lia. cbn [bind].
    now rewrite (Hs _ _ _ _ Hv2 Hp).
Qed.

Lemma readTag_app (fuel : nat) (sfx : Span) :
  (forall T data, sim (length data) (readTag fuel T data) (readTag fuel T (data ++ sfx))) /\
  (forall data ct pos ct' p,
     readTag_CompoundTag_loop fuel data pos ct = Ok (ct', p) ->
     readTag_CompoundTag_loop fuel (data ++ sfx) pos ct = Ok (ct', p)).
Proof.
  induction fuel as [|fuel [IHt IHl]].
  - split.
    + intros T data. destruct T; try (now apply leaf_app); intros pos v p H; discriminate.
    + discriminate.
  - split.
    + intros T data. destruct T; try (now apply leaf_app); intros pos v p H Hp;
        cbn [readTag] in *.
      * bind_inv H. rewrite (readID_app _ sfx _ _ E). cbn [bind].
        destruct (enumerator z) as [k|]; [|discriminate].
        unfold readListTag in *. bind_inv H.
        rewrite (readI32_app _ sfx _ _ E0). cbn [bind].
        bind_inv H. inversion H; subst.
        rewrite (readListTag_loop_sim (length data) _ (readTag fuel (alternative k) (data ++ sfx))
                   _ _ (proj1 (readTag_inside fuel) _ _) (IHt _ _) _ _ _ E1 Hp).
        reflexivity.
      * bind_inv H. inversion H; subst. now rewrite (IHl _ _ _ _ _ E).
    + intros data ct pos ct' p H.
      apply loop_Ok_inv in H
        as (id & Hid & Hlt & [(-> & -> & ->)|(Hne & name & p1 & ct1 & p2 & Hs & Hw & Hl)]);
        cbn [readTag_CompoundTag_loop]; rewrite (readID_app _ sfx _ _ Hid); cbn [bind].
      * reflexivity.
      * cbn [ID_value]. destruct (Z.eqb_spec id 0); [contradiction|].
        pose proof (proj2 (readTag_inside fuel) _ _ _ _ _ Hl) as [Hlt2 Hle2].
        pose proof (compound_switch_inside (length data) _ id name ct
                      (fun T => proj1 (readTag_inside fuel) T data) _ _ _ Hw) as [Hle1 _].
        rewrite (readString_app _ sfx _ _ _ Hs) by lia. cbn [bind].
        rewrite (compound_switch_sim (length data) _ (fun T => readTag fuel T (data ++ sfx))
                   id name ct (fun T => proj1 (readTag_inside fuel) T data)
                   (fun T => IHt T data) _ _ _ Hw) by lia.
        cbn [bind]. now apply IHl.
Qed.

(** ** Key order of a compound *)

Lemma compare_refl (s : string) : String.compare s s = Eq.
Proof.
  induction s as [|a s IH]; [reflexivity|]. cbn [String.compare].
  unfold Ascii.compare. now rewrite N.compare_refl.
Qed.

Lemma compare_Eq_eqb (s1 s2 : string) :
  String.compare s1 s2 = Eq <-> String.eqb s1 s2 = true.
Proof.
  rewrite String.eqb_eq. split.
  - apply String.compare_eq_iff.
  - intros ->. apply compare_refl.
Qed.

Lemma compare_Lt_trans (s1 s2 s3 : string) :
  String.compare s1 s2 = Lt -> String.compare s2 s3 = Lt -> String.compare s1 s3 = Lt.
Proof.
  revert s2 s3. induction s1 as [|a s1 IH]; intros [|b s2] [|c s3]; cbn [String.compare];
    try discriminate; try reflexivity.
  unfold Ascii.compare.
  destruct (N.compare_spec (N_of_ascii a) (N_of_ascii b)) as [Hab|Hab|Hab];
    destruct (N.compare_spec (N_of_ascii b) (N_of_ascii c)) as [Hbc|Hbc|Hbc];
    try discriminate; intros H1 H2.
  - rewrite Hab, Hbc, N.compare_refl. eapply IH; eassumption.
  - rewrite Hab. now apply N.compare_lt_iff in Hbc as ->.
  - rewrite <- Hbc. now apply N.compare_lt_iff in Hab as ->.
  - assert (N_of_ascii a < N_of_ascii c)%N as Hac by lia.
    now apply N.compare_lt_iff in Hac as ->.
Qed.

Lemma compare_Gt_Lt (s1 s2 : string) :
  String.compare s1 s2 = Gt -> String.compare s2 s1 = Lt.
Proof. intros H. rewrite String.compare_antisym, H. reflexivity. Qed.

Lemma ltb_Lt (s1 s2 : string) : String.ltb s1 s2 = true <-> String.compare s1 s2 = Lt.
Proof. unfold String.ltb. destruct (String.compare s1 s2); split; congruence. Qed.

Lemma sorted_keys_tail (k : string) (ks : list string) :
  sorted_keys (k :: ks) = true -> sorted_keys ks = true.
Proof.
  cbn [sorted_keys]. destruct ks; [reflexivity|].
  intros H. now apply andb_prop in H.
Qed.

Lemma sorted_keys_cons (k1 k2 : string) (ks : list string) :
  String.compare k1 k2 = Lt -> sorted_keys (k2 :: ks) = true ->
  sorted_keys (k1 :: k2 :: ks) = true.
Proof.
  intros Hlt Hs. change (String.ltb k1 k2 && sorted_keys (k2 :: ks) = true).
  apply andb_true_intro. split; [now apply ltb_Lt|assumption].
Qed.

Lemma sorted_keys_head (k1 k2 : string) (ks : list string) :
  sorted_keys (k1 :: k2 :: ks) = true -> String.compare k1 k2 = Lt.
Proof.
  intros H. change (String.ltb k1 k2 && sorted_keys (k2 :: ks) = true) in H.
  apply andb_prop in H as [H _]. now apply ltb_Lt.
Qed.

Section MapFacts.

Variables (name : string) (tag : Tag).

Lemma emplace_above (m : CompoundMap) (k0 : string) :
  sorted_keys (k0 :: keys m) = true -> String.compare k0 name = Lt ->
  sorted_keys (k0 :: keys (map_emplace name tag m)) = true.
Proof.
  revert k0. induction m as [|[k1 v1] m IH]; intros k0 Hs Hlt; cbn [map_emplace keys map fst].
  - now apply sorted_keys_cons.
  - cbn [keys map fst] in Hs.
    destruct (String.compare name k1) eqn:C; cbn [keys map fst].
    + assumption.
    + apply sorted_keys_cons; [assumption|].
      apply sorted_keys_cons; [assumption|]. now apply sorted_keys_tail in Hs.
    + apply sorted_keys_cons; [now apply sorted_keys_head in Hs|].
      apply IH; [now apply sorted_keys_tail in Hs|now apply compare_Gt_Lt].
Qed.

(** [emplace] keeps the keys in ascending order. *)
Lemma emplace_sorted (m : CompoundMap) :
  sorted_keys (keys m) = true -> sorted_keys (keys (map_emplace name tag m)) = true.
Proof.
  destruct m as [|[k1 v1] m]; [reflexivity|]. intros Hs. cbn [map_emplace].
  destruct (String.compare name k1) eqn:C.
  - assumption.
  - now apply sorted_keys_cons.
  - apply emplace_above; [assumption|now apply compare_Gt_Lt].
Qed.

Lemma emplace_forallb (P : string * Tag -> bool) (m : CompoundMap) :
  P (name, tag) = true -> forallb P m = true -> forallb P (map_emplace name tag m) = true.
Proof.
  intros Hp. induction m as [|[k1 v1] m IH]; cbn [map_emplace forallb].
  - now rewrite Hp.
  - intros H. destruct (String.compare name k1); cbn [forallb].
    + assumption.
    + now rewrite Hp.
    + apply andb_prop in H as [H1 H2]. now rewrite H1, IH.
Qed.

End MapFacts.

(** In a sorted map nothing is found at or below a key that precedes all
    its keys. *)
Lemma find_below (m : CompoundMap) (k0 n : string) :
  sorted_keys (k0 :: keys m) = true -> String.compare n k0 <> Gt -> map_find n m = None.
Proof.
  revert k0. induction m as [|[k1 v1] m IH]; intros k0 Hs Hn; [reflexivity|].
  cbn [keys map fst] in Hs. cbn [map_find].
  pose proof (sorted_keys_head _ _ _ Hs) as H01.
  assert (Hlt : String.compare n k1 = Lt).
  { destruct (String.compare n k0) eqn:C; [| |congruence].
    - apply String.compare_eq_iff in C. now subst.
    - eapply compare_Lt_trans; eassumption. }
  destruct (String.eqb n k1) eqn:E.
  - apply compare_Eq_eqb in E. congruence.
  - apply (IH k1); [now apply sorted_keys_tail in Hs|congruence].
Qed.

(** [emplace] never replaces an entry. *)
Lemma find_emplace_present (m : CompoundMap) (name : string) (tag : Tag) (n : string) (x : Tag) :
  sorted_keys (keys m) = true -> map_find n m = Some x ->
  map_find n (map_emplace name tag m) = Some x.
Proof.
  induction m as [|[k1 v1] m IH]; [discriminate|]. intros Hs Hf.
  cbn [map_emplace]. destruct (String.compare name k1) eqn:C.
  - assumption.
  - cbn [map_find]. destruct (String.eqb n name) eqn:E; [|assumption].
    apply String.eqb_eq in E. subst n. cbn [map_find] in Hf.
    destruct (String.eqb name k1) eqn:E1.
    + apply compare_Eq_eqb in E1. congruence.
    + rewrite (find_below m k1 name Hs) in Hf by congruence. discriminate.
  - cbn [map_find] in *. destruct (String.eqb n k1); [assumption|].
    apply IH; [now apply sorted_keys_tail in Hs|assumption].
Qed.

(** [emplace] under a new key stores the tag. *)
Lemma find_emplace_new (m : CompoundMap) (name : string) (tag : Tag) :
  map_find name m = None -> map_find name (map_emplace name tag m) = Some tag.
Proof.
  induction m as [|[k1 v1] m IH]; cbn [map_emplace map_find].
  - now rewrite String.eqb_refl.
  - destruct (String.eqb name k1) eqn:E; [discriminate|]. intros Hf.
    destruct (String.compare name k1) eqn:C; cbn [map_find].
    + apply compare_Eq_eqb in C. congruence.
    + now rewrite String.eqb_refl.
    + rewrite E. now apply IH.
Qed.

Lemma ordered_emplace (m : CompoundMap) (name : string) (tag : Tag) :
  ordered_map m = true -> ordered tag = true ->
  ordered_map (map_emplace name tag m) = true.
Proof.
  unfold ordered_map. cbn [ordered]. intros Hm Ht.
  apply andb_prop in Hm as [Hs Hv]. apply andb_true_intro. split.
  - now apply emplace_sorted.
  - now apply emplace_forallb.
Qed.

Lemma leaf_ordered (fuel : nat) (T : TagType) (data : Span) (pos : nat) (v : Tag) (p : nat) :
  leaf T = true -> readTag fuel T data pos = Ok (v, p) -> ordered v = true.
Proof.
  intros HT H. destruct T; try discriminate; destruct fuel; cbn [readTag] in H;
    unfold readTag_EndTag, readTag_ByteTag, readTag_ShortTag, readTag_IntTag,
      readTag_LongTag, readTag_FloatTag, readTag_DoubleTag, readTag_StringTag,
      readTag_ByteArrayTag, readTag_IntArrayTag, readTag_LongArrayTag in H;
    cbv zeta in H; repeat bind_inv H; inversion H; reflexivity.
Qed.

Lemma readListTag_loop_ordered (f : nat -> Outcome (Tag * nat)) (n : nat) (pos : nat)
    (lst lst' : list Tag) (p : nat) :
  (forall q v q', f q = Ok (v, q') -> ordered v = true) ->
  forallb ordered lst = true ->
  readListTag_loop f n pos lst = Ok (lst', p) -> forallb ordered lst' = true.
Proof.
  intros Hf. revert pos lst. induction n as [|n IH]; intros pos lst Hl H;
    cbn [readListTag_loop] in H.
  - now inversion H; subst.
  - bind_inv H. destruct (emplace_back lst t) eqn:B; cbn [bind] in H; try discriminate.
    apply emplace_back_Ok in B as [-> _]. apply (IH n0 (lst ++ [t])); [|assumption].
    rewrite forallb_app, Hl. cbn [forallb]. now rewrite (Hf _ _ _ E).
Qed.

Lemma compound_switch_ordered (rt : TagType -> nat -> Outcome (Tag * nat)) (id : Z)
    (name : string) (ct : CompoundMap) (pos : nat) (ct' : CompoundMap) (p : nat) :
  (forall T q v q', rt T q = Ok (v, q') -> ordered v = true) ->
  ordered_map ct = true ->
  compound_switch rt id name ct pos = Ok (ct', p) -> ordered_map ct' = true.
Proof.
  intros Hrt Hct H.
  apply compound_switch_Ok_inv in H
    as [(k & v & _ & _ & _ & Hv & ->)|(v1 & p1 & v2 & _ & Hv1 & Hv2 & ->)].
  - apply ordered_emplace; [assumption|]. eapply Hrt; eassumption.
  - apply ordered_emplace; [apply ordered_emplace; [assumption|]|]; eapply Hrt; eassumption.
Qed.

Lemma readTag_ordered (fuel : nat) :
  (forall T data pos v p, readTag fuel T data pos = Ok (v, p) -> ordered v = true) /\
  (forall data pos ct ct' p,
     ordered_map ct = true ->
     readTag_CompoundTag_loop fuel data pos ct = Ok (ct', p) -> ordered_map ct' = true).
Proof.
  induction fuel as [|fuel [IHt IHl]].
  - split.
    + intros T data pos v p H. destruct T; try (now eapply leaf_ordered; eauto); discriminate.
    + discriminate.
  - split.
    + intros T data pos v p H. destruct T; try (now eapply leaf_ordered; eauto);
        cbn [readTag] in H.
      * bind_inv H. destruct (enumerator z) as [k|]; [|discriminate].
        unfold readListTag in H. bind_inv H. bind_inv H. inversion H; subst.
        cbn [ordered]. eapply readListTag_loop_ordered with (lst := []);
          [|reflexivity|eassumption].
        intros q v q'. apply IHt.
      * bind_inv H. inversion H; subst. eapply (IHl _ _ []); [reflexivity|eassumption].
    + intros data pos ct ct' p Hct H.
      apply loop_Ok_inv in H
        as (id & Hid & Hlt & [(_ & -> & _)|(Hne & name & p1 & ct1 & p2 & Hs & Hw & Hl)]).
      * assumption.
      * eapply IHl; [|eassumption].
        eapply compound_switch_ordered; [|eassumption|eassumption].
        intros T q v q'. apply IHt.
Qed.

(** ** Entries already in the compound *)

Lemma compound_switch_keeps (rt : TagType -> nat -> Outcome (Tag * nat)) (id : Z)
    (name : string) (ct : CompoundMap) (pos : nat) (ct' : CompoundMap) (p : nat) :
  sorted_keys (keys ct) = true ->
  compound_switch rt id name ct pos = Ok (ct', p) ->
  sorted_keys (keys ct') = true /\
  (forall n x, map_find n ct = Some x -> map_find n ct' = Some x).
Proof.
  intros Hs H.
  apply compound_switch_Ok_inv in H
    as [(k & v & _ & _ & _ & _ & ->)|(v1 & p1 & v2 & _ & _ & _ & ->)].
  - split; [now apply emplace_sorted|]. intros n x. now apply find_emplace_present.
  - split; [now apply emplace_sorted, emplace_sorted|]. intros n x Hn.
    apply find_emplace_present; [now apply emplace_sorted|].
    now apply find_emplace_present.
Qed.

(** The [switch] decodes the tag of the entry at the cursor; afterwards the
    name is found with the value it had, or with that tag if it was new. *)
Lemma compound_switch_decodes (L : nat) (rt : TagType -> nat -> Outcome (Tag * nat)) (id : Z)
    (name : string) (ct : CompoundMap) (pos : nat) (ct' : CompoundMap) (p : nat) :
  (forall T, inside L (rt T)) ->
  sorted_keys (keys ct) = true ->
  compound_switch rt id name ct pos = Ok (ct', p) ->
  exists k v q, enumerator id = Some k /\ rt (alternative k) pos = Ok (v, q) /\
    (q <= p)%nat /\
    map_find name ct' = Some (match map_find name ct with Some v0 => v0 | None => v end).
Proof.
  intros Hi Hs H.
  apply compound_switch_Ok_inv in H
    as [(k & v & Hk & _ & _ & Hv & ->)|(v1 & p1 & v2 & Hk & Hv1 & Hv2 & ->)].
  - exists k, v, p. repeat split; try assumption; [lia|].
    destruct (map_find name ct) eqn:Hf.
    + now apply find_emplace_present.
    + now apply find_emplace_new.
  - exists LIST, v1, p1. repeat split; try assumption; [now apply Hi in Hv2|].
    apply find_emplace_present; [now apply emplace_sorted|].
    destruct (map_find name ct) eqn:Hf.
    + now apply find_emplace_present.
    + now apply find_emplace_new.
Qed.

(** Whether the [switch] succeeds, and where it leaves the cursor, does not
    depend on the names already in the compound. *)
Lemma compound_switch_any_map (rt : TagType -> nat -> Outcome (Tag * nat)) (id : Z)
    (name : string) (ct : CompoundMap) (pos : nat) (ct' : CompoundMap) (p : nat)
    (ct0 : CompoundMap) :
  compound_switch rt id name ct pos = Ok (ct', p) ->
  exists ct0', compound_switch rt id name ct0 pos = Ok (ct0', p).
Proof.
  intros H.
  apply compound_switch_Ok_inv in H
    as [(k & v & Hk & Hne & Hnl & Hv & _)|(v1 & p1 & v2 & Hk & Hv1 & Hv2 & _)];
    unfold compound_switch, emplace; rewrite Hk.
  - destruct k; try congruence; rewrite Hv; cbn [bind]; eauto.
  - rewrite Hv1. cbn [bind]. rewrite Hv2. cbn [bind]. eauto.
Qed.

Lemma loop_keeps (fuel : nat) (data : Span) (pos : nat) (ct ct' : CompoundMap) (p : nat) :
  sorted_keys (keys ct) = true ->
  readTag_CompoundTag_loop fuel data pos ct = Ok (ct', p) ->
  forall n x, map_find n ct = Some x -> map_find n ct' = Some x.
Proof.
  revert pos ct. induction fuel as [|fuel IH]; intros pos ct Hs H; [discriminate|].
  apply loop_Ok_inv in H
    as (id & Hid & Hlt & [(_ & -> & _)|(Hne & name & p1 & ct1 & p2 & Hn & Hw & Hl)]).
  - auto.
  - apply compound_switch_keeps in Hw as [Hs1 Hk]; [|assumption].
    intros n x Hf. eapply IH; eauto.
Qed.

Lemma loop_any_map (fuel : nat) (data : Span) (pos : nat) (ct ct' : CompoundMap) (p : nat)
    (ct0 : CompoundMap) :
  readTag_CompoundTag_loop fuel data pos ct = Ok (ct', p) ->
  exists ct0', readTag_CompoundTag_loop fuel data pos ct0 = Ok (ct0', p).
Proof.
  revert pos ct ct0. induction fuel as [|fuel IH]; intros pos ct ct0 H; [discriminate|].
  apply loop_Ok_inv in H
    as (id & Hid & Hlt & [(-> & -> & ->)|(Hne & name & p1 & ct1 & p2 & Hn & Hw & Hl)]);
    cbn [readTag_CompoundTag_loop]; rewrite Hid; cbn [bind ID_value].
  - eexists. reflexivity.
  - destruct (Z.eqb_spec id 0); [contradiction|]. rewrite Hn. cbn [bind].
    apply (compound_switch_any_map _ _ _ _ _ _ _ ct0) in Hw as [ct1' Hw'].
    rewrite Hw'. cbn [bind]. eapply IH; eassumption.
Qed.

(** ** Ranges of the values read *)

Lemma byte_value_range (b : byte) : 0 <= byte_value b < 256.
Proof.
  unfold byte_value. pose proof (Byte.to_N_bounded b). lia.
Qed.

Lemma readI16_range (data : Span) (pos : nat) (v : Z) (p : nat) :
  readI16 data pos = Ok (v, p) -> - 2 ^ 15 <= v < 2 ^ 15.
Proof.
  unfold readI16. destruct (_ >? _); [discriminate|]. intros H.
  do 2 bind_inv H. inversion H; subst.
  unfold bit_cast_int, signed. cbn [length le_combine].
  pose proof (byte_value_range b). pose proof (byte_value_range b0).
  change (8 * Z.of_nat 2) with 16. change (2 ^ (16 - 1)) with 32768.
  change (2 ^ 16) with 65536. change (2 ^ 15) with 32768.
  destruct (Z.ltb_spec (byte_value b0 + 256 * (byte_value b + 256 * 0)) 32768); lia.
Qed.

Lemma readI32_range (data : Span) (pos : nat) (v : Z) (p : nat) :
  readI32 data pos = Ok (v, p) -> - 2 ^ 31 <= v < 2 ^ 31.
Proof.
  unfold readI32. destruct (_ >? _); [discriminate|]. intros H.
  do 4 bind_inv H. inversion H; subst.
  unfold bit_cast_int, signed. cbn [length le_combine].
  pose proof (byte_value_range b). pose proof (byte_value_range b0).
  pose proof (byte_value_range b1). pose proof (byte_value_range b2).
  change (8 * Z.of_nat 4) with 32. change (2 ^ (32 - 1)) with 2147483648.
  change (2 ^ 32) with 4294967296. change (2 ^ 31) with 2147483648.
  destruct (Z.ltb_spec
    (byte_value b2 + 256 * (byte_value b1 + 256 * (byte_value b0 + 256 * (byte_value b + 256 * 0))))
    2147483648); lia.
Qed.

Lemma to_size_t_nonneg (z : Z) : 0 <= z < 2 ^ 63 -> to_size_t z = z.
Proof. intros H. unfold to_size_t. apply Z.mod_small. lia. Qed.

Lemma to_size_t_neg (z : Z) : - 2 ^ 63 <= z < 0 -> to_size_t z = 2 ^ 64 + z.
Proof.
  intros H. unfold to_size_t.
  symmetry. apply (Z.mod_unique z (2 ^ 64) (-1)); lia.
Qed.

(** ** What a negative length or count does *)




(** A list that was read in full has one node per iteration. *)
Lemma readListTag_loop_length (f : nat -> Outcome (Tag * nat)) (n : nat) (pos : nat)
    (lst lst' : list Tag) (p : nat) :
  readListTag_loop f n pos lst = Ok (lst', p) ->
  length lst' = (length lst + n)%nat /\
  (n = 0%nat \/ Z.of_nat (length lst') <= list_max_size).
Proof.
  revert pos lst. induction n as [|n IH]; intros pos lst H; cbn [readListTag_loop] in H.
  - inversion H; subst. split; [lia|now left].
  - bind_inv H. destruct (emplace_back lst t) eqn:B; cbn [bind] in H; try discriminate.
    apply emplace_back_Ok in B as [-> Hlt]. apply IH in H as [Hlen Hmax].
    rewrite length_app in Hlen. cbn [length] in Hlen. split; [lia|]. right.
    destruct Hmax as [->|]; lia.
Qed.

Lemma readListTag_negative (f : nat -> Outcome (Tag * nat)) (data : Span) (pos : nat)
    (n : Z) (q : nat) :
  readI32 data pos = Ok (n, q) -> n < 0 -> is_Ok (readListTag f data pos) = false.
Proof.
  intros Hn Hneg. unfold readListTag. rewrite Hn. cbn [bind]. cbv zeta.
  pose proof (readI32_range _ _ _ _ Hn) as Hr.
  destruct (readListTag_loop f _ q []) as [[lst p]| | | |] eqn:E; try reflexivity.
  apply readListTag_loop_length in E as [Hlen Hmax]. exfalso.
  rewrite to_size_t_neg in * by lia. cbn [length] in Hlen.
  unfold list_max_size, PTRDIFF_MAX in Hmax. lia.
Qed.

(** ** Assertions that hold in every successful decode *)

Lemma counted_decoder_count (rd : Span -> nat -> Outcome (Tag * nat)) (data : Span)
    (pos : nat) (v : Tag) (p : nat) :
  counted_decoder rd -> rd data pos = Ok (v, p) ->
  exists n q, readI32 data pos = Ok (n, q).
Proof.
  intros [] H;
    unfold readTag_ByteArrayTag, readTag_IntArrayTag, readTag_LongArrayTag, readListTag in H;
    bind_inv H; eauto.
Qed.

Lemma readListTag_sim (L : nat) (f g : nat -> Outcome (Tag * nat)) (data : Span) :
  inside L f -> sim L f g -> sim L (readListTag f data) (readListTag g data).
Proof.
  intros Hi Hs pos v p H Hp. unfold readListTag in *. bind_inv H. bind_inv H.
  inversion H; subst. cbn [bind].
  now rewrite (readListTag_loop_sim L f g _ _ Hi Hs _ _ _ E0 Hp).
Qed.

(** Replacing the element reader by one that succeeds wherever it did. *)
Lemma readListTag_loop_refines (f g : nat -> Outcome (Tag * nat)) (n : nat) (pos : nat)
    (lst : list Tag) (r : list Tag * nat) :
  (forall q r', g q = Ok r' -> f q = Ok r') ->
  readListTag_loop g n pos lst = Ok r -> readListTag_loop f n pos lst = Ok r.
Proof.
  intros Hgf. revert pos lst. induction n as [|n IH]; intros pos lst H;
    cbn [readListTag_loop] in *; [assumption|].
  bind_inv H. rewrite (Hgf _ _ E). cbn [bind].
  destruct (emplace_back lst t); cbn [bind] in *; try discriminate. now apply IH.
Qed.

Lemma readListTag_refines (f g : nat -> Outcome (Tag * nat)) (data : Span) (pos : nat)
    (r : Tag * nat) :
  (forall q r', g q = Ok r' -> f q = Ok r') ->
  readListTag g data pos = Ok r -> readListTag f data pos = Ok r.
Proof.
  intros Hgf H. unfold readListTag in *. bind_inv H. cbn [bind]. bind_inv H.
  now rewrite (readListTag_loop_refines f g _ _ _ _ Hgf E0).
Qed.

Lemma compound_switch_refines (rt rt' : TagType -> nat -> Outcome (Tag * nat)) (id : Z)
    (name : string) (ct : CompoundMap) (pos : nat) (r : CompoundMap * nat) :
  (forall T q r', rt' T q = Ok r' -> rt T q = Ok r') ->
  compound_switch rt' id name ct pos = Ok r -> compound_switch rt id name ct pos = Ok r.
Proof.
  intros Hgf H. destruct r as [ct' p].
  apply compound_switch_Ok_inv in H
    as [(k & v & Hk & Hne & Hnl & Hv & ->)|(v1 & p1 & v2 & Hk & Hv1 & Hv2 & ->)];
    unfold compound_switch, emplace; rewrite Hk.
  - apply Hgf in Hv. destruct k; try congruence; now rewrite Hv.
  - apply Hgf in Hv1, Hv2. rewrite Hv1. cbn [bind]. now rewrite Hv2.
Qed.

Section Refinement.

Variables kind_ok size_ok : Z -> bool.
Variable data : Span.

Lemma guarded_ListTag_eq (fuel : nat) (pos : nat) :
  readTag_guarded kind_ok size_ok (S fuel) ListTag data pos =
  '(id, pos) <- readID_guarded kind_ok data pos ;;
  match enumerator id with
  | Some id =>
      counted_guarded size_ok
        (readListTag (readTag_guarded kind_ok size_ok fuel (alternative id) data)) data pos
  | None => Absent
  end.
Proof. reflexivity. Qed.

Lemma guarded_CompoundTag_eq (fuel : nat) (pos : nat) :
  readTag_guarded kind_ok size_ok (S fuel) CompoundTag data pos =
  '(ct, pos) <- readTag_CompoundTag_loop_guarded kind_ok size_ok fuel data pos [] ;;
  Ok (TCompound ct, pos).
Proof. reflexivity. Qed.

Lemma guarded_loop_eq (fuel : nat) (pos : nat) (ct : CompoundMap) :
  readTag_CompoundTag_loop_guarded kind_ok size_ok (S fuel) data pos ct =
  '(id, pos) <- readID_guarded kind_ok data pos ;;
  if id =? ID_value END then Ok (ct, pos)
  else
    '(name, pos) <- readString_guarded size_ok data pos ;;
    '(ct, pos) <- compound_switch
                    (fun T => readTag_guarded kind_ok size_ok fuel T data) id name ct pos ;;
    readTag_CompoundTag_loop_guarded kind_ok size_ok fuel data pos ct.
Proof. reflexivity. Qed.

(** Whatever is asserted, a tag the asserting decoder returns is the tag
    the decoder returns. *)
Lemma guarded_readID_Ok (pos : nat) (r : Z * nat) :
  readID_guarded kind_ok data pos = Ok r -> readID data pos = Ok r.
Proof.
  unfold readID_guarded. intros H. bind_inv H. bind_inv H. assumption.
Qed.

Lemma guarded_readString_Ok (pos : nat) (r : string * nat) :
  readString_guarded size_ok data pos = Ok r -> readString data pos = Ok r.
Proof.
  unfold readString_guarded. intros H. bind_inv H. bind_inv H. assumption.
Qed.

Lemma guarded_counted_Ok (rd : Span -> nat -> Outcome (Tag * nat)) (pos : nat) (r : Tag * nat) :
  counted_guarded size_ok rd data pos = Ok r -> rd data pos = Ok r.
Proof.
  unfold counted_guarded. intros H. bind_inv H. bind_inv H. assumption.
Qed.

Lemma guarded_readTag_Ok (fuel : nat) :
  (forall T pos r,
     readTag_guarded kind_ok size_ok fuel T data pos = Ok r -> readTag fuel T data pos = Ok r) /\
  (forall pos ct r,
     readTag_CompoundTag_loop_guarded kind_ok size_ok fuel data pos ct = Ok r ->
     readTag_CompoundTag_loop fuel data pos ct = Ok r).
Proof.
  assert (Hleaf : forall fuel T pos r, leaf T = true ->
            readTag_guarded kind_ok size_ok fuel T data pos = Ok r ->
            readTag fuel T data pos = Ok r).
  { intros f T pos r HT H.
    destruct T; try discriminate; destruct f; cbn [readTag readTag_guarded] in *;
      try assumption; try (now apply guarded_counted_Ok);
      unfold readTag_StringTag; bind_inv H;
      now rewrite (guarded_readString_Ok _ _ E). }
  induction fuel as [|fuel [IHt IHl]].
  - split.
    + intros T pos r H. destruct T; try (now apply Hleaf); discriminate.
    + discriminate.
  - split.
    + intros T pos r H. destruct T; try (now apply Hleaf).
      * rewrite guarded_ListTag_eq in H. cbn [readTag]. bind_inv H.
        rewrite (guarded_readID_Ok _ _ E). cbn [bind].
        destruct (enumerator z); [|discriminate].
        apply guarded_counted_Ok in H.
        eapply readListTag_refines; [|eassumption]. intros q r'. apply IHt.
      * rewrite guarded_CompoundTag_eq in H. cbn [readTag]. bind_inv H.
        now rewrite (IHl _ _ _ E).
    + intros pos ct r H. rewrite guarded_loop_eq in H. cbn [readTag_CompoundTag_loop].
      bind_inv H. rewrite (guarded_readID_Ok _ _ E). cbn [bind].
      destruct (z =? ID_value END); [assumption|].
      bind_inv H. rewrite (guarded_readString_Ok _ _ E0). cbn [bind].
      bind_inv H.
      rewrite (compound_switch_refines (fun T => readTag fuel T data) _ _ _ _ _ _
                 (fun T => IHt T) E1).
      cbn [bind]. now apply IHl.
Qed.

Lemma guarded_read_Ok (ct : CompoundMap) :
  read_guarded kind_ok size_ok data = Ok ct -> read data = Ok ct.
Proof.
  unfold read, read_guarded, read_fuel, read_fuel_guarded, readTag_CompoundTag.
  intros H. bind_inv H. rewrite (guarded_readID_Ok _ _ E). cbn [bind].
  destruct (negb _); [discriminate|].
  bind_inv H. rewrite (guarded_readString_Ok _ _ E0). cbn [bind].
  bind_inv H. now rewrite (proj1 (guarded_readTag_Ok _) _ _ _ E1).
Qed.

Hypothesis Hkind : forall id k, enumerator id = Some k -> kind_ok id = true.

Hypothesis Hlength : forall pos n q str p,
  readI16 data pos = Ok (n, q) -> readString data pos = Ok (str, p) ->
  (p < length data)%nat -> size_ok n = true.

Hypothesis Hcount : forall rd pos n q v p,
  counted_decoder rd -> readI32 data pos = Ok (n, q) -> rd data pos = Ok (v, p) ->
  size_ok n = true.

Lemma guarded_readID (pos : nat) (id : Z) (k : ID) (p : nat) :
  readID data pos = Ok (id, p) -> enumerator id = Some k ->
  readID_guarded kind_ok data pos = Ok (id, p).
Proof.
  intros H Hk. unfold readID_guarded. rewrite H. cbn [bind].
  now rewrite (Hkind _ _ Hk).
Qed.

Lemma guarded_readString (pos : nat) (str : string) (p : nat) :
  readString data pos = Ok (str, p) -> (p < length data)%nat ->
  readString_guarded size_ok data pos = Ok (str, p).
Proof.
  intros H Hp. unfold readString_guarded.
  assert (exists n q, readI16 data pos = Ok (n, q)) as (n & q & Hn).
  { unfold readString in H. bind_inv H. eauto. }
  rewrite Hn. cbn [bind]. now rewrite (Hlength _ _ _ _ _ Hn H Hp).
Qed.

Lemma guarded_counted (rd : Span -> nat -> Outcome (Tag * nat)) (pos : nat) (v : Tag) (p : nat) :
  counted_decoder rd -> rd data pos = Ok (v, p) ->
  counted_guarded size_ok rd data pos = Ok (v, p).
Proof.
  intros Hrd H. unfold counted_guarded.
  destruct (counted_decoder_count _ _ _ _ _ Hrd H) as (n & q & Hn).
  rewrite Hn. cbn [bind]. now rewrite (Hcount _ _ _ _ _ _ Hrd Hn H).
Qed.

Lemma readTag_passes (fuel : nat) :
  (forall T, sim (length data) (readTag fuel T data)
                               (readTag_guarded kind_ok size_ok fuel T data)) /\
  (forall pos ct ct' p,
     readTag_CompoundTag_loop fuel data pos ct = Ok (ct', p) ->
     readTag_CompoundTag_loop_guarded kind_ok size_ok fuel data pos ct = Ok (ct', p)).
Proof.
  assert (Hleaf : forall fuel T, leaf T = true ->
            sim (length data) (readTag fuel T data)
                              (readTag_guarded kind_ok size_ok fuel T data)).
  { intros f T HT pos v p H Hp.
    destruct T; try discriminate; destruct f; cbn [readTag readTag_guarded] in *;
      try assumption;
      try (apply guarded_counted; [constructor|assumption]);
      unfold readTag_StringTag in H; bind_inv H; inversion H; subst;
      now rewrite (guarded_readString _ _ _ E Hp). }
  induction fuel as [|fuel [IHt IHl]].
  - split.
    + intros T. destruct T; try (now apply Hleaf); intros pos v p H; discriminate.
    + discriminate.
  - split.
    + intros T. destruct T; try (now apply Hleaf); intros pos v p H Hp;
        cbn [readTag] in H.
      * rewrite guarded_ListTag_eq.
        bind_inv H. destruct (enumerator z) as [k|] eqn:Hk; [|discriminate].
        rewrite (guarded_readID _ _ _ _ E Hk). cbn [bind]. rewrite Hk.
        apply guarded_counted.
        -- constructor.
        -- apply (readListTag_sim (length data) _ _ data
                    (proj1 (readTag_inside fuel) (alternative k) data) (IHt (alternative k))
                    _ _ _ H Hp).
      * rewrite guarded_CompoundTag_eq.
        bind_inv H. inversion H; subst. now rewrite (IHl _ _ _ _ E).
    + intros pos ct ct' p H.
      apply loop_Ok_inv in H
        as (id & Hid & Hlt & [(-> & -> & ->)|(Hne & name & p1 & ct1 & p2 & Hs & Hw & Hl)]);
        rewrite guarded_loop_eq.
      * rewrite (guarded_readID _ _ END _ Hid) by reflexivity. reflexivity.
      * assert (exists k, enumerator id = Some k) as [k Hk].
        { apply compound_switch_Ok_inv in Hw as [(k & _ & Hk & _)|(_ & _ & _ & Hk & _)]; eauto. }
        rewrite (guarded_readID _ _ _ _ Hid Hk). cbn [bind ID_value].
        destruct (Z.eqb_spec id 0); [contradiction|].
        pose proof (proj2 (readTag_inside fuel) _ _ _ _ _ Hl) as [Hlt2 Hle2].
        pose proof (compound_switch_inside (length data) _ id name ct
                      (fun T => proj1 (readTag_inside fuel) T data) _ _ _ Hw) as [Hle1 _].
        rewrite (guarded_readString _ _ _ Hs) by lia. cbn [bind].
        rewrite (compound_switch_sim (length data) _
                   (fun T => readTag_guarded kind_ok size_ok fuel T data)
                   id name ct (fun T => proj1 (readTag_inside fuel) T data)
                   IHt _ _ _ Hw) by lia.
        cbn [bind]. now apply IHl.
Qed.

Lemma read_passes (ct : CompoundMap) :
  read data = Ok ct -> read_guarded kind_ok size_ok data = Ok ct.
Proof.
  unfold read, read_guarded, read_fuel, read_fuel_guarded, readTag_CompoundTag.
  intros H. bind_inv H. cbn [ID_value] in *.
  destruct (Z.eqb_spec z 10) as [->|]; cbn [negb] in H; [|discriminate].
  rewrite (guarded_readID _ _ COMPOUND _ E) by reflexivity. cbn [bind negb Z.eqb Pos.eqb].
  bind_inv H. bind_inv H. inversion H; subst.
  assert (n0 < length data)%nat as Hn0.
  { unfold fuel_for in E1. cbn [readTag] in E1. bind_inv E1.
    apply loop_Ok_inv in E2 as (_ & _ & Hlt & _). assumption. }
  rewrite (guarded_readString _ _ _ E0 Hn0). cbn [bind].
  unfold fuel_for in *. rewrite guarded_CompoundTag_eq.
  cbn [readTag] in E1. bind_inv E1. inversion E1; subst.
  now rewrite (proj2 (readTag_passes _) _ _ _ _ E2).
Qed.

End Refinement.

(** ** Lists of End, negative sizes and kind codes *)

Lemma readListTag_loop_End (fuel : nat) (data : Span) (n : nat) (pos : nat) (lst : list Tag) :
  Z.of_nat (length lst + n) <= list_max_size ->
  readListTag_loop (readTag fuel EndTag data) n pos lst = Ok (lst ++ repeat TEnd n, pos).
Proof.
  revert lst. induction n as [|n IH]; intros lst Hmax; cbn [readListTag_loop repeat].
  - now rewrite app_nil_r.
  - replace (readTag fuel EndTag data pos) with (Ok (TEnd, pos) : Outcome (Tag * nat))
      by (destruct fuel; reflexivity).
    cbn [bind]. unfold emplace_back.
    destruct (Z.geb_spec (Z.of_nat (length lst)) list_max_size); [lia|]. cbn [bind].
    rewrite IH.
    + now rewrite <- app_assoc.
    + rewrite length_app. cbn [length]. lia.
Qed.





Lemma valid_kind_enumerator (id : Z) :
  valid_kind id = false <-> enumerator id = None.
Proof.
  unfold valid_kind, enumerator.
  destruct (Z.leb_spec 0 id), (Z.leb_spec id 12); cbn [andb];
    repeat match goal with
    | |- context [?a =? ?b] => destruct (Z.eqb_spec a b); [split; (discriminate || lia)|]
    end; split; (reflexivity || discriminate || lia).
Qed.

Lemma enumerator_valid_kind (id : Z) (k : ID) :
  enumerator id = Some k -> valid_kind id = true.
Proof.
  intros H. destruct (valid_kind id) eqn:E; [reflexivity|].
  apply valid_kind_enumerator in E. congruence.
Qed.

Lemma readString_not_Throws (data : Span) (pos : nat) : readString data pos <> Throws.
Proof.
  unfold readString, readI16, index.
  destruct (_ >? _); cbn [bind]; [discriminate|].
  destruct (nth_error data pos); cbn [bind]; [|discriminate].
  destruct (nth_error data (S pos)); cbn [bind]; [|discriminate].
  destruct (_ >? _); [discriminate|]. destruct (subspan _ _ _); discriminate.
Qed.

(** A list entry of a compound is decoded only together with a compound
    body that follows the list on the wire. *)
Lemma list_entry_needs_compound_after (fuel : nat) (data : Span) (pos : nat)
    (ct ct' : CompoundMap) (p : nat) :
  readID data pos = Ok (ID_value LIST, S pos) ->
  readTag_CompoundTag_loop (S fuel) data pos ct = Ok (ct', p) ->
  exists name p1 lst p2 body p3,
    readString data (S pos) = Ok (name, p1) /\
    readTag fuel ListTag data p1 = Ok (lst, p2) /\
    readTag fuel CompoundTag data p2 = Ok (body, p3).
Proof.
  intros Hid H.
  apply loop_Ok_inv in H
    as (id & Hid' & _ & [(Hz & _ & _)|(_ & name & p1 & ct1 & p2 & Hn & Hw & _)]);
    rewrite Hid in Hid'; injection Hid' as Hid'; subst id; [discriminate|].
  apply compound_switch_Ok_inv in Hw
    as [(k & v & Hk & _ & Hnl & _)|(v1 & q & v2 & _ & Hv1 & Hv2 & _)].
  - cbn in Hk. injection Hk as Hk. now subst k.
  - eauto 10.
Qed.

(** Whatever bytes follow those of scenario 4, the root compound gets the
    entry under the moved-from name next to the list. *)
Lemma scenario4_body (fuel : nat) (sfx : Span) (ct : CompoundMap) (p : nat) :
  readTag_CompoundTag_loop (S (S (S fuel))) (scenario4 ++ sfx) 3 [] = Ok (ct, p) ->
  map_find "" ct = Some (TCompound []).
Proof.
  intros H.
  apply loop_Ok_inv in H
    as (id & Hid & _ & [(Hz & _ & _)|(_ & name & p1 & ct1 & p2 & Hn & Hw & Hl)]).
  - rewrite (readID_app scenario4 sfx 3 (9, 4%nat) eq_refl) in Hid.
    injection Hid as Hid. subst id. discriminate.
  - rewrite (readID_app scenario4 sfx 3 (9, 4%nat) eq_refl) in Hid.
    injection Hid as Hid. subst id.
    rewrite (readString_app scenario4 sfx 4 "l" 7 eq_refl) in Hn by (cbn; lia).
    injection Hn as Hn1 Hn2. subst name p1.
    apply compound_switch_Ok_inv in Hw
      as [(k & v & Hk & _ & Hnl & _)|(v1 & q & v2 & _ & Hv1 & Hv2 & ->)].
    { cbn in Hk. injection Hk as Hk. now subst k. }
    assert (H1 : readTag (S (S fuel)) ListTag (scenario4 ++ sfx) 7
                 = Ok (TList [TByte 5; TByte 7], 14%nat)).
    { apply (proj1 (readTag_app _ sfx) ListTag scenario4); [|cbn; lia].
      rewrite (readTag_fuel_mono 1 (S (S fuel))); [reflexivity|lia|discriminate]. }
    rewrite H1 in Hv1. injection Hv1 as Hv1 Hq. subst v1 q.
    assert (H2 : readTag (S (S fuel)) CompoundTag (scenario4 ++ sfx) 14
                 = Ok (TCompound [], 15%nat)).
    { assert (H0 : readTag (S (S fuel)) CompoundTag scenario4 14 = Ok (TCompound [], 15%nat))
        by (rewrite (readTag_fuel_mono 2 (S (S fuel))); [reflexivity|lia|discriminate]).
      cbn [readTag] in *. bind_inv H0. injection H0 as H0 H0'. subst c n.
      now rewrite (proj2 (readTag_app _ sfx) _ _ _ _ _ E). }
    rewrite H2 in Hv2. injection Hv2 as Hv2 Hp2. subst v2 p2.
    eapply loop_keeps; [|exact Hl|]; reflexivity.
Qed.

(** ** The read at the end of the span

    [readI8]'s guard lets the cursor at the size of the span through: the
    byte is then indexed outside the span. *)

Lemma readI8_at_size (data : Span) : readI8 data (length data) = Undefined.
Proof.
  unfold readI8, size.
  destruct (Z.gtb_spec (Z.of_nat (length data)) (Z.of_nat (length data))); [lia|].
  unfold index. now rewrite (proj2 (nth_error_None data (length data)) (le_n _)).
Qed.

Lemma readID_at_size (data : Span) : readID data (length data) = Undefined.
Proof. unfold readID. now rewrite readI8_at_size. Qed.

Lemma loop_at_size (fuel : nat) (data : Span) (ct : CompoundMap) :
  readTag_CompoundTag_loop (S fuel) data (length data) ct = Undefined.
Proof. cbn [readTag_CompoundTag_loop]. now rewrite readID_at_size. Qed.

(** * The claims *)

(** C1.  The input of scenario 4 (root compound, list [l] of the bytes 5 and
    7, End) is said to decode to Compound{ "": Compound{ "l": List[5, 7] } }.
    It does not: after the list, [case ID::LIST] runs on into
    [case ID::COMPOUND], which takes the End byte for an empty nested
    compound and stores it under the moved-from name; the loop then asks
    for a kind byte at the end of the span.  With one more End byte the
    decode returns, with the extra entry in the tree; no bytes after those
    of the scenario make the decode return the tree that is claimed. *)
Theorem list_entry_falls_through :
  read scenario4 = Undefined /\
  read (scenario4 ++ [x00]) =
    Ok [(""%string,
         TCompound [(""%string, TCompound []);
                    ("l"%string, TList [TByte 5; TByte 7])])] /\
  (forall sfx,
     read (scenario4 ++ sfx) <>
       Ok [(""%string, TCompound [("l"%string, TList [TByte 5; TByte 7])])]).
Proof.
  split; [reflexivity|]. split; [reflexivity|].
  intros sfx H. unfold read, read_fuel, readTag_CompoundTag, fuel_for in H.
  rewrite (readID_app scenario4 sfx 0 (10, 1%nat) eq_refl) in H. cbn [bind] in H.
  change (negb (10 =? ID_value COMPOUND)) with false in H. cbv iota in H.
  rewrite (readString_app scenario4 sfx 1 "" 3 eq_refl) in H by (cbn; lia).
  cbn [bind] in H. rewrite length_app in H. cbn [length scenario4 Nat.add] in H.
  cbn [readTag] in H. bind_inv H. bind_inv E. injection E as E E'. subst t n.
  assert (Hc : c = [("l"%string, TList [TByte 5; TByte 7])]) by (cbn in H; congruence).
  subst c. apply scenario4_body in E0. discriminate.
Qed.

(** C2.  [readI8] is said to return absent whenever the offset is at or
    past the length.  Its guard is [pos > data.size()]: with the offset
    equal to the length the guard passes and the span is indexed at its
    length.  The wider reads compare [pos + width] and do return absent
    there. *)
Theorem readI8_at_end_indexes_past_the_span (data : Span) :
  readI8 data (length data) = Undefined /\
  readI16 data (length data) = Absent /\
  (forall pos, readI8 data pos = Absent <-> (length data < pos)%nat).
Proof.
  assert (Hend : readI8 data (length data) = Undefined).
  { unfold readI8, size. destruct (Z.gtb_spec (Z.of_nat (length data)) (Z.of_nat (length data)));
      [lia|].
    unfold index. now rewrite (proj2 (nth_error_None data (length data)) (le_n _)). }
  split; [exact Hend|]. split.
  - unfold readI16, size.
    destruct (Z.gtb_spec (Z.of_nat (length data) + 2) (Z.of_nat (length data))); [reflexivity|lia].
  - intros pos. unfold readI8, size.
    destruct (Z.gtb_spec (Z.of_nat pos) (Z.of_nat (length data))).
    + split; [lia|reflexivity].
    + split; [|lia]. unfold index. destruct (nth_error data pos); discriminate.
Qed.

(** C3 as stated fails: a list header with element kind End and count 1
    decodes, alone and inside a root compound, to a list of one End. *)
Lemma list_of_End_with_count_decodes :
  readTag 1 ListTag list_of_one_End 0 = Ok (TList [TEnd], 5%nat) /\
  read root_with_list_of_one_End =
    Ok [(""%string,
         TCompound [(""%string, TCompound []); ("l"%string, TList [TEnd])])].
Proof. split; reflexivity. Qed.

(** C3, amended.  No check sets the count of a list against its element
    kind.  For a list whose header declares element kind End and the count
    [n]: when [n >= 0] the decode does not return the absent value, and
    whenever it returns a list, [n >= 0], the list is that of [n] End
    values, and no byte after the five of the header has been read.  The
    list is empty only for the count 0.  Whether the decode returns is a
    matter of the memory for [n] list nodes, which the embedding takes to
    suffice. *)
Theorem list_of_End_decodes_to_count_Ends (fuel : nat) (data : Span) (pos : nat)
    (n : Z) (q : nat) :
  readID data pos = Ok (ID_value END, S pos) ->
  readI32 data (S pos) = Ok (n, q) ->
  (forall v p, readTag (S fuel) ListTag data pos = Ok (v, p) ->
     0 <= n /\ v = TList (repeat TEnd (Z.to_nat n)) /\ p = (pos + 5)%nat) /\
  (0 <= n -> readTag (S fuel) ListTag data pos <> Absent).
Proof.
  intros Hid Hn. pose proof (readI32_range _ _ _ _ Hn) as Hr.
  pose proof (readI32_Ok_inv _ _ _ _ Hn) as [Hq _].
  assert (Heq : readTag (S fuel) ListTag data pos
                = readListTag (readTag fuel EndTag data) data (S pos)).
  { cbn [readTag]. rewrite Hid. reflexivity. }
  assert (Hok : 0 <= n ->
            readTag (S fuel) ListTag data pos = Ok (TList (repeat TEnd (Z.to_nat n)), q)).
  { intros Hpos. rewrite Heq. unfold readListTag. rewrite Hn. cbn [bind]. cbv zeta.
    rewrite to_size_t_nonneg by lia.
    rewrite readListTag_loop_End; [reflexivity|].
    cbn [length]. unfold list_max_size, PTRDIFF_MAX. lia. }
  split.
  - intros v p H. destruct (Z.ltb_spec n 0) as [Hneg|Hpos].
    + exfalso. rewrite Heq in H.
      pose proof (readListTag_negative (readTag fuel EndTag data) data (S pos) n q Hn Hneg)
        as Hno.
      rewrite H in Hno. discriminate.
    + rewrite (Hok Hpos) in H. inversion H; subst. repeat split; lia.
  - intros Hpos. rewrite (Hok Hpos). discriminate.
Qed.

Lemma list_of_End_decodes_to_count_Ends_witness :
  (0 <= 1 /\ TList [TEnd] = TList (repeat TEnd (Z.to_nat 1)) /\ 5%nat = (0 + 5)%nat) /\
  readTag 1 ListTag list_of_one_End 0 <> Absent.
Proof.
  destruct (list_of_End_decodes_to_count_Ends 0 list_of_one_End 0 1 5 eq_refl eq_refl)
    as [H1 H2].
  split; [apply (H1 _ _ eq_refl)|apply H2; lia].
Defined.




(** C5.  [read] is said to fail unless the Compound kind, a readable name
    and a well-formed compound body follow one another.  It does not fail
    on a span that ends where it wants a kind byte: on the empty span the
    root kind, and on a span that ends behind the root's name (the three
    bytes 0A 00 00 for one) the first kind byte of the body, is read with
    the cursor at the size of the span, which the guard of [readI8] lets
    through, and the span is indexed outside its bounds.  What [read] does
    then is undefined; a build that finds a zero byte behind the span
    returns a tree although the span holds no compound body.
    Away from the end of the span the contract holds: a first byte of
    another kind makes [read] return absent, and a run that returns a tree
    without leaving the span has read the Compound kind, a name and a
    compound body, and returns the single entry name -> body. *)
Theorem read_without_a_body_indexes_past_the_span (data : Span) :
  read [] = Undefined /\
  read [x0a; x00; x00] = Undefined /\
  (forall name,
     readID data 0 = Ok (ID_value COMPOUND, 1%nat) ->
     readString data 1 = Ok (name, length data) ->
     read data = Undefined) /\
  (forall id p,
     readID data 0 = Ok (id, p) -> id <> ID_value COMPOUND -> read data = Absent) /\
  (forall ct,
     read data = Ok ct <->
     exists name p1 body p2,
       readID data 0 = Ok (ID_value COMPOUND, 1%nat) /\
       readString data 1 = Ok (name, p1) /\
       readTag_CompoundTag (fuel_for data) data p1 = Ok (TCompound body, p2) /\
       ct = [(name, TCompound body)]).
Proof.
  split; [reflexivity|]. split; [reflexivity|]. split; [|split].
  - intros name Hid Hs. unfold read, read_fuel. rewrite Hid. cbn [bind].
    rewrite Z.eqb_refl. cbn [negb]. rewrite Hs. cbn [bind].
    unfold readTag_CompoundTag, fuel_for. cbn [readTag].
    now rewrite loop_at_size.
  - intros id p Hid Hne. unfold read, read_fuel. rewrite Hid. cbn [bind].
    destruct (Z.eqb_spec id (ID_value COMPOUND)); [contradiction|reflexivity].
  - intros ct. unfold read, read_fuel. split.
    + intros H. bind_inv H. apply readID_Ok_inv in E as HE. destruct HE as [-> _].
      destruct (Z.eqb_spec z (ID_value COMPOUND)) as [Hz|Hz]; cbn [negb] in H; [|discriminate].
      subst z. bind_inv H. bind_inv H. inversion H; subst.
      assert (exists body, t = TCompound body) as [body ->].
      { unfold readTag_CompoundTag, fuel_for in E1. cbn [readTag] in E1.
        bind_inv E1. inversion E1; eauto. }
      exists s, n, body, n0. auto.
    + intros (name & p1 & body & p2 & Hid & Hs & Hb & ->).
      rewrite Hid. cbn [bind]. rewrite Z.eqb_refl. cbn [negb].
      rewrite Hs. cbn [bind]. rewrite Hb. reflexivity.
Qed.

(** C6.  A kind code outside 0..12 never gets past the place that reads it.
    A decode that returns a tree has read valid codes only (the decoder
    returns the trees, and only the trees, of the decoder that asserts every
    code valid).  Read as the root kind, or as
    the element kind of a list, such a code makes the decoder return absent;
    read as the kind of a compound entry, it makes the loop return absent
    once the name is read, unless reading the name already ended the
    decode. *)
Theorem unknown_kind_fails_the_decode :
  (forall data ct, read data = Ok ct <-> read_guarded valid_kind unchecked data = Ok ct) /\
  (forall id, valid_kind id = false ->
     (forall data p, readID data 0 = Ok (id, p) -> read data = Absent) /\
     (forall fuel data pos p,
        readID data pos = Ok (id, p) -> readTag (S fuel) ListTag data pos = Absent) /\
     (forall fuel data pos ct p,
        readID data pos = Ok (id, p) ->
        readTag_CompoundTag_loop (S fuel) data pos ct = Absent \/
        readTag_CompoundTag_loop (S fuel) data pos ct = Undefined)).
Proof.
  split.
  - intros data ct. split; [|apply guarded_read_Ok]. apply read_passes.
    + apply enumerator_valid_kind.
    + reflexivity.
    + reflexivity.
  - intros id Hid. pose proof (proj1 (valid_kind_enumerator id) Hid) as He.
    assert (Hne : forall k, id <> ID_value k).
    { intros k ->. destruct k; discriminate. }
    split; [|split].
    + intros data p H. unfold read, read_fuel. rewrite H. cbn [bind].
      destruct (Z.eqb_spec id (ID_value COMPOUND)) as [E|E]; [now elim (Hne COMPOUND)|reflexivity].
    + intros fuel data pos p H. cbn [readTag]. rewrite H. cbn [bind]. now rewrite He.
    + intros fuel data pos ct p H. cbn [readTag_CompoundTag_loop]. rewrite H. cbn [bind].
      destruct (Z.eqb_spec id (ID_value END)) as [E|E]; [now elim (Hne END)|].
      pose proof (readString_funded data p). pose proof (readString_not_Throws data p).
      destruct (readString data p) as [[name q]| | | |]; cbn [bind]; try congruence; auto.
      unfold compound_switch. rewrite He. cbn [bind]. now left.
Qed.

Lemma unknown_kind_fails_the_decode_witness :
  read_guarded valid_kind unchecked scenario2 =
    Ok [(""%string, TCompound [("x"%string, TInt 42)])] /\
  read [x63; x00; x00; x00] = Absent.
Proof.
  split.
  - apply (proj1 (proj1 unknown_kind_fails_the_decode scenario2 _)). reflexivity.
  - apply (proj1 (proj2 unknown_kind_fails_the_decode 99 eq_refl) [x63; x00; x00; x00] 1%nat).
    reflexivity.
Defined.

(** C7.  Every compound of a decoded tree, at every depth, enumerates its
    entries in ascending lexicographic order of the keys, which need not be
    the order of the wire: declared as [b] and then [a], the entries are
    enumerated as [a] and then [b]. *)
Theorem decoded_compounds_are_key_ordered :
  (forall data ct, read data = Ok ct -> ordered (TCompound ct) = true) /\
  read declared_b_then_a =
    Ok [(""%string, TCompound [("a"%string, TByte 2); ("b"%string, TByte 1)])].
Proof.
  split; [|reflexivity].
  intros data ct H. unfold read, read_fuel, readTag_CompoundTag in H.
  bind_inv H. destruct (negb _); [discriminate|].
  bind_inv H. bind_inv H. inversion H; subst.
  apply (ordered_emplace [] s t); [reflexivity|].
  eapply readTag_ordered; eassumption.
Qed.

Lemma decoded_compounds_are_key_ordered_witness :
  ordered (TCompound [(""%string, TCompound [("a"%string, TByte 2); ("b"%string, TByte 1)])])
  = true.
Proof.
  apply (proj1 decoded_compounds_are_key_ordered declared_b_then_a). reflexivity.
Defined.

(** C8.  Multi-byte reads put the first byte of the stream in the most
    significant place and read the pattern in two's complement (on the
    little-endian host the embedding fixes): [00 00 00 01] is the Int 1 and
    [FF FF FF FF] the Int -1. *)
Theorem readI32_big_endian :
  readTag 0 IntTag [x00; x00; x00; x01] 0 = Ok (TInt 1, 4%nat) /\
  readTag 0 IntTag [xff; xff; xff; xff] 0 = Ok (TInt (-1), 4%nat) /\
  (forall b1 b0 rest,
     readI16 (b1 :: b0 :: rest) 0 =
       Ok (signed 16 (byte_value b1 * 2 ^ 8 + byte_value b0), 2%nat)) /\
  (forall b3 b2 b1 b0 rest,
     readI32 (b3 :: b2 :: b1 :: b0 :: rest) 0 =
       Ok (signed 32 (byte_value b3 * 2 ^ 24 + byte_value b2 * 2 ^ 16
                      + byte_value b1 * 2 ^ 8 + byte_value b0), 4%nat)) /\
  (forall b7 b6 b5 b4 b3 b2 b1 b0 rest,
     readI64 (b7 :: b6 :: b5 :: b4 :: b3 :: b2 :: b1 :: b0 :: rest) 0 =
       Ok (signed 64 (byte_value b7 * 2 ^ 56 + byte_value b6 * 2 ^ 48
                      + byte_value b5 * 2 ^ 40 + byte_value b4 * 2 ^ 32
                      + byte_value b3 * 2 ^ 24 + byte_value b2 * 2 ^ 16
                      + byte_value b1 * 2 ^ 8 + byte_value b0), 8%nat)).
Proof.
  split; [reflexivity|]. split; [reflexivity|].
  split; [|split]; intros.
  - unfold readI16, size. cbn [length].
    destruct (Z.gtb_spec (Z.of_nat 0 + 2) (Z.of_nat (S (S (length rest))))); [lia|].
    cbn [index nth_error bind]. unfold bit_cast_int. cbn [length le_combine].
    f_equal. f_equal. f_equal. change (2 ^ 8) with 256. change (2 ^ 16) with (256 * 256).
    change (2 ^ 24) with (256 * 256 * 256). change (2 ^ 32) with (256 * 256 * 256 * 256).
    change (2 ^ 40) with (256 * 256 * 256 * 256 * 256).
    change (2 ^ 48) with (256 * 256 * 256 * 256 * 256 * 256).
    change (2 ^ 56) with (256 * 256 * 256 * 256 * 256 * 256 * 256). ring.
  - unfold readI32, size. cbn [length].
    destruct (Z.gtb_spec (Z.of_nat 0 + 4) (Z.of_nat (S (S (S (S (length rest))))))); [lia|].
    cbn [index nth_error bind]. unfold bit_cast_int. cbn [length le_combine].
    f_equal. f_equal. f_equal. change (2 ^ 8) with 256. change (2 ^ 16) with (256 * 256).
    change (2 ^ 24) with (256 * 256 * 256). change (2 ^ 32) with (256 * 256 * 256 * 256).
    change (2 ^ 40) with (256 * 256 * 256 * 256 * 256).
    change (2 ^ 48) with (256 * 256 * 256 * 256 * 256 * 256).
    change (2 ^ 56) with (256 * 256 * 256 * 256 * 256 * 256 * 256). ring.
  - unfold readI64, size. cbn [length].
    destruct (Z.gtb_spec (Z.of_nat 0 + 8)
                (Z.of_nat (S (S (S (S (S (S (S (S (length rest))))))))))); [lia|].
    cbn [index nth_error bind]. unfold bit_cast_int. cbn [length le_combine].
    f_equal. f_equal. f_equal. change (2 ^ 8) with 256. change (2 ^ 16) with (256 * 256).
    change (2 ^ 24) with (256 * 256 * 256). change (2 ^ 32) with (256 * 256 * 256 * 256).
    change (2 ^ 40) with (256 * 256 * 256 * 256 * 256).
    change (2 ^ 48) with (256 * 256 * 256 * 256 * 256 * 256).
    change (2 ^ 56) with (256 * 256 * 256 * 256 * 256 * 256 * 256). ring.
Qed.

(** C9.  [read] does not ask that the span be used up: when it returns a
    tree for [b], it returns the same tree for [b] followed by any bytes. *)
Theorem read_ignores_trailing_bytes (b sfx : Span) (t : CompoundMap) :
  read b = Ok t -> read (b ++ sfx) = Ok t.
Proof.
  intros H.
  assert (Hf : (fuel_for b <= fuel_for (b ++ sfx))%nat).
  { unfold fuel_for. rewrite length_app. lia. }
  rewrite <- (read_fuel_enough b _ Hf) in H.
  unfold read. generalize dependent (fuel_for (b ++ sfx)). intros fuel H _.
  unfold read_fuel, readTag_CompoundTag in *.
  bind_inv H. rewrite (readID_app _ sfx _ _ E). cbn [bind].
  destruct (negb _); [discriminate|].
  bind_inv H. bind_inv H. inversion H; subst.
  destruct fuel as [|fuel]; [discriminate|]. cbn [readTag] in *.
  bind_inv E1. inversion E1; subst.
  assert (n0 < length b)%nat as Hn0.
  { destruct fuel; [discriminate|]. apply loop_Ok_inv in E2 as (_ & _ & Hl & _). exact Hl. }
  rewrite (readString_app _ sfx _ _ _ E0 Hn0). cbn [bind].
  now rewrite (proj2 (readTag_app fuel sfx) _ _ _ _ _ E2).
Qed.

Lemma read_ignores_trailing_bytes_witness :
  read scenario2 = Ok [(""%string, TCompound [("x"%string, TInt 42)])] /\
  read (scenario2 ++ [xff; x0a; x00]) = Ok [(""%string, TCompound [("x"%string, TInt 42)])].
Proof.
  split; [reflexivity|].
  apply (read_ignores_trailing_bytes scenario2 [xff; x0a; x00]). reflexivity.
Defined.

(** C10.  Entries that repeat a name do not stop the decode, their bytes are
    read like those of any entry, and the name keeps the value of its first
    occurrence.  For a run of the loop of [readTag<CompoundTag>] that
    returns, with some entry at the cursor: the tag of that entry is
    decoded, and after the run its name is found with the value it already
    had in the compound, or, if the name was new, with that tag, whatever
    entries follow; every entry found in the compound before the run is
    found with the same value after it; and the run returns, at the same
    position, whichever names the compound held at its start. *)
Theorem repeated_name_keeps_first_value (fuel : nat) (data : Span) (pos : nat)
    (ct ct' : CompoundMap) (p : nat) (id : Z) (name : string) (p1 : nat) :
  sorted_keys (keys ct) = true ->
  readID data pos = Ok (id, S pos) -> id <> ID_value END ->
  readString data (S pos) = Ok (name, p1) ->
  readTag_CompoundTag_loop (S fuel) data pos ct = Ok (ct', p) ->
  (exists k v p2,
     enumerator id = Some k /\
     readTag fuel (alternative k) data p1 = Ok (v, p2) /\ (p2 <= p)%nat /\
     map_find name ct' = Some (match map_find name ct with Some v0 => v0 | None => v end)) /\
  (forall n x, map_find n ct = Some x -> map_find n ct' = Some x) /\
  (forall ct0, exists ct0', readTag_CompoundTag_loop (S fuel) data pos ct0 = Ok (ct0', p)).
Proof.
  intros Hs Hid Hne Hn H. split; [|split].
  - apply loop_Ok_inv in H
      as (id' & Hid' & _ & [(Hz & _ & _)|(_ & name' & p1' & ct1 & p2 & Hn' & Hw & Hl)]);
      rewrite Hid in Hid'; injection Hid' as Hid'; subst id'.
    + now elim Hne.
    + rewrite Hn in Hn'. injection Hn' as Hn1 Hn2. subst name' p1'.
      destruct (compound_switch_decodes (length data) _ _ _ _ _ _ _
                  (fun T => proj1 (readTag_inside fuel) T data) Hs Hw)
        as (k & v & q & Hk & Hv & Hq & Hf).
      exists k, v, q. repeat split; try assumption.
      * apply (proj2 (readTag_inside fuel)) in Hl. lia.
      * apply compound_switch_keeps in Hw as [Hs1 _]; [|assumption].
        now apply (loop_keeps _ _ _ _ _ _ Hs1 Hl).
  - now apply (loop_keeps _ _ _ _ _ _ Hs H).
  - intros ct0. now apply (loop_any_map _ _ _ _ _ _ ct0 H).
Qed.

(** The second entry [a] of [declared_a_twice], met with the first in the
    compound: its byte is decoded and [a] keeps the value 1. *)
Lemma repeated_name_keeps_first_value_witness :
  readTag_CompoundTag_loop 2 declared_a_twice 8 [("a"%string, TByte 1)] =
    Ok ([("a"%string, TByte 1)], 14%nat) /\
  (exists k v p2,
     enumerator 1 = Some k /\
     readTag 1 (alternative k) declared_a_twice 12 = Ok (v, p2) /\ (p2 <= 14)%nat /\
     map_find "a" [("a"%string, TByte 1)] = Some (TByte 1)).
Proof.
  split; [reflexivity|].
  apply (proj1 (repeated_name_keeps_first_value 1 declared_a_twice 8
                  [("a"%string, TByte 1)] [("a"%string, TByte 1)] 14 1 "a"%string 12%nat
                  eq_refl eq_refl ltac:(discriminate) eq_refl eq_refl)).
Defined.

(** * Further properties of the code *)

(** ** The cursor *)

Lemma gtb_size_false (data : Span) (a : nat) (w : Z) :
  (Z.of_nat a + w >? size data) = false <-> Z.of_nat a + w <= Z.of_nat (length data).
Proof.
  unfold size. destruct (Z.gtb_spec (Z.of_nat a + w) (Z.of_nat (length data))); split;
    (lia || discriminate || reflexivity).
Qed.

Lemma readI16_complete (data : Span) (pos : nat) :
  (pos + 2 <= length data)%nat -> exists v, readI16 data pos = Ok (v, (pos + 2)%nat).
Proof.
  intros H. unfold readI16. rewrite (proj2 (gtb_size_false data pos 2)) by lia.
  destruct (index_in_range data pos) as [b1 ->]; [lia|]. cbn [bind].
  destruct (index_in_range data (S pos)) as [b0 ->]; [lia|]. cbn [bind].
  replace (S (S pos)) with (pos + 2)%nat by lia. eauto.
Qed.

Lemma readI32_complete (data : Span) (pos : nat) :
  (pos + 4 <= length data)%nat -> exists v, readI32 data pos = Ok (v, (pos + 4)%nat).
Proof.
  intros H. unfold readI32. rewrite (proj2 (gtb_size_false data pos 4)) by lia.
  destruct (index_in_range data pos) as [b3 ->]; [lia|]. cbn [bind].
  destruct (index_in_range data (S pos)) as [b2 ->]; [lia|]. cbn [bind].
  destruct (index_in_range data (S (S pos))) as [b1 ->]; [lia|]. cbn [bind].
  destruct (index_in_range data (S (S (S pos)))) as [b0 ->]; [lia|]. cbn [bind].
  replace (S (S (S (S pos)))) with (pos + 4)%nat by lia. eauto.
Qed.

Lemma readI64_complete (data : Span) (pos : nat) :
  (pos + 8 <= length data)%nat -> exists v, readI64 data pos = Ok (v, (pos + 8)%nat).
Proof.
  intros H. unfold readI64. rewrite (proj2 (gtb_size_false data pos 8)) by lia.
  destruct (index_in_range data pos) as [b7 ->]; [lia|]. cbn [bind].
  destruct (index_in_range data (S pos)) as [b6 ->]; [lia|]. cbn [bind].
  destruct (index_in_range data (S (S pos))) as [b5 ->]; [lia|]. cbn [bind].
  destruct (index_in_range data (S (S (S pos)))) as [b4 ->]; [lia|]. cbn [bind].
  destruct (index_in_range data (S (S (S (S pos))))) as [b3 ->]; [lia|]. cbn [bind].
  destruct (index_in_range data (S (S (S (S (S pos)))))) as [b2 ->]; [lia|]. cbn [bind].
  destruct (index_in_range data (S (S (S (S (S (S pos))))))) as [b1 ->]; [lia|]. cbn [bind].
  destruct (index_in_range data (S (S (S (S (S (S (S pos)))))))) as [b0 ->]; [lia|]. cbn [bind].
  replace (S (S (S (S (S (S (S (S pos)))))))) with (pos + 8)%nat by lia. eauto.
Qed.

Lemma wide_read_truncated (data : Span) (pos : nat) :
  ((length data < pos + 2)%nat -> readI16 data pos = Absent) /\
  ((length data < pos + 4)%nat -> readI32 data pos = Absent) /\
  ((length data < pos + 8)%nat -> readI64 data pos = Absent).
Proof.
  unfold readI16, readI32, readI64, size. repeat split; intros H.
  - destruct (Z.gtb_spec (Z.of_nat pos + 2) (Z.of_nat (length data))); [reflexivity|lia].
  - destruct (Z.gtb_spec (Z.of_nat pos + 4) (Z.of_nat (length data))); [reflexivity|lia].
  - destruct (Z.gtb_spec (Z.of_nat pos + 8) (Z.of_nat (length data))); [reflexivity|lia].
Qed.

(** X1.  The reads of two, four and eight bytes check the bytes left before
    they index: each returns absent exactly when fewer bytes than its width
    are left, and otherwise a value with the cursor advanced by the width.
    None of them ever indexes outside the span, and the reads of a float and
    a double end as the integer reads they wrap. *)
Theorem wide_reads_are_bounds_checked (data : Span) (pos : nat) :
  (readI16 data pos = Absent <-> (length data < pos + 2)%nat) /\
  (readI32 data pos = Absent <-> (length data < pos + 4)%nat) /\
  (readI64 data pos = Absent <-> (length data < pos + 8)%nat) /\
  ((pos + 2 <= length data)%nat -> exists v, readI16 data pos = Ok (v, (pos + 2)%nat)) /\
  ((pos + 4 <= length data)%nat ->
     exists v, readI32 data pos = Ok (v, (pos + 4)%nat) /\
               readF32 data pos = Ok (v, (pos + 4)%nat)) /\
  ((pos + 8 <= length data)%nat ->
     exists v, readI64 data pos = Ok (v, (pos + 8)%nat) /\
               readF64 data pos = Ok (v, (pos + 8)%nat)) /\
  readI16 data pos <> Undefined /\ readI32 data pos <> Undefined /\
  readI64 data pos <> Undefined /\
  (readF32 data pos = Absent <-> readI32 data pos = Absent) /\
  (readF64 data pos = Absent <-> readI64 data pos = Absent).
Proof.
  destruct (wide_read_truncated data pos) as (T16 & T32 & T64).
  pose proof (readI16_complete data pos) as C16.
  pose proof (readI32_complete data pos) as C32.
  pose proof (readI64_complete data pos) as C64.
  assert (D16 : (length data < pos + 2)%nat \/ (pos + 2 <= length data)%nat) by lia.
  assert (D32 : (length data < pos + 4)%nat \/ (pos + 4 <= length data)%nat) by lia.
  assert (D64 : (length data < pos + 8)%nat \/ (pos + 8 <= length data)%nat) by lia.
  repeat split; try assumption.
  - intros H. destruct D16 as [|D]; [assumption|]. destruct (C16 D) as [v Hv]. congruence.
  - intros H. destruct D32 as [|D]; [assumption|]. destruct (C32 D) as [v Hv]. congruence.
  - intros H. destruct D64 as [|D]; [assumption|]. destruct (C64 D) as [v Hv]. congruence.
  - intros H. destruct (C32 H) as [v Hv]. exists v. split; [assumption|].
    unfold readF32. now rewrite Hv.
  - intros H. destruct (C64 H) as [v Hv]. exists v. split; [assumption|].
    unfold readF64. now rewrite Hv.
  - destruct D16 as [D|D]; [rewrite (T16 D); discriminate|].
    destruct (C16 D) as [v ->]. discriminate.
  - destruct D32 as [D|D]; [rewrite (T32 D); discriminate|].
    destruct (C32 D) as [v ->]. discriminate.
  - destruct D64 as [D|D]; [rewrite (T64 D); discriminate|].
    destruct (C64 D) as [v ->]. discriminate.
  - unfold readF32. destruct (readI32 data pos) as [[]| | | |]; cbn [bind]; congruence.
  - unfold readF32. intros ->. reflexivity.
  - unfold readF64. destruct (readI64 data pos) as [[]| | | |]; cbn [bind]; congruence.
  - unfold readF64. intros ->. reflexivity.
Qed.

Lemma string_of_list_byte_length (bytes : list byte) :
  String.length (string_of_list_byte bytes) = length bytes.
Proof.
  unfold string_of_list_byte.
  induction bytes as [|b bytes IH]; cbn [map string_of_list_ascii String.length length];
    [reflexivity|now rewrite IH].
Qed.

(** X2.  With a declared length [n >= 0] (on a span that fits the address
    space) [readString] returns exactly the [n] bytes that follow the length
    and leaves the cursor behind them; when fewer than [n] bytes are left it
    returns absent. *)
Theorem readString_takes_declared_length (data : Span) (pos : nat) (n : Z) (q : nat) :
  size data <= PTRDIFF_MAX -> readI16 data pos = Ok (n, q) -> 0 <= n ->
  ((q + Z.to_nat n <= length data)%nat ->
     readString data pos =
       Ok (string_of_list_byte (firstn (Z.to_nat n) (skipn q data)), (q + Z.to_nat n)%nat) /\
     Z.of_nat (String.length (string_of_list_byte (firstn (Z.to_nat n) (skipn q data)))) = n) /\
  ((length data < q + Z.to_nat n)%nat -> readString data pos = Absent).
Proof.
  intros Hsz Hn Hpos. pose proof (readI16_range _ _ _ _ Hn) as Hr.
  pose proof (readI16_Ok_inv _ _ _ _ Hn) as [-> Hq].
  unfold readString. rewrite Hn. cbn [bind].
  unfold size, PTRDIFF_MAX in *.
  replace (to_size_t (Z.of_nat (pos + 2) + n)) with (Z.of_nat (pos + 2) + n)
    by (unfold to_size_t; rewrite Z.mod_small; lia).
  rewrite to_size_t_nonneg by lia.
  split; intros H.
  - destruct (Z.gtb_spec (Z.of_nat (pos + 2) + n) (Z.of_nat (length data))); [lia|].
    unfold subspan, size, dynamic_extent.
    destruct (Z.ltb_spec (Z.of_nat (length data)) (Z.of_nat (pos + 2))); [lia|].
    destruct (Z.eqb_spec n (2 ^ 64 - 1)); [lia|].
    destruct (Z.leb_spec n (Z.of_nat (length data) - Z.of_nat (pos + 2))); [|lia].
    assert (Hl : length (firstn (Z.to_nat n) (skipn (pos + 2) data)) = Z.to_nat n)
      by (rewrite length_firstn, length_skipn; lia).
    split.
    + now rewrite Hl.
    + rewrite string_of_list_byte_length, Hl. lia.
  - destruct (Z.gtb_spec (Z.of_nat (pos + 2) + n) (Z.of_nat (length data))); [reflexivity|lia].
Qed.

Lemma readString_takes_declared_length_witness :
  readString scenario2 4 = Ok (string_of_list_byte (firstn (Z.to_nat 1) (skipn 6 scenario2)),
                               (6 + Z.to_nat 1)%nat) /\
  Z.of_nat (String.length (string_of_list_byte (firstn (Z.to_nat 1) (skipn 6 scenario2)))) = 1.
Proof.
  assert (Hsz : size scenario2 <= PTRDIFF_MAX) by (vm_compute; discriminate).
  apply (proj1 (readString_takes_declared_length scenario2 4 1 6 Hsz eq_refl ltac:(lia))).
  vm_compute. lia.
Defined.

(** ** Arrays *)





Lemma reserve_count (w : Z) (n : Z) :
  1 <= w <= 8 -> 0 <= n < 2 ^ 31 -> reserve w (to_size_t n) = Ok tt.
Proof.
  intros Hw Hn. unfold reserve. rewrite to_size_t_nonneg by lia.
  assert (2 ^ 31 <= vector_max_size w).
  { unfold vector_max_size, PTRDIFF_MAX. apply Z.div_le_lower_bound; lia. }
  destruct (Z.gtb_spec n (vector_max_size w)); [lia|reflexivity].
Qed.



Section FixedWidthArray.

Variable f : nat -> Outcome (Z * nat).
Variables w L : nat.

Hypothesis f_complete : forall pos, (pos + w <= L)%nat -> exists v, f pos = Ok (v, (pos + w)%nat).
Hypothesis f_truncated : forall pos, (L < pos + w)%nat -> f pos = Absent.

Lemma read_array_complete (n : nat) (q : nat) (acc : list Z) :
  (q + w * n <= L)%nat ->
  exists a,
    read_array f n q acc = Ok (acc ++ a, (q + w * n)%nat) /\ length a = n /\
    forall i, (i < n)%nat -> f (q + w * i)%nat = Ok (nth i a 0, (q + w * i + w)%nat).
Proof.
  revert q acc. induction n as [|n IH]; intros q acc H; cbn [read_array].
  - exists []. rewrite app_nil_r. repeat split; [do 2 f_equal; lia|lia].
  - destruct (f_complete q) as [v Hv]; [lia|]. rewrite Hv. cbn [bind].
    destruct (IH (q + w)%nat (acc ++ [v])) as (a & Ha & Hl & Hi); [lia|].
    exists (v :: a). rewrite Ha, <- app_assoc. cbn [app length]. repeat split.
    + do 2 f_equal. lia.
    + now rewrite Hl.
    + intros [|i] Hlt; cbn [nth].
      * rewrite Nat.mul_0_r, !Nat.add_0_r. exact Hv.
      * specialize (Hi i ltac:(lia)).
        replace (q + w * S i)%nat with (q + w + w * i)%nat by lia. exact Hi.
Qed.

Lemma read_array_truncated (n : nat) (q : nat) (acc : list Z) :
  (q <= L)%nat -> (L < q + w * n)%nat -> read_array f n q acc = Absent.
Proof.
  revert q acc. induction n as [|n IH]; intros q acc Hq H; [lia|]. cbn [read_array].
  destruct (Nat.le_gt_cases (q + w) L) as [Hc|Hc].
  - destruct (f_complete q Hc) as [v ->]. cbn [bind]. apply IH; lia.
  - now rewrite (f_truncated q Hc).
Qed.

End FixedWidthArray.

(** X4.  With a declared count [n >= 0], the [4 n] (or [8 n]) bytes behind
    it being in the span, the int-array and long-array decoders return
    exactly [n] elements, the [i]-th being the big-endian integer at offset
    [4 i] (or [8 i]) behind the count, and leave the cursor behind the last
    one.  When fewer bytes are left the decoders return no array: the loop
    over the elements, which they enter once [reserve] has returned, ends
    in the absent value, and no read leaves the span. *)
Theorem wide_arrays_hold_the_declared_count (data : Span) (pos : nat) (n : Z) (q : nat) :
  readI32 data pos = Ok (n, q) -> 0 <= n ->
  ((q + 4 * Z.to_nat n <= length data)%nat ->
     exists a,
       readTag_IntArrayTag data pos = Ok (TIntArray a, (q + 4 * Z.to_nat n)%nat) /\
       Z.of_nat (length a) = n /\
       forall i, (i < length a)%nat ->
         readI32 data (q + 4 * i) = Ok (nth i a 0, (q + 4 * i + 4)%nat)) /\
  ((length data < q + 4 * Z.to_nat n)%nat ->
     read_array (readI32 data) (Z.to_nat n) q [] = Absent /\
     is_Ok (readTag_IntArrayTag data pos) = false) /\
  ((q + 8 * Z.to_nat n <= length data)%nat ->
     exists a,
       readTag_LongArrayTag data pos = Ok (TLongArray a, (q + 8 * Z.to_nat n)%nat) /\
       Z.of_nat (length a) = n /\
       forall i, (i < length a)%nat ->
         readI64 data (q + 8 * i) = Ok (nth i a 0, (q + 8 * i + 8)%nat)) /\
  ((length data < q + 8 * Z.to_nat n)%nat ->
     read_array (readI64 data) (Z.to_nat n) q [] = Absent /\
     is_Ok (readTag_LongArrayTag data pos) = false).
Proof.
  intros Hn Hpos. pose proof (readI32_range _ _ _ _ Hn) as Hr.
  pose proof (readI32_Ok_inv _ _ _ _ Hn) as [_ Hq].
  assert (T32 : forall p, (length data < p + 4)%nat -> readI32 data p = Absent)
    by (intros p; apply (wide_read_truncated data p)).
  assert (T64 : forall p, (length data < p + 8)%nat -> readI64 data p = Absent)
    by (intros p; apply (wide_read_truncated data p)).
  unfold readTag_IntArrayTag, readTag_LongArrayTag. rewrite Hn. cbn [bind]. cbv zeta.
  rewrite !reserve_count by lia. cbn [bind]. rewrite to_size_t_nonneg by lia.
  split; [|split; [|split]]; intros H.
  - destruct (read_array_complete (readI32 data) 4 (length data) (readI32_complete data)
                (Z.to_nat n) q [] H) as (a & Ha & Hl & Hi).
    exists a. rewrite Ha. cbn [bind app]. repeat split; [lia|].
    intros i Hlt. apply Hi. lia.
  - rewrite (read_array_truncated (readI32 data) 4 (length data)
               (readI32_complete data) T32) by lia.
    split; reflexivity.
  - destruct (read_array_complete (readI64 data) 8 (length data) (readI64_complete data)
                (Z.to_nat n) q [] H) as (a & Ha & Hl & Hi).
    exists a. rewrite Ha. cbn [bind app]. repeat split; [lia|].
    intros i Hlt. apply Hi. lia.
  - rewrite (read_array_truncated (readI64 data) 8 (length data)
               (readI64_complete data) T64) by lia.
    split; reflexivity.
Qed.

Lemma wide_arrays_hold_the_declared_count_witness :
  (exists a,
     readTag_IntArrayTag [x00; x00; x00; x01; xff; xff; xff; xfe] 0 =
       Ok (TIntArray a, (4 + 4 * Z.to_nat 1)%nat) /\
     Z.of_nat (length a) = 1 /\
     forall i, (i < length a)%nat ->
       readI32 [x00; x00; x00; x01; xff; xff; xff; xfe] (4 + 4 * i) =
         Ok (nth i a 0, (4 + 4 * i + 4)%nat)) /\
  (read_array (readI64 [x00; x00; x00; x01; xff; xff; xff; xfe]) (Z.to_nat 1) 4 [] = Absent /\
   is_Ok (readTag_LongArrayTag [x00; x00; x00; x01; xff; xff; xff; xfe] 0) = false).
Proof.
  pose proof (wide_arrays_hold_the_declared_count
                [x00; x00; x00; x01; xff; xff; xff; xfe] 0 1 4 eq_refl ltac:(lia))
    as (H1 & _ & _ & H4).
  split; [apply H1|apply H4]; vm_compute; lia.
Defined.

(** ** Shape of what is decoded *)

(** [readTag<T>] returns the alternative [T]. *)
Lemma readTag_kind (fuel : nat) (T : TagType) (data : Span) (pos : nat) (v : Tag) (p : nat) :
  readTag fuel T data pos = Ok (v, p) -> kind_of v = T.
Proof.
  intros H. destruct T; destruct fuel; cbn [readTag] in H; try discriminate;
    unfold readTag_EndTag, readTag_ByteTag, readTag_ShortTag, readTag_IntTag,
      readTag_LongTag, readTag_FloatTag, readTag_DoubleTag, readTag_StringTag,
      readTag_ByteArrayTag, readTag_IntArrayTag, readTag_LongArrayTag in H;
    cbv zeta in H;
    try (repeat bind_inv H; inversion H; reflexivity).
  - bind_inv H. destruct (enumerator z); [|discriminate].
    unfold readListTag in H. repeat bind_inv H. inversion H. reflexivity.
Qed.

Lemma readListTag_loop_Forall (Q : Tag -> Prop) (f : nat -> Outcome (Tag * nat)) (n : nat)
    (pos : nat) (lst lst' : list Tag) (p : nat) :
  (forall q v q', f q = Ok (v, q') -> Q v) -> Forall Q lst ->
  readListTag_loop f n pos lst = Ok (lst', p) -> Forall Q lst'.
Proof.
  intros Hf. revert pos lst. induction n as [|n IH]; intros pos lst Hl H;
    cbn [readListTag_loop] in H.
  - now inversion H; subst.
  - bind_inv H. destruct (emplace_back lst t) eqn:B; cbn [bind] in H; try discriminate.
    apply emplace_back_Ok in B as [-> _]. apply (IH n0 (lst ++ [t])); [|assumption].
    apply Forall_app. split; [assumption|]. constructor; [|constructor]. eapply Hf; eassumption.
Qed.

Lemma read_array_Forall (Q : Z -> Prop) (f : nat -> Outcome (Z * nat)) (n : nat)
    (pos : nat) (a a' : list Z) (p : nat) :
  (forall q v q', f q = Ok (v, q') -> Q v) -> Forall Q a ->
  read_array f n pos a = Ok (a', p) -> Forall Q a'.
Proof.
  intros Hf. revert pos a. induction n as [|n IH]; intros pos a Ha H; cbn [read_array] in H.
  - now inversion H; subst.
  - bind_inv H. apply (IH n0 (a ++ [z])); [|assumption].
    apply Forall_app. split; [assumption|]. constructor; [|constructor]. eapply Hf; eassumption.
Qed.

Lemma read_array_length (f : nat -> Outcome (Z * nat)) (n : nat) (pos : nat)
    (a a' : list Z) (p : nat) :
  read_array f n pos a = Ok (a', p) -> length a' = (length a + n)%nat.
Proof.
  revert pos a. induction n as [|n IH]; intros pos a H; cbn [read_array] in H.
  - inversion H; subst. lia.
  - bind_inv H. apply IH in H. rewrite length_app in H. cbn [length] in H. lia.
Qed.

Lemma readTag_ListTag_Ok_inv (fuel : nat) (data : Span) (pos : nat)
    (v : Tag) (p : nat) :
  readTag (S fuel) ListTag data pos = Ok (v, p) ->
  exists id k n q lst,
    readID data pos = Ok (id, S pos) /\ enumerator id = Some k /\
    readI32 data (S pos) = Ok (n, q) /\ v = TList lst /\
    Z.of_nat (length lst) = n /\
    Forall (fun e => kind_of e = alternative k) lst.
Proof.
  intros H. pose proof H as H0. cbn [readTag] in H. bind_inv H.
  pose proof (readID_Ok_inv _ _ _ _ E) as [-> _].
  destruct (enumerator z) as [k|] eqn:Hk; [|discriminate].
  pose proof H as HL. unfold readListTag in H. bind_inv H. bind_inv H. inversion H; subst.
  exists z, k, z0, n, l. repeat split; try assumption.
  - pose proof (readI32_range _ _ _ _ E0) as Hr.
    destruct (Z.lt_ge_cases z0 0) as [Hneg|Hpos].
    + pose proof (readListTag_negative (readTag fuel (alternative k) data) _ _ _ _ E0 Hneg) as C.
      rewrite HL in C. discriminate.
    + apply readListTag_loop_length in E1 as [Hlen _]. cbn [length] in Hlen.
      rewrite to_size_t_nonneg in Hlen by lia. lia.
  - eapply readListTag_loop_Forall; [|constructor|eassumption].
    intros q v q'. apply readTag_kind.
Qed.

(** X5.  A list that is decoded holds exactly as many elements as its
    header declares, and every element is of the alternative that the
    header's kind code selects; the declared count of a decoded list is
    never negative. *)
Theorem list_holds_declared_count_and_kind (fuel : nat) (data : Span) (pos : nat)
    (v : Tag) (p : nat) :
  readTag (S fuel) ListTag data pos = Ok (v, p) ->
  exists id k n q lst,
    readID data pos = Ok (id, S pos) /\ enumerator id = Some k /\
    readI32 data (S pos) = Ok (n, q) /\ v = TList lst /\
    0 <= n /\ Z.of_nat (length lst) = n /\
    Forall (fun e => kind_of e = alternative k) lst.
Proof.
  intros H.
  destruct (readTag_ListTag_Ok_inv _ _ _ _ _ H)
    as (id & k & n & q & lst & Hid & Hk & Hn & Hv & Hl & Hkind).
  exists id, k, n, q, lst. repeat split; try assumption. lia.
Qed.

Lemma list_holds_declared_count_and_kind_witness :
  exists id k n q lst,
    readID scenario4 7 = Ok (id, 8%nat) /\ enumerator id = Some k /\
    readI32 scenario4 8 = Ok (n, q) /\ TList [TByte 5; TByte 7] = TList lst /\
    0 <= n /\ Z.of_nat (length lst) = n /\
    Forall (fun e => kind_of e = alternative k) lst.
Proof.
  apply (list_holds_declared_count_and_kind 0 scenario4 7 (TList [TByte 5; TByte 7]) 14).
  reflexivity.
Defined.

(** A property of tags that the leaf decoders establish, and that lists of
    one alternative and compounds inherit from their elements, holds of
    every tag decoded. *)
Section TreeInvariant.

Variable P : Tag -> bool.

Hypothesis P_leaf : forall fuel T data pos v p,
  leaf T = true -> readTag fuel T data pos = Ok (v, p) -> P v = true.

Hypothesis P_list : forall T lst,
  Forall (fun e => kind_of e = T) lst -> forallb P lst = true -> P (TList lst) = true.

Hypothesis P_compound : forall m,
  forallb (fun kv => P (snd kv)) m = true -> P (TCompound m) = true.

Lemma compound_switch_invariant (rt : TagType -> nat -> Outcome (Tag * nat)) (id : Z)
    (name : string) (ct : CompoundMap) (pos : nat) (ct' : CompoundMap) (p : nat) :
  (forall T q v q', rt T q = Ok (v, q') -> P v = true) ->
  forallb (fun kv => P (snd kv)) ct = true ->
  compound_switch rt id name ct pos = Ok (ct', p) ->
  forallb (fun kv => P (snd kv)) ct' = true.
Proof.
  intros Hrt Hct H.
  apply compound_switch_Ok_inv in H
    as [(k & v & _ & _ & _ & Hv & ->)|(v1 & p1 & v2 & _ & Hv1 & Hv2 & ->)].
  - apply emplace_forallb; [|assumption]. cbn [snd]. eapply Hrt; eassumption.
  - apply emplace_forallb; [cbn [snd]; eapply Hrt; eassumption|].
    apply emplace_forallb; [|assumption]. cbn [snd]. eapply Hrt; eassumption.
Qed.

Lemma readTag_invariant (fuel : nat) :
  (forall T data pos v p, readTag fuel T data pos = Ok (v, p) -> P v = true) /\
  (forall data pos ct ct' p,
     forallb (fun kv => P (snd kv)) ct = true ->
     readTag_CompoundTag_loop fuel data pos ct = Ok (ct', p) ->
     forallb (fun kv => P (snd kv)) ct' = true).
Proof.
  induction fuel as [|fuel [IHt IHl]].
  - split.
    + intros T data pos v p H. destruct T; try (now eapply P_leaf; eauto); discriminate.
    + discriminate.
  - split.
    + intros T data pos v p H. destruct T; try (now eapply P_leaf; eauto).
      * destruct (readTag_ListTag_Ok_inv _ _ _ _ _ H)
          as (id & k & n & q & lst & Hid & Hk & Hn & -> & _ & Hkind).
        apply (P_list _ _ Hkind).
        cbn [readTag] in H. rewrite Hid in H. cbn [bind] in H. rewrite Hk in H.
        unfold readListTag in H. rewrite Hn in H. cbn [bind] in H. bind_inv H.
        inversion H; subst. apply forallb_forall. apply Forall_forall.
        eapply readListTag_loop_Forall; [|constructor|eassumption].
        intros q' v q''. apply IHt.
      * cbn [readTag] in H. bind_inv H. inversion H; subst.
        apply P_compound. eapply (IHl _ _ []); [reflexivity|eassumption].
    + intros data pos ct ct' p Hct H.
      apply loop_Ok_inv in H
        as (id & Hid & Hlt & [(_ & -> & _)|(Hne & name & p1 & ct1 & p2 & Hs & Hw & Hl)]).
      * assumption.
      * eapply IHl; [|eassumption].
        eapply compound_switch_invariant; [|eassumption|eassumption].
        intros T q v q'. apply IHt.
Qed.

Lemma read_invariant (data : Span) (ct : CompoundMap) :
  read data = Ok ct -> P (TCompound ct) = true.
Proof.
  intros H. unfold read, read_fuel, readTag_CompoundTag in H.
  bind_inv H. destruct (negb _); [discriminate|].
  bind_inv H. bind_inv H. inversion H; subst.
  apply P_compound. cbn [map_emplace forallb snd].
  now rewrite (proj1 (readTag_invariant _) _ _ _ _ _ E1).
Qed.

End TreeInvariant.

Lemma TagType_eqb_eq (a b : TagType) : TagType_eqb a b = true <-> a = b.
Proof. destruct a, b; cbn; split; (reflexivity || discriminate). Qed.

Lemma same_kind_Forall (T : TagType) (lst : list Tag) :
  Forall (fun e => kind_of e = T) lst -> same_kind lst = true.
Proof.
  intros H. destruct lst as [|e lst]; [reflexivity|]. unfold same_kind.
  apply forallb_forall. intros x Hx. apply TagType_eqb_eq.
  rewrite Forall_forall in H. rewrite (H x Hx). symmetry. apply H. now left.
Qed.

(** X6.  In every tree that [read] returns, every list, at every depth,
    holds elements of one and the same alternative. *)
Theorem decoded_lists_are_homogeneous (data : Span) (ct : CompoundMap) :
  read data = Ok ct -> homogeneous (TCompound ct) = true.
Proof.
  apply read_invariant.
  - intros fuel T data' pos v p HT H. apply readTag_kind in H.
    destruct v; cbn in H; subst T; try reflexivity; discriminate.
  - intros T lst Hk Hl. cbn [homogeneous]. now rewrite (same_kind_Forall T lst Hk).
  - intros m Hm. exact Hm.
Qed.

Lemma decoded_lists_are_homogeneous_witness :
  homogeneous (TCompound [(""%string,
     TCompound [(""%string, TCompound []); ("l"%string, TList [TByte 5; TByte 7])])]) = true.
Proof.
  apply (decoded_lists_are_homogeneous (scenario4 ++ [x00])). reflexivity.
Defined.

Lemma readI8_range (data : Span) (pos : nat) (v : Z) (p : nat) :
  readI8 data pos = Ok (v, p) -> - 2 ^ 7 <= v < 2 ^ 7.
Proof.
  unfold readI8. destruct (_ >? _); [discriminate|]. intros H.
  bind_inv H. inversion H; subst.
  unfold bit_cast_int, signed. cbn [length le_combine].
  pose proof (byte_value_range b).
  change (8 * Z.of_nat 1) with 8. change (2 ^ (8 - 1)) with 128.
  change (2 ^ 8) with 256. change (2 ^ 7) with 128.
  destruct (Z.ltb_spec (byte_value b + 256 * 0) 128); lia.
Qed.

Lemma readI64_range (data : Span) (pos : nat) (v : Z) (p : nat) :
  readI64 data pos = Ok (v, p) -> - 2 ^ 63 <= v < 2 ^ 63.
Proof.
  unfold readI64. destruct (_ >? _); [discriminate|]. intros H.
  do 8 bind_inv H. inversion H; subst.
  unfold bit_cast_int, signed. cbn [length le_combine].
  pose proof (byte_value_range b). pose proof (byte_value_range b0).
  pose proof (byte_value_range b1). pose proof (byte_value_range b2).
  pose proof (byte_value_range b3). pose proof (byte_value_range b4).
  pose proof (byte_value_range b5). pose proof (byte_value_range b6).
  change (8 * Z.of_nat 8) with 64. change (2 ^ (64 - 1)) with 9223372036854775808.
  change (2 ^ 64) with 18446744073709551616. change (2 ^ 63) with 9223372036854775808.
  match goal with |- context [?x <? 9223372036854775808] =>
    destruct (Z.ltb_spec x 9223372036854775808) end; lia.
Qed.

Lemma fits_range (w : Z) (v : Z) : - 2 ^ (w - 1) <= v < 2 ^ (w - 1) -> fits w v = true.
Proof.
  intros H. unfold fits. apply andb_true_intro. split; [apply Z.leb_le|apply Z.ltb_lt]; lia.
Qed.

Lemma readI8_fits (data : Span) (pos : nat) (v : Z) (p : nat) :
  readI8 data pos = Ok (v, p) -> fits 8 v = true.
Proof. intros H. apply fits_range. change (8 - 1) with 7. eapply readI8_range, H. Qed.

Lemma readI16_fits (data : Span) (pos : nat) (v : Z) (p : nat) :
  readI16 data pos = Ok (v, p) -> fits 16 v = true.
Proof. intros H. apply fits_range. change (16 - 1) with 15. eapply readI16_range, H. Qed.

Lemma readI32_fits (data : Span) (pos : nat) (v : Z) (p : nat) :
  readI32 data pos = Ok (v, p) -> fits 32 v = true.
Proof. intros H. apply fits_range. change (32 - 1) with 31. eapply readI32_range, H. Qed.

Lemma readI64_fits (data : Span) (pos : nat) (v : Z) (p : nat) :
  readI64 data pos = Ok (v, p) -> fits 64 v = true.
Proof. intros H. apply fits_range. change (64 - 1) with 63. eapply readI64_range, H. Qed.

Lemma read_array_fits (w : Z) (f : nat -> Outcome (Z * nat)) (n : nat) (pos : nat)
    (a : list Z) (p : nat) :
  (forall q v q', f q = Ok (v, q') -> fits w v = true) ->
  read_array f n pos [] = Ok (a, p) -> forallb (fits w) a = true.
Proof.
  intros Hf H. apply forallb_forall. apply Forall_forall.
  eapply read_array_Forall; [|constructor|eassumption].
  intros q v q' Hv. eapply Hf; eassumption.
Qed.

(** X7.  In every tree that [read] returns, every number is a value of the
    integer type that holds it: bytes and byte-array elements lie in
    -2^7 .. 2^7 - 1, shorts in -2^15 .. 2^15 - 1, ints, int-array elements
    and float patterns in -2^31 .. 2^31 - 1, longs, long-array elements and
    double patterns in -2^63 .. 2^63 - 1. *)
Theorem decoded_numbers_fit_their_types (data : Span) (ct : CompoundMap) :
  read data = Ok ct -> in_range (TCompound ct) = true.
Proof.
  apply read_invariant.
  - intros fuel T data' pos v p HT H.
    destruct T; try discriminate; destruct fuel; cbn [readTag] in H;
      unfold readTag_EndTag, readTag_ByteTag, readTag_ShortTag, readTag_IntTag,
        readTag_LongTag, readTag_FloatTag, readTag_DoubleTag, readTag_StringTag,
        readTag_ByteArrayTag, readTag_IntArrayTag, readTag_LongArrayTag,
        readF32, readF64 in H;
      cbv zeta in H; repeat bind_inv H; inversion H; subst; cbn [in_range];
      try reflexivity;
      try (match goal with E : bind _ _ = Ok _ |- _ => bind_inv E; inversion E; subst end);
      first [ eapply readI8_fits; eassumption | eapply readI16_fits; eassumption
            | eapply readI32_fits; eassumption | eapply readI64_fits; eassumption
            | eapply (read_array_fits 8); [apply readI8_fits|eassumption]
            | eapply (read_array_fits 32); [apply readI32_fits|eassumption]
            | eapply (read_array_fits 64); [apply readI64_fits|eassumption] ].
  - intros T lst _ Hl. exact Hl.
  - intros m Hm. exact Hm.
Qed.

Lemma decoded_numbers_fit_their_types_witness :
  in_range (TCompound [(""%string, TCompound [("x"%string, TInt 42)])]) = true.
Proof.
  apply (decoded_numbers_fit_their_types scenario2). reflexivity.
Defined.

(** ** Bytes at and after the cursor's last position are not needed

    The converse of the extension lemmas: a decode that succeeded on a span
    succeeds, with the same result, on the span cut anywhere at or after
    the position it reached. *)

Section Truncation.

Variables L0 L : nat.




End Truncation.

Section Cut.

Variables d sfx : Span.










Lemma to_size_t_add_le (n : nat) (z : Z) :
  to_size_t (Z.of_nat n + z) <= Z.of_nat n + to_size_t z.
Proof.
  unfold to_size_t. rewrite <- Z.add_mod_idemp_r by lia.
  apply Z.mod_le; [|lia].
  pose proof (Z.mod_pos_bound z (2 ^ 64)). lia.
Qed.


End Cut.




Lemma read_ends_read (data : Span) (t : CompoundMap) :
  read data = Ok t <-> exists p, read_ends data t p.
Proof.
  split.
  - unfold read, read_fuel. intros H. bind_inv H.
    pose proof (readID_Ok_inv _ _ _ _ E) as [-> _].
    destruct (Z.eqb_spec z (ID_value COMPOUND)) as [Hz|]; [|discriminate].
    rewrite Hz in E. cbn [negb] in H. bind_inv H. bind_inv H. inversion H; subst.
    exists n0, (fuel_for data), s, n, t0. auto.
  - intros (p & fuel & name & q & tag & Hid & Hs & Ht & ->).
    rewrite <- (read_fuel_enough data (Nat.max fuel (fuel_for data))) by lia.
    unfold read_fuel. rewrite Hid. cbn [bind]. rewrite Z.eqb_refl. cbn [negb].
    rewrite Hs. cbn [bind]. unfold readTag_CompoundTag in *.
    rewrite (readTag_fuel_mono fuel) by (try lia; rewrite Ht; discriminate).
    now rewrite Ht.
Qed.










(** ** What the missing [break] leaves in the tree *)

Lemma contains_emplace_same (m : CompoundMap) (name : string) (tag : Tag) :
  sorted_keys (keys m) = true ->
  CompoundTag_contains name (map_emplace name tag m) = true.
Proof.
  intros Hs. unfold CompoundTag_contains. destruct (map_find name m) as [x|] eqn:F.
  - now rewrite (find_emplace_present m name tag name x Hs F).
  - now rewrite (find_emplace_new m name tag F).
Qed.

Lemma contains_emplace_other (m : CompoundMap) (name : string) (tag : Tag) (n : string) :
  sorted_keys (keys m) = true -> CompoundTag_contains n m = true ->
  CompoundTag_contains n (map_emplace name tag m) = true.
Proof.
  intros Hs. unfold CompoundTag_contains. destruct (map_find n m) as [x|] eqn:F; [|discriminate].
  intros _. now rewrite (find_emplace_present m name tag n x Hs F).
Qed.

Lemma accompanied_emplace_plain (m : CompoundMap) (name : string) (tag : Tag) :
  sorted_keys (keys m) = true -> accompanied m = true -> holds_list (name, tag) = false ->
  accompanied (map_emplace name tag m) = true.
Proof.
  unfold accompanied. intros Hs Hm Ht. apply orb_true_iff in Hm as [Hm|Hm]; apply orb_true_iff.
  - left. apply emplace_forallb; [now rewrite Ht|assumption].
  - right. now apply contains_emplace_other.
Qed.

Lemma accompanied_emplace_empty (m : CompoundMap) (tag : Tag) :
  sorted_keys (keys m) = true -> accompanied (map_emplace EmptyString tag m) = true.
Proof.
  intros Hs. unfold accompanied. apply orb_true_iff. right. now apply contains_emplace_same.
Qed.

Lemma alternative_ListTag (k : ID) : alternative k = ListTag -> k = LIST.
Proof. destruct k; (reflexivity || discriminate). Qed.

Lemma compound_switch_company (rt : TagType -> nat -> Outcome (Tag * nat)) (id : Z)
    (name : string) (ct : CompoundMap) (pos : nat) (ct' : CompoundMap) (p : nat) :
  (forall T q v q', rt T q = Ok (v, q') -> lists_have_company v = true /\ kind_of v = T) ->
  sorted_keys (keys ct) = true ->
  lists_have_company (TCompound ct) = true ->
  compound_switch rt id name ct pos = Ok (ct', p) ->
  sorted_keys (keys ct') = true /\ lists_have_company (TCompound ct') = true.
Proof.
  intros Hrt Hs Hct H. cbn [lists_have_company] in *.
  apply andb_prop in Hct as [Ha Hv].
  apply compound_switch_Ok_inv in H
    as [(k & v & _ & _ & Hnl & Hv1 & ->)|(v1 & p1 & v2 & _ & Hv1 & Hv2 & ->)].
  - apply Hrt in Hv1 as [Pv Kv]. split; [now apply emplace_sorted|].
    apply andb_true_intro. split.
    + apply accompanied_emplace_plain; try assumption.
      unfold holds_list. cbn [snd]. destruct v; try reflexivity.
      cbn [kind_of] in Kv. symmetry in Kv. apply alternative_ListTag in Kv. contradiction.
    + now apply emplace_forallb.
  - apply Hrt in Hv1 as [Pv1 _]. apply Hrt in Hv2 as [Pv2 _].
    split; [now do 2 apply emplace_sorted|].
    apply andb_true_intro. split.
    + unfold moved_from. apply accompanied_emplace_empty. now apply emplace_sorted.
    + apply emplace_forallb; [assumption|]. now apply emplace_forallb.
Qed.

Lemma readTag_company (fuel : nat) :
  (forall T data pos v p,
     readTag fuel T data pos = Ok (v, p) -> lists_have_company v = true) /\
  (forall data pos ct ct' p,
     sorted_keys (keys ct) = true -> lists_have_company (TCompound ct) = true ->
     readTag_CompoundTag_loop fuel data pos ct = Ok (ct', p) ->
     lists_have_company (TCompound ct') = true).
Proof.
  induction fuel as [|fuel [IHt IHl]].
  - split.
    + intros T data pos v p H. pose proof (readTag_kind _ _ _ _ _ _ H) as K.
      destruct T; try discriminate; destruct v; try discriminate; reflexivity.
    + discriminate.
  - split.
    + intros T data pos v p H. pose proof (readTag_kind _ _ _ _ _ _ H) as K.
      destruct T; try (destruct v; try discriminate; reflexivity).
      * cbn [readTag] in H. bind_inv H. destruct (enumerator z) as [k|]; [|discriminate].
        unfold readListTag in H. bind_inv H. bind_inv H. inversion H; subst.
        cbn [lists_have_company]. apply forallb_forall. apply Forall_forall.
        eapply readListTag_loop_Forall; [|constructor|eassumption].
        intros q' v q''. apply IHt.
      * cbn [readTag] in H. bind_inv H. inversion H; subst.
        eapply (IHl _ _ []); [reflexivity|reflexivity|eassumption].
    + intros data pos ct ct' p Hs Hct H.
      apply loop_Ok_inv in H
        as (id & Hid & Hlt & [(_ & -> & _)|(Hne & name & p1 & ct1 & p2 & Hn & Hw & Hl)]).
      * assumption.
      * eapply compound_switch_company in Hw as [Hs1 Hc1]; try eassumption.
        -- eapply IHl; eassumption.
        -- intros T q v q' Hv. split; [eapply IHt; eassumption|].
           eapply readTag_kind; eassumption.
Qed.

(** X9.  In every tree that [read] returns, every compound that holds a
    list also has an entry under the empty name: after a list entry the
    [switch] runs on into the case of compounds, which emplaces a compound
    under the moved-from name. *)
Theorem decoded_lists_come_with_an_empty_name (data : Span) (ct : CompoundMap) :
  read data = Ok ct -> lists_have_company (TCompound ct) = true.
Proof.
  intros H. unfold read, read_fuel, readTag_CompoundTag in H.
  bind_inv H. destruct (negb _); [discriminate|].
  bind_inv H. bind_inv H. inversion H; subst.
  pose proof (readTag_kind _ _ _ _ _ _ E1) as K.
  apply (proj1 (readTag_company _)) in E1.
  destruct t; try discriminate.
  cbn [map_emplace lists_have_company accompanied forallb holds_list snd negb orb andb] in *.
  now rewrite E1.
Qed.

Lemma decoded_lists_come_with_an_empty_name_witness :
  lists_have_company (TCompound [(""%string,
     TCompound [(""%string, TCompound []); ("l"%string, TList [TByte 5; TByte 7])])]) = true.
Proof.
  apply (decoded_lists_come_with_an_empty_name (scenario4 ++ [x00])). reflexivity.
Defined.

(** ** Nesting depth *)

Lemma depth_TList_app (lst : list Tag) (v : Tag) :
  depth (TList (lst ++ [v])) = Nat.max (depth (TList lst)) (S (depth v)).
Proof.
  cbn [depth]. induction lst as [|e lst IH]; cbn [app fold_right].
  - lia.
  - injection IH as IH. lia.
Qed.

Lemma depth_emplace (name : string) (tag : Tag) (m : CompoundMap) :
  (depth (TCompound (map_emplace name tag m))
   <= Nat.max (depth (TCompound m)) (S (depth tag)))%nat.
Proof.
  cbn [depth]. induction m as [|[k v] m IH]; cbn [map_emplace fold_right snd].
  - lia.
  - destruct (String.compare name k); cbn [fold_right snd]; lia.
Qed.

Lemma readListTag_loop_depth (f : nat -> Outcome (Tag * nat)) (n : nat) (pos : nat)
    (lst lst' : list Tag) (p : nat) :
  (forall q v q', f q = Ok (v, q') -> (q + depth v <= q')%nat) ->
  readListTag_loop f n pos lst = Ok (lst', p) ->
  (pos <= p)%nat /\
  (depth (TList lst') <= Nat.max (depth (TList lst)) (S (p - pos)))%nat.
Proof.
  intros Hf. revert pos lst. induction n as [|n IH]; intros pos lst H;
    cbn [readListTag_loop] in H.
  - inversion H; subst. lia.
  - bind_inv H. destruct (emplace_back lst t) eqn:B; cbn [bind] in H; try discriminate.
    apply emplace_back_Ok in B as [-> _]. apply Hf in E. apply IH in H as [Hle H].
    rewrite depth_TList_app in H. lia.
Qed.

Lemma compound_switch_depth (rt : TagType -> nat -> Outcome (Tag * nat)) (id : Z)
    (name : string) (ct : CompoundMap) (pos : nat) (ct' : CompoundMap) (p : nat) :
  (forall T q v q', rt T q = Ok (v, q') -> (q + depth v <= q')%nat) ->
  compound_switch rt id name ct pos = Ok (ct', p) ->
  (pos <= p)%nat /\
  (depth (TCompound ct') <= Nat.max (depth (TCompound ct)) (S (p - pos)))%nat.
Proof.
  intros Hrt H.
  apply compound_switch_Ok_inv in H
    as [(k & v & _ & _ & _ & Hv & ->)|(v1 & p1 & v2 & _ & Hv1 & Hv2 & ->)].
  - apply Hrt in Hv. pose proof (depth_emplace name v ct). lia.
  - apply Hrt in Hv1, Hv2.
    pose proof (depth_emplace name v1 ct).
    pose proof (depth_emplace (moved_from name) v2 (map_emplace name v1 ct)). lia.
Qed.

Lemma leaf_depth (fuel : nat) (T : TagType) (data : Span) (pos : nat) (v : Tag) (p : nat) :
  leaf T = true -> readTag fuel T data pos = Ok (v, p) -> (pos + depth v <= p)%nat.
Proof.
  intros HT H. pose proof (leaf_inside fuel T data HT _ _ _ H) as [Hle _].
  apply readTag_kind in H. destruct v; cbn [kind_of] in H; subst T; try discriminate;
    cbn [depth]; lia.
Qed.

(** Every level of nesting costs at least one byte. *)
Lemma readTag_depth (fuel : nat) :
  (forall T data pos v p,
     readTag fuel T data pos = Ok (v, p) -> (pos + depth v <= p)%nat) /\
  (forall data pos ct ct' p,
     readTag_CompoundTag_loop fuel data pos ct = Ok (ct', p) ->
     (depth (TCompound ct') <= Nat.max (depth (TCompound ct)) (p - pos))%nat).
Proof.
  induction fuel as [|fuel [IHt IHl]].
  - split.
    + intros T data pos v p H. destruct T; try (now eapply leaf_depth; eauto); discriminate.
    + discriminate.
  - split.
    + intros T data pos v p H. destruct T; try (now eapply leaf_depth; eauto);
        cbn [readTag] in H.
      * bind_inv H. apply readID_Ok_inv in E as [-> _].
        destruct (enumerator z) as [k|]; [|discriminate].
        unfold readListTag in H. bind_inv H. apply readI32_Ok_inv in E as [-> _].
        bind_inv H. inversion H; subst.
        apply readListTag_loop_depth in E as [Hle E]; [|intros q v q'; apply IHt].
        cbn [depth fold_right] in *. lia.
      * bind_inv H. inversion H; subst.
        pose proof (proj2 (readTag_inside fuel) _ _ _ _ _ E) as [Hlt _].
        apply IHl in E. cbn [depth fold_right] in *. lia.
    + intros data pos ct ct' p H.
      apply loop_Ok_inv in H
        as (id & Hid & Hlt & [(_ & -> & ->)|(Hne & name & p1 & ct1 & p2 & Hs & Hw & Hl)]).
      * lia.
      * apply readString_Ok_inv in Hs as [Hs _].
        apply compound_switch_depth in Hw as [Hle Hw]; [|intros T q v q'; apply IHt].
        pose proof (proj2 (readTag_inside fuel) _ _ _ _ _ Hl) as [Hlt2 _].
        apply IHl in Hl. lia.
Qed.

(** X11.  The tree that [read] returns is nested at most as deep as the
    span is long, less two: every list and every compound of a chain of
    nested ones takes at least one byte of its own, after the three bytes
    of the root's header. *)
Theorem nesting_depth_is_bounded_by_the_size (data : Span) (ct : CompoundMap) :
  read data = Ok ct -> (depth (TCompound ct) + 2 <= length data)%nat.
Proof.
  intros H. unfold read, read_fuel, readTag_CompoundTag in H.
  bind_inv H. destruct (negb _); [discriminate|].
  apply readID_Ok_inv in E as [-> _].
  bind_inv H. apply readString_Ok_inv in E as [Hs Hn].
  bind_inv H. inversion H; subst.
  pose proof (proj1 (readTag_inside _) _ _ _ _ _ E) as [_ Hle].
  apply (proj1 (readTag_depth _)) in E.
  cbn [map_emplace depth fold_right snd]. lia.
Qed.

Lemma nesting_depth_is_bounded_by_the_size_witness :
  (depth (TCompound [(""%string, TCompound [])]) + 2 <= length scenario1)%nat.
Proof.
  apply (nesting_depth_is_bounded_by_the_size scenario1). reflexivity.
Defined.

(** ** Bytes before the cursor's first position do not matter *)

Section ShiftedLoops.

Variable k : nat.

Lemma read_array_shifts (f g : nat -> Outcome (Z * nat)) (n : nat) (array : list Z) :
  shifts k f g ->
  shifts k (fun pos => read_array f n pos array) (fun pos => read_array g n pos array).
Proof.
  intros Hs. revert array. induction n as [|n IH]; intros array pos v p; cbn [read_array].
  - intros H. now inversion H.
  - intros H. bind_inv H. rewrite (Hs _ _ _ E). cbn [bind]. now apply IH.
Qed.

Lemma readListTag_loop_shifts (f g : nat -> Outcome (Tag * nat)) (n : nat) (lst : list Tag) :
  shifts k f g ->
  shifts k (fun pos => readListTag_loop f n pos lst) (fun pos => readListTag_loop g n pos lst).
Proof.
  intros Hs. revert lst. induction n as [|n IH]; intros lst pos v p; cbn [readListTag_loop].
  - intros H. now inversion H.
  - intros H. bind_inv H.
    destruct (emplace_back lst t) eqn:B; cbn [bind] in H; try discriminate.
    rewrite (Hs _ _ _ E). cbn [bind]. rewrite B. cbn [bind]. now apply IH.
Qed.

Lemma compound_switch_shifts (rt rt' : TagType -> nat -> Outcome (Tag * nat))
    (id : Z) (name : string) (ct : CompoundMap) :
  (forall T, shifts k (rt T) (rt' T)) ->
  shifts k (compound_switch rt id name ct) (compound_switch rt' id name ct).
Proof.
  intros Hs pos ct' p H.
  apply compound_switch_Ok_inv in H
    as [(i & v & Hk & Hne & Hnl & Hv & ->)|(v1 & p1 & v2 & Hk & Hv1 & Hv2 & ->)];
    unfold compound_switch; rewrite Hk.
  - pose proof (Hs _ _ _ _ Hv) as Hv'.
    destruct i; try congruence; unfold emplace; now rewrite Hv'.
  - unfold emplace. rewrite (Hs _ _ _ _ Hv1). cbn [bind]. now rewrite (Hs _ _ _ _ Hv2).
Qed.

End ShiftedLoops.

Section Shift.

Variables pre data : Span.

Lemma index_shifts : shifts (length pre) (index data) (index (pre ++ data)).
Proof.
  intros pos b p. unfold index.
  rewrite nth_error_app2 by lia.
  replace (length pre + pos - length pre)%nat with pos by lia.
  destruct (nth_error data pos); intros H; inversion H; subst.
  now rewrite Nat.add_succ_r.
Qed.

Lemma check_shifts (pos : nat) (w : Z) :
  (Z.of_nat pos + w >? size data) = false ->
  (Z.of_nat (length pre + pos) + w >? size (pre ++ data)) = false.
Proof.
  unfold size. rewrite length_app. intros H.
  destruct (Z.gtb_spec (Z.of_nat pos + w) (Z.of_nat (length data))); [discriminate|].
  destruct (Z.gtb_spec (Z.of_nat (length pre + pos) + w)
              (Z.of_nat (length pre + length data))); [lia|reflexivity].
Qed.

Ltac shift_index H :=
  bind_inv H;
  match goal with
  | E : index data _ = Ok _ |- _ => rewrite (index_shifts _ _ _ E); cbn [bind]
  end.

Lemma readI8_shifts : shifts (length pre) (readI8 data) (readI8 (pre ++ data)).
Proof.
  intros pos v p. unfold readI8.
  destruct (Z.of_nat pos >? size data) eqn:C; [discriminate|].
  rewrite <- (Z.add_0_r (Z.of_nat pos)) in C.
  pose proof (check_shifts _ _ C) as C'. rewrite Z.add_0_r in C'. rewrite C'.
  intros H. shift_index H. now inversion H.
Qed.

Lemma readI16_shifts : shifts (length pre) (readI16 data) (readI16 (pre ++ data)).
Proof.
  intros pos v p. unfold readI16.
  destruct (_ >? size data) eqn:C; [discriminate|]. rewrite (check_shifts _ _ C).
  intros H. do 2 shift_index H. now inversion H.
Qed.

Lemma readI32_shifts : shifts (length pre) (readI32 data) (readI32 (pre ++ data)).
Proof.
  intros pos v p. unfold readI32.
  destruct (_ >? size data) eqn:C; [discriminate|]. rewrite (check_shifts _ _ C).
  intros H. do 4 shift_index H. now inversion H.
Qed.

Lemma readI64_shifts : shifts (length pre) (readI64 data) (readI64 (pre ++ data)).
Proof.
  intros pos v p. unfold readI64.
  destruct (_ >? size data) eqn:C; [discriminate|]. rewrite (check_shifts _ _ C).
  intros H. do 8 shift_index H. now inversion H.
Qed.

Lemma readID_shifts : shifts (length pre) (readID data) (readID (pre ++ data)).
Proof.
  intros pos v p H. unfold readID in *. bind_inv H. inversion H; subst.
  now rewrite (readI8_shifts _ _ _ E).
Qed.

Lemma subspan_shifts (offset : nat) (count : Z) (bytes : Span) :
  subspan data offset count = Some bytes ->
  subspan (pre ++ data) (length pre + offset) count = Some bytes.
Proof.
  unfold subspan, size. rewrite length_app.
  destruct (Z.ltb_spec (Z.of_nat (length data)) (Z.of_nat offset)); [discriminate|].
  destruct (Z.ltb_spec (Z.of_nat (length pre + length data))
              (Z.of_nat (length pre + offset))); [lia|].
  assert (Hk : skipn (length pre + offset) (pre ++ data) = skipn offset data).
  { rewrite skipn_app. rewrite skipn_all2 by lia.
    now replace (length pre + offset - length pre)%nat with offset by lia. }
  rewrite Hk. destruct (count =? dynamic_extent); [trivial|].
  destruct (Z.leb_spec count (Z.of_nat (length data) - Z.of_nat offset)); [|discriminate].
  destruct (Z.leb_spec count (Z.of_nat (length pre + length data)
                              - Z.of_nat (length pre + offset))); [trivial|lia].
Qed.

Lemma to_size_t_add_dynamic (a : nat) (z : Z) :
  to_size_t z = dynamic_extent -> (0 < a)%nat -> to_size_t (Z.of_nat a + z) <= Z.of_nat a - 1.
Proof.
  unfold to_size_t, dynamic_extent. intros Hz Ha.
  rewrite <- Z.add_mod_idemp_r, Hz by lia.
  replace (Z.of_nat a + (2 ^ 64 - 1)) with (Z.of_nat a - 1 + 1 * 2 ^ 64) by ring.
  rewrite Z.mod_add by lia. apply Z.mod_le; lia.
Qed.

Lemma readString_shifts : shifts (length pre) (readString data) (readString (pre ++ data)).
Proof.
  intros pos str p H. unfold readString in *. bind_inv H.
  rewrite (readI16_shifts _ _ _ E). cbn [bind].
  apply readI16_Ok_inv in E as [-> _].
  destruct (_ >? size data) eqn:C; [discriminate|].
  destruct (subspan data _ _) eqn:S; [|discriminate].
  inversion H; subst. clear C.
  rewrite (subspan_shifts _ _ _ S).
  assert (C' : (to_size_t (Z.of_nat (length pre + (pos + 2)) + z) >? size (pre ++ data))
               = false).
  { unfold size. rewrite length_app.
    match goal with
    | |- (?a >? ?b) = false => destruct (Z.gtb_spec a b) as [Hgt|]; [|reflexivity]
    end.
    exfalso. revert S. unfold subspan, size.
    destruct (Z.ltb_spec (Z.of_nat (length data)) (Z.of_nat (pos + 2))); [discriminate|].
    destruct (Z.eqb_spec (to_size_t z) dynamic_extent) as [Hd|Hd].
    - intros _.
      pose proof (to_size_t_add_dynamic (length pre + (pos + 2)) z Hd ltac:(lia)). lia.
    - destruct (Z.leb_spec (to_size_t z) (Z.of_nat (length data) - Z.of_nat (pos + 2)));
        [|discriminate].
      intros _. pose proof (to_size_t_add_le (length pre + (pos + 2)) z). lia. }
  rewrite C'. f_equal. f_equal. lia.
Qed.

End Shift.

Lemma readArray_shifts (pre data : Span) (w : Z) (f : Span -> nat -> Outcome (Z * nat))
    (c : list Z -> Tag) :
  shifts (length pre) (f data) (f (pre ++ data)) ->
  shifts (length pre)
    (fun pos =>
      '(len, pos) <- readI32 data pos ;;
      let size := to_size_t len in
      '_ <- reserve w size ;;
      '(array, pos) <- read_array (f data) (Z.to_nat size) pos [] ;;
      Ok (c array, pos))
    (fun pos =>
      '(len, pos) <- readI32 (pre ++ data) pos ;;
      let size := to_size_t len in
      '_ <- reserve w size ;;
      '(array, pos) <- read_array (f (pre ++ data)) (Z.to_nat size) pos [] ;;
      Ok (c array, pos)).
Proof.
  intros Hf pos v p H. cbv zeta in *.
  bind_inv H. bind_inv H. bind_inv H. inversion H; subst.
  rewrite (readI32_shifts _ _ _ _ _ E). cbn [bind]. rewrite E0. cbn [bind].
  rewrite (read_array_shifts _ _ _ _ _ Hf _ _ _ E1).
  reflexivity.
Qed.

Lemma leaf_shifts (fuel : nat) (T : TagType) (pre data : Span) :
  leaf T = true ->
  shifts (length pre) (readTag fuel T data) (readTag fuel T (pre ++ data)).
Proof.
  intros HT. destruct T; try discriminate; destruct fuel; cbn [readTag];
    try (intros pos v p H;
         unfold readTag_EndTag, readTag_ByteTag, readTag_ShortTag, readTag_IntTag,
           readTag_LongTag, readTag_FloatTag, readTag_DoubleTag, readTag_StringTag,
           readF32, readF64 in *;
         repeat match goal with
           | H : bind _ _ = Ok _ |- _ => bind_inv H
           | H : Ok _ = Ok _ |- _ => inversion H; subst; clear H
           end;
         first [ reflexivity
               | erewrite readI8_shifts by eassumption
               | erewrite readI16_shifts by eassumption
               | erewrite readI32_shifts by eassumption
               | erewrite readI64_shifts by eassumption
               | erewrite readString_shifts by eassumption ];
         reflexivity);
    first [ apply readArray_shifts with (f := readI8); apply readI8_shifts
          | apply readArray_shifts with (f := readI32); apply readI32_shifts
          | apply readArray_shifts with (f := readI64); apply readI64_shifts ].
Qed.

Lemma readTag_shifts (fuel : nat) (pre data : Span) :
  (forall T, shifts (length pre) (readTag fuel T data) (readTag fuel T (pre ++ data))) /\
  (forall ct, shifts (length pre)
     (fun pos => readTag_CompoundTag_loop fuel data pos ct)
     (fun pos => readTag_CompoundTag_loop fuel (pre ++ data) pos ct)).
Proof.
  induction fuel as [|fuel [IHt IHl]].
  - split.
    + intros T. destruct T; try (now apply leaf_shifts); intros pos v p H; discriminate.
    + discriminate.
  - split.
    + intros T. destruct T; try (now apply leaf_shifts); intros pos v p H;
        cbn [readTag] in *.
      * bind_inv H. rewrite (readID_shifts _ _ _ _ _ E). cbn [bind].
        destruct (enumerator z) as [i|]; [|discriminate].
        unfold readListTag in *. bind_inv H.
        rewrite (readI32_shifts _ _ _ _ _ E0). cbn [bind].
        bind_inv H. inversion H; subst.
        rewrite (readListTag_loop_shifts _ _ _ _ _ (IHt _) _ _ _ E1).
        reflexivity.
      * bind_inv H. inversion H; subst. now rewrite (IHl _ _ _ _ E).
    + intros ct pos ct' p H.
      apply loop_Ok_inv in H
        as (id & Hid & Hlt & [(-> & -> & ->)|(Hne & name & p1 & ct1 & p2 & Hs & Hw & Hl)]);
        cbn [readTag_CompoundTag_loop]; rewrite (readID_shifts _ _ _ _ _ Hid); cbn [bind].
      * reflexivity.
      * cbn [ID_value]. destruct (Z.eqb_spec id 0); [contradiction|].
        rewrite (readString_shifts _ _ _ _ _ Hs). cbn [bind].
        rewrite (compound_switch_shifts _ _ (fun T => readTag fuel T (pre ++ data))
                   id name ct IHt _ _ _ Hw).
        cbn [bind]. now apply IHl.
Qed.

(** X12.  Decoding does not depend on where in the span the bytes lie: a
    tag that decodes at [pos] decodes to the same tag, and over the same
    number of bytes, when any bytes are put in front of the span and the
    cursor is moved on by their number; and, if the decode stopped before
    the end of the span, also when any bytes are put after it. *)
Theorem decoding_is_independent_of_position (fuel : nat) (T : TagType) (pre data : Span)
    (pos : nat) (v : Tag) (p : nat) :
  readTag fuel T data pos = Ok (v, p) ->
  readTag fuel T (pre ++ data) (length pre + pos) = Ok (v, (length pre + p)%nat) /\
  ((p < length data)%nat ->
   forall sfx, readTag fuel T (pre ++ data ++ sfx) (length pre + pos)
               = Ok (v, (length pre + p)%nat)).
Proof.
  intros H. split.
  - now apply readTag_shifts.
  - intros Hp sfx. apply readTag_shifts.
    exact (proj1 (readTag_app fuel sfx) T data pos v p H Hp).
Qed.

Lemma decoding_is_independent_of_position_witness :
  readTag 5 CompoundTag ([xff; x0a] ++ scenario2 ++ [xff]) (length [xff; x0a] + 3)
  = Ok (TCompound [("x"%string, TInt 42)], (length [xff; x0a] + 12)%nat) /\
  ((12 < length (scenario2 ++ [xff]))%nat ->
   forall sfx,
     readTag 5 CompoundTag ([xff; x0a] ++ (scenario2 ++ [xff]) ++ sfx) (length [xff; x0a] + 3)
     = Ok (TCompound [("x"%string, TInt 42)], (length [xff; x0a] + 12)%nat)).
Proof.
  apply (decoding_is_independent_of_position 5 CompoundTag [xff; x0a] (scenario2 ++ [xff]) 3).
  reflexivity.
Defined.

(** ** No limit on nesting *)

Lemma readString_empty (data : Span) (pos : nat) (q : nat) :
  readI16 data pos = Ok (0, q) -> readString data pos = Ok (EmptyString, q).
Proof.
  intros H. pose proof (readI16_Ok_inv _ _ _ _ H) as [_ Hq].
  unfold readString. rewrite H. cbn [bind].
  rewrite Z.add_0_r.
  assert (C : (to_size_t (Z.of_nat q) >? size data) = false).
  { unfold size, to_size_t.
    match goal with
    | |- (?a >? ?b) = false => destruct (Z.gtb_spec a b) as [Hgt|]; [|reflexivity]
    end.
    pose proof (Z.mod_le (Z.of_nat q) (2 ^ 64) ltac:(lia) ltac:(lia)). lia. }
  rewrite C. unfold subspan, size.
  destruct (Z.ltb_spec (Z.of_nat (length data)) (Z.of_nat q)); [lia|].
  change (to_size_t 0) with 0. change (0 =? dynamic_extent) with false.
  destruct (Z.leb_spec 0 (Z.of_nat (length data) - Z.of_nat q)); [|lia].
  cbn [Z.to_nat firstn string_of_list_byte length]. now rewrite Nat.add_0_r.
Qed.

Lemma nested_body_length (n : nat) : length (nested_body n) = (4 * n + 1)%nat.
Proof.
  induction n as [|n IH]; [reflexivity|].
  cbn [nested_body app length]. rewrite length_app, IH. cbn [length]. lia.
Qed.

Lemma nested_map_depth (n : nat) : depth (TCompound (nested_map n)) = S n.
Proof.
  induction n as [|n IH]; [reflexivity|].
  cbn [nested_map]. cbn [depth fold_right snd] in *. rewrite IH. lia.
Qed.

(** An entry of kind Compound under the empty name, then the bytes [rest]. *)
Lemma empty_name_header (rest : Span) :
  readID ([x0a; x00; x00] ++ rest) 0 = Ok (ID_value COMPOUND, 1%nat) /\
  readString ([x0a; x00; x00] ++ rest) 1 = Ok (EmptyString, 3%nat).
Proof.
  split.
  - now apply (readID_app [x0a; x00; x00] rest 0).
  - apply readString_empty. now apply (readI16_app [x0a; x00; x00] rest 1).
Qed.

Lemma nested_body_decodes (n : nat) :
  readTag_CompoundTag_loop (S (2 * n)) (nested_body n) 0 []
  = Ok (nested_map n, length (nested_body n)).
Proof.
  induction n as [|n IH]; [reflexivity|].
  replace (2 * S n)%nat with (S (S (2 * n))) by lia.
  destruct (empty_name_header (nested_body n ++ [x00])) as [Hid Hs].
  cbn [nested_body nested_map].
  assert (Hbody : readTag (S (S (2 * n))) CompoundTag
                    ([x0a; x00; x00] ++ nested_body n ++ [x00]) 3
                  = Ok (TCompound (nested_map n), (3 + length (nested_body n))%nat)).
  { cbn [readTag].
    apply (proj2 (readTag_app _ [x00])) in IH.
    apply (proj2 (readTag_shifts _ [x0a; x00; x00] _)) in IH.
    cbn [length Nat.add] in IH. cbn [Nat.add]. now rewrite IH. }
  assert (Hend : readID ([x0a; x00; x00] ++ nested_body n ++ [x00])
                   (3 + length (nested_body n))
                 = Ok (0, S (3 + length (nested_body n)))).
  { pose proof (readID_shifts ([x0a; x00; x00] ++ nested_body n) [x00] 0%nat 0 1%nat eq_refl) as H.
    rewrite <- app_assoc, length_app, Nat.add_0_r in H. cbn [length] in H.
    rewrite H. f_equal. f_equal. lia. }
  remember (S (S (2 * n))) as fuel eqn:Hfuel.
  cbn [readTag_CompoundTag_loop]. rewrite Hid. cbn [bind ID_value Z.eqb].
  rewrite Hs. cbn [bind].
  unfold compound_switch. change (enumerator 10) with (Some COMPOUND).
  cbn [alternative]. unfold emplace.
  rewrite Hbody. cbn [bind map_emplace].
  rewrite Hfuel. cbn [readTag_CompoundTag_loop]. rewrite Hend. cbn [bind ID_value Z.eqb].
  f_equal. f_equal. cbn [app length]. rewrite length_app. cbn [length]. lia.
Qed.

(** The run of the embedding on [nested n], where recursion costs nothing. *)
Lemma nested_decodes (n : nat) :
  read (nested n) = Ok [(EmptyString, TCompound (nested_map n))].
Proof.
  apply read_ends_read. exists (3 + length (nested_body n))%nat.
  exists (S (S (2 * n))), EmptyString, 3%nat, (TCompound (nested_map n)).
  destruct (empty_name_header (nested_body n)) as [Hid Hs].
  unfold nested. repeat split; try assumption.
  unfold readTag_CompoundTag. cbn [readTag].
  pose proof (proj2 (readTag_shifts _ [x0a; x00; x00] _) _ _ _ _ (nested_body_decodes n))
    as H.
  cbn [length Nat.add] in H. cbn [Nat.add]. now rewrite H.
Qed.

(** Two levels under the root. *)
Example nested_2_decodes :
  read (nested 2)
  = Ok [(EmptyString,
         TCompound [(EmptyString, TCompound [(EmptyString, TCompound [])])])].
Proof. reflexivity. Qed.

(** X13.  No check of the decoder limits nesting.  For every [n] the span
    [nested n], of [4 * n + 4] bytes, is never answered with the absent
    value, and a run on it that returns a tree returns the tree nested
    [n + 2] deep, which it builds by [n + 1] calls of
    [readTag<CompoundTag>] inside one another.  Whether the run returns is
    a matter of the call stack, which the embedding does not bound. *)
Theorem nesting_is_not_limited (n : nat) :
  read (nested n) <> Absent /\
  length (nested n) = (4 * n + 4)%nat /\
  forall t, read (nested n) = Ok t ->
    t = [(EmptyString, TCompound (nested_map n))] /\
    depth (TCompound t) = (n + 2)%nat.
Proof.
  split; [rewrite nested_decodes; discriminate|]. split.
  - unfold nested. rewrite length_app, nested_body_length. cbn [length]. lia.
  - intros t H. rewrite nested_decodes in H. inversion H; subst. split; [reflexivity|].
    pose proof (nested_map_depth n) as Hd. cbn [depth fold_right snd] in *. rewrite Hd. lia.
Qed.

(** ** The members of [CompoundTag] *)

Lemma eqb_compare_Gt (n k : string) : String.compare n k = Gt -> String.eqb n k = false.
Proof.
  intros C. destruct (String.eqb n k) eqn:E; [|reflexivity].
  apply compare_Eq_eqb in E. congruence.
Qed.

Lemma eqb_compare_Lt (n k : string) : String.compare n k = Lt -> String.eqb n k = false.
Proof.
  intros C. destruct (String.eqb n k) eqn:E; [|reflexivity].
  apply compare_Eq_eqb in E. congruence.
Qed.

Lemma emplace_present (m : CompoundMap) (name : string) (tag x : Tag) :
  sorted_keys (keys m) = true -> map_find name m = Some x -> map_emplace name tag m = m.
Proof.
  induction m as [|[k v] m IH]; [discriminate|]. intros Hs Hf.
  cbn [map_emplace map_find] in *. destruct (String.compare name k) eqn:C.
  - reflexivity.
  - rewrite (eqb_compare_Lt _ _ C) in Hf.
    rewrite (find_below m k name Hs) in Hf by congruence. discriminate.
  - rewrite (eqb_compare_Gt _ _ C) in Hf. f_equal.
    apply IH; [now apply sorted_keys_tail in Hs|assumption].
Qed.

Lemma emplace_new_length (m : CompoundMap) (name : string) (tag : Tag) :
  map_find name m = None -> length (map_emplace name tag m) = S (length m).
Proof.
  induction m as [|[k v] m IH]; [reflexivity|]. cbn [map_emplace map_find].
  destruct (String.eqb name k) eqn:E; [discriminate|]. intros Hf.
  destruct (String.compare name k) eqn:C; cbn [length].
  - apply compare_Eq_eqb in C. congruence.
  - reflexivity.
  - now rewrite IH.
Qed.

Lemma erase_emplace_new (m : CompoundMap) (name : string) (tag : Tag) :
  map_find name m = None -> map_erase name (map_emplace name tag m) = m.
Proof.
  induction m as [|[k v] m IH]; cbn [map_emplace map_find map_erase].
  - now rewrite String.eqb_refl.
  - destruct (String.eqb name k) eqn:E; [discriminate|]. intros Hf.
    destruct (String.compare name k) eqn:C; cbn [map_erase].
    + apply compare_Eq_eqb in C. congruence.
    + now rewrite String.eqb_refl.
    + rewrite E. f_equal. now apply IH.
Qed.

(** X15.  [CompoundTag::emplace] on a key-ordered compound: the name is
    then found, with the value it had before or, if it was new, with the
    tag given; a name already present leaves the compound as it was; a new
    name adds one entry, keeps the key order, and [erase] of it gives the
    former compound back. *)
Theorem CompoundTag_emplace_never_overwrites (name : string) (tag : Tag) (m : CompoundMap) :
  sorted_keys (keys m) = true ->
  sorted_keys (keys (map_emplace name tag m)) = true /\
  CompoundTag_contains name (map_emplace name tag m) = true /\
  match map_find name m with
  | Some x =>
      CompoundTag_at name (map_emplace name tag m) = Ok x /\
      map_emplace name tag m = m
  | None =>
      CompoundTag_at name (map_emplace name tag m) = Ok tag /\
      CompoundTag_size (map_emplace name tag m) = CompoundTag_size m + 1 /\
      CompoundTag_erase name (map_emplace name tag m) = (m, 1)
  end.
Proof.
  intros Hs. split; [now apply emplace_sorted|].
  split; [now apply contains_emplace_same|].
  unfold CompoundTag_at, CompoundTag_size, CompoundTag_erase, CompoundTag_contains.
  destruct (map_find name m) as [x|] eqn:F.
  - split; [|now apply (emplace_present m name tag x)].
    now rewrite (find_emplace_present m name tag name x Hs F).
  - rewrite (find_emplace_new m name tag F), (emplace_new_length m name tag F),
      (erase_emplace_new m name tag F).
    repeat split. lia.
Qed.

Lemma CompoundTag_emplace_never_overwrites_witness :
  sorted_keys (keys (map_emplace "b" (TByte 2) [("a"%string, TByte 1); ("c"%string, TByte 3)]))
  = true /\
  CompoundTag_contains "b"
    (map_emplace "b" (TByte 2) [("a"%string, TByte 1); ("c"%string, TByte 3)]) = true /\
  match map_find "b" [("a"%string, TByte 1); ("c"%string, TByte 3)] with
  | Some x =>
      CompoundTag_at "b"
        (map_emplace "b" (TByte 2) [("a"%string, TByte 1); ("c"%string, TByte 3)]) = Ok x /\
      map_emplace "b" (TByte 2) [("a"%string, TByte 1); ("c"%string, TByte 3)]
      = [("a"%string, TByte 1); ("c"%string, TByte 3)]
  | None =>
      CompoundTag_at "b"
        (map_emplace "b" (TByte 2) [("a"%string, TByte 1); ("c"%string, TByte 3)])
      = Ok (TByte 2) /\
      CompoundTag_size
        (map_emplace "b" (TByte 2) [("a"%string, TByte 1); ("c"%string, TByte 3)])
      = CompoundTag_size [("a"%string, TByte 1); ("c"%string, TByte 3)] + 1 /\
      CompoundTag_erase "b"
        (map_emplace "b" (TByte 2) [("a"%string, TByte 1); ("c"%string, TByte 3)])
      = ([("a"%string, TByte 1); ("c"%string, TByte 3)], 1)
  end.
Proof.
  apply (CompoundTag_emplace_never_overwrites "b" (TByte 2)
           [("a"%string, TByte 1); ("c"%string, TByte 3)]).
  reflexivity.
Defined.

Lemma erase_above (m : CompoundMap) (name k0 : string) :
  sorted_keys (k0 :: keys m) = true -> sorted_keys (k0 :: keys (map_erase name m)) = true.
Proof.
  revert k0. induction m as [|[k1 v1] m IH]; intros k0 Hs; cbn [map_erase keys map fst] in *.
  - reflexivity.
  - destruct (String.eqb name k1).
    + destruct m as [|[k2 v2] m]; [reflexivity|]. cbn [keys map fst] in *.
      pose proof (sorted_keys_head _ _ _ Hs) as H01. apply sorted_keys_tail in Hs.
      pose proof (sorted_keys_head _ _ _ Hs) as H12. apply sorted_keys_tail in Hs.
      apply sorted_keys_cons; [|assumption]. eapply compare_Lt_trans; eassumption.
    + cbn [keys map fst]. apply sorted_keys_cons; [now apply sorted_keys_head in Hs|].
      apply IH. now apply sorted_keys_tail in Hs.
Qed.

Lemma erase_sorted (m : CompoundMap) (name : string) :
  sorted_keys (keys m) = true -> sorted_keys (keys (map_erase name m)) = true.
Proof.
  destruct m as [|[k1 v1] m]; [reflexivity|]. intros Hs. cbn [map_erase].
  destruct (String.eqb name k1).
  - now apply sorted_keys_tail in Hs.
  - now apply erase_above.
Qed.

Lemma find_erase_same (m : CompoundMap) (name : string) :
  sorted_keys (keys m) = true -> map_find name (map_erase name m) = None.
Proof.
  induction m as [|[k v] m IH]; [reflexivity|]. intros Hs. cbn [map_erase].
  destruct (String.eqb name k) eqn:E.
  - apply String.eqb_eq in E. subst k.
    apply (find_below m name name Hs). now rewrite compare_refl.
  - cbn [map_find]. rewrite E. apply IH. now apply sorted_keys_tail in Hs.
Qed.

Lemma find_erase_other (m : CompoundMap) (name n : string) :
  n <> name -> map_find n (map_erase name m) = map_find n m.
Proof.
  intros Hn. induction m as [|[k v] m IH]; [reflexivity|]. cbn [map_erase map_find].
  destruct (String.eqb name k) eqn:E.
  - apply String.eqb_eq in E. subst k.
    apply String.eqb_neq in Hn. now rewrite Hn.
  - cbn [map_find]. now rewrite IH.
Qed.

Lemma erase_length (m : CompoundMap) (name : string) :
  Z.of_nat (length (map_erase name m))
  = Z.of_nat (length m) - (if CompoundTag_contains name m then 1 else 0).
Proof.
  unfold CompoundTag_contains.
  induction m as [|[k v] m IH]; [reflexivity|]. cbn [map_erase map_find].
  destruct (String.eqb name k); cbn [length]; [lia|].
  rewrite Nat2Z.inj_succ, IH. destruct (map_find name m); lia.
Qed.

(** X16.  [CompoundTag::erase] on a key-ordered compound removes the entry
    of the name and nothing else: the name is no longer contained and [at]
    throws for it, every other name is found as before, the key order is
    kept, and the size goes down by the number [erase] returns, which is 1
    when the name was contained and 0 otherwise. *)
Theorem CompoundTag_erase_removes_the_name (name : string) (m : CompoundMap) :
  sorted_keys (keys m) = true ->
  sorted_keys (keys (fst (CompoundTag_erase name m))) = true /\
  CompoundTag_contains name (fst (CompoundTag_erase name m)) = false /\
  CompoundTag_at name (fst (CompoundTag_erase name m)) = Throws /\
  (forall n, n <> name ->
     map_find n (fst (CompoundTag_erase name m)) = map_find n m) /\
  CompoundTag_size (fst (CompoundTag_erase name m))
  = CompoundTag_size m - snd (CompoundTag_erase name m) /\
  (snd (CompoundTag_erase name m) = 1 <-> CompoundTag_contains name m = true) /\
  (snd (CompoundTag_erase name m) = 0 <-> CompoundTag_contains name m = false).
Proof.
  intros Hs. unfold CompoundTag_erase, CompoundTag_at, CompoundTag_size. cbn [fst snd].
  split; [now apply erase_sorted|].
  unfold CompoundTag_contains at 1. rewrite (find_erase_same m name Hs).
  split; [reflexivity|]. split; [reflexivity|].
  split; [intros n Hn; now apply find_erase_other|].
  split; [apply erase_length|].
  destruct (CompoundTag_contains name m); split; split; (reflexivity || discriminate).
Qed.

Lemma CompoundTag_erase_removes_the_name_witness :
  sorted_keys (keys (fst (CompoundTag_erase "a" [("a"%string, TByte 1); ("c"%string, TByte 3)])))
  = true /\
  CompoundTag_contains "a"
    (fst (CompoundTag_erase "a" [("a"%string, TByte 1); ("c"%string, TByte 3)])) = false /\
  CompoundTag_at "a"
    (fst (CompoundTag_erase "a" [("a"%string, TByte 1); ("c"%string, TByte 3)])) = Throws /\
  (forall n, n <> "a"%string ->
     map_find n (fst (CompoundTag_erase "a" [("a"%string, TByte 1); ("c"%string, TByte 3)]))
     = map_find n [("a"%string, TByte 1); ("c"%string, TByte 3)]) /\
  CompoundTag_size (fst (CompoundTag_erase "a" [("a"%string, TByte 1); ("c"%string, TByte 3)]))
  = CompoundTag_size [("a"%string, TByte 1); ("c"%string, TByte 3)]
    - snd (CompoundTag_erase "a" [("a"%string, TByte 1); ("c"%string, TByte 3)]) /\
  (snd (CompoundTag_erase "a" [("a"%string, TByte 1); ("c"%string, TByte 3)]) = 1
   <-> CompoundTag_contains "a" [("a"%string, TByte 1); ("c"%string, TByte 3)] = true) /\
  (snd (CompoundTag_erase "a" [("a"%string, TByte 1); ("c"%string, TByte 3)]) = 0
   <-> CompoundTag_contains "a" [("a"%string, TByte 1); ("c"%string, TByte 3)] = false).
Proof.
  apply (CompoundTag_erase_removes_the_name "a" [("a"%string, TByte 1); ("c"%string, TByte 3)]).
  reflexivity.
Defined.

(** X19.  A [readTag<T>] that returns a tag has moved the cursor forward
    by at least the bytes every encoding of [T] has, never backward, and,
    for every [T] but [EndTag], which reads nothing, has left it inside the
    span or at its end. *)
Theorem readTag_moves_forward_inside_the_span (fuel : nat) (T : TagType) (data : Span)
    (pos : nat) (v : Tag) (p : nat) :
  readTag fuel T data pos = Ok (v, p) ->
  (pos + least_size T <= p)%nat /\ (T <> EndTag -> (p <= length data)%nat).
Proof.
  intros H. destruct T; cbn [least_size];
    try (destruct fuel; cbn [readTag] in H;
         unfold readTag_EndTag, readTag_ByteTag, readTag_ShortTag, readTag_IntTag,
           readTag_LongTag, readTag_FloatTag, readTag_DoubleTag, readTag_StringTag,
           readTag_ByteArrayTag, readTag_IntArrayTag, readTag_LongArrayTag,
           readF32, readF64 in H;
         cbv zeta in H;
         repeat match goal with
           | H : bind _ _ = Ok _ |- _ => bind_inv H
           | H : Ok _ = Ok _ |- _ => inversion H; subst; clear H
           | H : readI8 _ _ = Ok _ |- _ => apply readI8_Ok_inv in H
           | H : readI16 _ _ = Ok _ |- _ => apply readI16_Ok_inv in H
           | H : readI32 _ _ = Ok _ |- _ => apply readI32_Ok_inv in H
           | H : readI64 _ _ = Ok _ |- _ => apply readI64_Ok_inv in H
           | H : readString _ _ = Ok _ |- _ => apply readString_Ok_inv in H
           | H : read_array (readI8 ?d) _ _ _ = Ok _ |- _ =>
               apply (read_array_inside (length d) _ _ _ (readI8_inside d)) in H
           | H : read_array (readI32 ?d) _ _ _ = Ok _ |- _ =>
               apply (read_array_inside (length d) _ _ _ (readI32_inside d)) in H
           | H : read_array (readI64 ?d) _ _ _ = Ok _ |- _ =>
               apply (read_array_inside (length d) _ _ _ (readI64_inside d)) in H
           end;
         (split; [lia|intros HT; try congruence; lia])).
  - destruct fuel; cbn [readTag] in H; [discriminate|].
    bind_inv H. apply readID_Ok_inv in E as [-> _].
    destruct (enumerator z) as [k|]; [|discriminate].
    unfold readListTag in H. bind_inv H. apply readI32_Ok_inv in E as [-> Hq].
    bind_inv H. inversion H; subst.
    apply (readListTag_loop_inside (length data) _ _ _
             (proj1 (readTag_inside fuel) _ data)) in E.
    split; [lia|intros _; lia].
  - destruct fuel; cbn [readTag] in H; [discriminate|].
    bind_inv H. inversion H; subst.
    apply (proj2 (readTag_inside fuel)) in E. split; [lia|intros _; lia].
Qed.

Lemma readTag_moves_forward_inside_the_span_witness :
  (7 + least_size ListTag <= 14)%nat /\ (ListTag <> EndTag -> (14 <= length scenario4)%nat).
Proof.
  apply (readTag_moves_forward_inside_the_span 1 ListTag scenario4 7 (TList [TByte 5; TByte 7])).
  reflexivity.
Defined.
